(** * Course Compass: structure-aware chunking and hybrid retrieval

    A shallow embedding of [chunk_text] (backend/src/indexer.py) and of the
    [Retriever] search-and-fusion methods (backend/src/retriever.py),
    followed by the properties established about them.

    Conventions of the embedding.
    - A Python [str] is a list of characters; characters are the code
      points below 256, on which [\d], [str.isspace] and [str.lower] are
      the functions written out in [Py].
    - Character offsets and the chunking parameters are Python [int]s,
      hence [Z]; slicing follows Python for negative and out-of-range
      bounds.
    - Scores are Python floats; they are taken here as exact rationals
      ([Q]), so rounding is not part of the model. *)

From Stdlib Require Import ZArith QArith List String Ascii Bool Lia Lqa.
From Stdlib Require Import Permutation Sorted.
Import ListNotations.

Local Open Scope Z_scope.

(* ================================================================== *)
(** * Part I: definitions *)
(* ================================================================== *)

(** ** Python built-ins used by the two modules *)
Module Py.

Definition str := list ascii.

(** A string literal of the source. *)
Definition lit (s : string) : str := list_ascii_of_string s.

Definition len (s : str) : Z := Z.of_nat (List.length s).

Definition code (c : ascii) : nat := nat_of_ascii c.

(** [\d] on code points below 256: the ASCII digits. *)
Definition is_digit (c : ascii) : bool :=
  (48 <=? code c)%nat && (code c <=? 57)%nat.

(** [str.isspace] on code points below 256. *)
Definition isspace (c : ascii) : bool :=
  let n := code c in
  ((9 <=? n)%nat && (n <=? 13)%nat)
  || ((28 <=? n)%nat && (n <=? 32)%nat)
  || (n =? 133)%nat || (n =? 160)%nat.

(** [str.lower] on code points below 256. *)
Definition lower_char (c : ascii) : ascii :=
  let n := code c in
  if ((65 <=? n)%nat && (n <=? 90)%nat)
     || ((192 <=? n)%nat && (n <=? 222)%nat && negb (n =? 215)%nat)
  then ascii_of_nat (n + 32) else c.

Definition lower (s : str) : str := map lower_char s.

Fixpoint lstrip (s : str) : str :=
  match s with
  | c :: s' => if isspace c then lstrip s' else s
  | [] => []
  end.

Definition rstrip (s : str) : str := rev (lstrip (rev s)).

(** [s.strip()] *)
Definition strip (s : str) : str := rstrip (lstrip s).

(** Truth value of a string: non-empty. *)
Definition truthy (s : str) : bool :=
  match s with [] => false | _ :: _ => true end.

(** One bound of a slice, as Python normalises it. *)
Definition clip (n i : Z) : Z :=
  if i <? 0 then Z.max 0 (i + n) else Z.min i n.

(** [s[a:b]] *)
Definition slice (s : str) (a b : Z) : str :=
  let a' := clip (len s) a in
  let b' := clip (len s) b in
  firstn (Z.to_nat (b' - a')) (skipn (Z.to_nat a') s).

(** [s.startswith(p)] *)
Fixpoint startswith (s p : str) : bool :=
  match p with
  | [] => true
  | c :: p' =>
      match s with
      | [] => false
      | d :: s' => Ascii.eqb c d && startswith s' p'
      end
  end.

(** [p in s] for strings *)
Fixpoint contains (s p : str) : bool :=
  startswith s p
  || match s with
     | [] => false
     | _ :: s' => contains s' p
     end.

(** *** Regular expressions

    The three patterns of [chunk_text] are matched by the functions
    below; each returns the length of the match that starts at the head
    of its argument, if there is one. *)

Fixpoint match_literal (l s : str) : option str :=
  match l with
  | [] => Some s
  | c :: l' =>
      match s with
      | [] => None
      | d :: s' => if Ascii.eqb c d then match_literal l' s' else None
      end
  end.

(** Length of the longest prefix whose characters satisfy [p]. *)
Fixpoint span (p : ascii -> bool) (s : str) : nat :=
  match s with
  | c :: s' => if p c then S (span p s') else O
  | [] => O
  end.

Definition closing_bracket : ascii := "]"%char.

Definition is_closing (c : ascii) : bool := Ascii.eqb c closing_bracket.

(** [\[TABLE \d+\]] *)
Definition match_table (s : str) : option nat :=
  match match_literal (lit "[TABLE ") s with
  | None => None
  | Some r =>
      let n := span is_digit r in
      if (n =? 0)%nat then None
      else match skipn n r with
           | c :: _ => if is_closing c then Some (7 + n + 1)%nat else None
           | [] => None
           end
  end.

(** [\[END TABLE\]] *)
Definition match_end_table (s : str) : option nat :=
  match match_literal (lit "[END TABLE]") s with
  | None => None
  | Some _ => Some 11%nat
  end.

(** [\[SLIDE \d+[^\]]*\]] *)
Definition match_slide (s : str) : option nat :=
  match match_literal (lit "[SLIDE ") s with
  | None => None
  | Some r =>
      let n := span is_digit r in
      if (n =? 0)%nat then None
      else
        let r' := skipn n r in
        let m := span (fun c => negb (is_closing c)) r' in
        match skipn m r' with
        | _ :: _ => Some (7 + n + m + 1)%nat
        | [] => None
        end
  end.

(** [re.finditer]: the matches from left to right, none overlapping an
    earlier one.  [pos] is the offset of the head of [s]; [skip] counts
    the characters still covered by the last match. *)
Fixpoint finditer_from (m : str -> option nat) (pos skip : nat) (s : str)
  : list (nat * nat) :=
  match s with
  | [] => []
  | _ :: s' =>
      match skip with
      | S k => finditer_from m (S pos) k s'
      | O =>
          match m s with
          | Some n => (pos, (pos + n)%nat) :: finditer_from m (S pos) (pred n) s'
          | None => finditer_from m (S pos) O s'
          end
      end
  end.

(** The [(m.start(), m.end())] pairs of [re.finditer(pattern, text)]. *)
Definition finditer (m : str -> option nat) (text : str) : list (Z * Z) :=
  map (fun p => (Z.of_nat (fst p), Z.of_nat (snd p))) (finditer_from m 0 0 text).

End Py.

(** ** indexer.py: [chunk_text] *)
Module Indexer.
Import Py.

(** The chunking defaults of config.py. *)
Definition CHUNK_SIZE : Z := 1200.
Definition CHUNK_OVERLAP : Z := 200.

(** The second component of the answer of [is_in_protected_region]. *)
Inductive region_type := table | slide.

(** A [(chunk, start_char, end_char)] tuple. *)
Definition chunk_tuple : Type := str * Z * Z.

Definition chunk_start (c : chunk_tuple) : Z := snd (fst c).
Definition chunk_end (c : chunk_tuple) : Z := snd c.
Definition chunk_str (c : chunk_tuple) : str := fst (fst c).

Section ChunkText.
Variable text : str.
Variables chunk_size overlap : Z.

(** The [(m.start(), m.end())] pairs of the two table markers. *)
Definition table_starts : list (Z * Z) := finditer match_table text.
Definition table_ends : list (Z * Z) := finditer match_end_table text.

(** The inner [for ... break]: the first closing marker that starts
    after [start_pos]. *)
Fixpoint first_end_after (start_pos : Z) (ends : list (Z * Z)) : option Z :=
  match ends with
  | [] => None
  | (end_pos, end_end) :: ends' =>
      if end_pos >? start_pos then Some end_end
      else first_end_after start_pos ends'
  end.

(** The outer loop: one range per opener that finds a closer. *)
Definition table_ranges_of (starts ends : list (Z * Z)) : list (Z * Z) :=
  fold_left
    (fun ranges s =>
       match first_end_after (fst s) ends with
       | Some end_end => ranges ++ [(fst s, end_end)]
       | None => ranges
       end)
    starts [].

Definition table_ranges : list (Z * Z) :=
  table_ranges_of table_starts table_ends.

Definition slide_matches : list (Z * Z) := finditer match_slide text.

(** The loop over [enumerate(slide_matches)]; [i] is the index of the
    head of [ms] in [all]. *)
Fixpoint slide_ranges_from (all : list (Z * Z)) (i : nat) (ms : list (Z * Z))
  : list (Z * Z) :=
  match ms with
  | [] => []
  | m :: ms' =>
      let start_pos := fst m in
      let end_pos :=
        if (i + 1 <? List.length all)%nat
        then fst (nth (i + 1) all (0, 0))
        else len text in
      (start_pos, end_pos) :: slide_ranges_from all (S i) ms'
  end.

Definition slide_ranges : list (Z * Z) :=
  slide_ranges_from slide_matches 0 slide_matches.

(** The scan [for start, end in ranges: if start <= pos < end: return]. *)
Fixpoint find_range (pos : Z) (ranges : list (Z * Z)) : option (Z * Z) :=
  match ranges with
  | [] => None
  | (s, e) :: ranges' =>
      if (s <=? pos) && (pos <? e) then Some (s, e)
      else find_range pos ranges'
  end.

(** The region that answers the point query: tables first. *)
Definition protected_region_at (pos : Z) : option (region_type * (Z * Z)) :=
  match find_range pos table_ranges with
  | Some r => Some (table, r)
  | None =>
      match find_range pos slide_ranges with
      | Some r => Some (slide, r)
      | None => None
      end
  end.

(** The [(is_protected, region_type, end_pos)] tuple of the point query. *)
Definition is_in_protected_region (pos : Z) : bool * option region_type * Z :=
  match protected_region_at pos with
  | Some (ty, (_, e)) => (true, Some ty, e)
  | None => (false, None, pos)
  end.

(** [chunks.append(...)] guarded by [if chunk.strip()]. *)
Definition append_nonblank (chunks : list chunk_tuple) (s e : Z)
  : list chunk_tuple :=
  let chunk := slice text s e in
  if truthy (strip chunk) then chunks ++ [(chunk, s, e)] else chunks.

(** The end of an ordinary chunk that starts at [start]. *)
Definition ordinary_end (start : Z) : Z :=
  let e := start + chunk_size in
  if e <? len text then
    match is_in_protected_region e with
    | (true, _, region_end_at_end) =>
        Z.min region_end_at_end (start + chunk_size * 2)
    | (false, _, _) => e
    end
  else e.

(** The [while start < len(text)] loop; [None] when the fuel runs out. *)
Fixpoint chunk_loop (fuel : nat) (start : Z) (chunks : list chunk_tuple)
  : option (list chunk_tuple) :=
  match fuel with
  | O => None
  | S fuel' =>
      if start <? len text then
        match is_in_protected_region start with
        | (true, _, region_end) =>
            chunk_loop fuel' region_end (append_nonblank chunks start region_end)
        | (false, _, _) =>
            let e := ordinary_end start in
            let chunks' := append_nonblank chunks start e in
            let start' := start + (chunk_size - overlap) in
            if start' >=? len text then Some chunks'
            else chunk_loop fuel' start' chunks'
        end
      else Some chunks
  end.

End ChunkText.

(** [chunk_text(text, chunk_size, overlap)], the defaults filled in.
    A run of the loop that ends moves the cursor forward in every pass,
    so [len(text) + 1] passes are enough whenever the loop ends at all
    ([chunk_text_fuel] below); [None] stands for a loop that never ends. *)
Definition chunk_text (text : str) (chunk_size overlap : option Z)
  : option (list chunk_tuple) :=
  let chunk_size := match chunk_size with Some c => c | None => CHUNK_SIZE end in
  let overlap := match overlap with Some o => o | None => CHUNK_OVERLAP end in
  chunk_loop text chunk_size overlap (S (List.length text)) 0 [].

End Indexer.

(** ** retriever.py: the [Retriever] methods *)
Module Retriever.
Import Py.
Local Open Scope Q_scope.

(** The retrieval default of config.py. *)
Definition TOP_K : nat := 8.

(** Python's two-argument [max] and [min]: the first argument unless the
    second is strictly larger (smaller). *)
Definition max2 (a b : Q) : Q := if Qle_bool b a then a else b.
Definition min2 (a b : Q) : Q := if Qle_bool a b then a else b.

(** [max(scores)] and [min(scores)] on a list with head [x]. *)
Definition max_list (x : Q) (l : list Q) : Q := fold_left max2 l x.
Definition min_list (x : Q) (l : list Q) : Q := fold_left min2 l x.

(** Float division: [ZeroDivisionError] is [None]. *)
Definition div (a b : Q) : option Q :=
  if Qeq_bool b 0 then None else Some (a / b).

(** Equality of dictionary keys. *)
Fixpoint str_eqb (a b : str) : bool :=
  match a, b with
  | [], [] => true
  | c :: a', d :: b' => Ascii.eqb c d && str_eqb a' b'
  | _, _ => false
  end.

(** [s.split()]: the maximal runs of non-space characters.  [cur] holds
    the run being read, last character first. *)
Fixpoint split_from (cur s : str) : list str :=
  match s with
  | [] => if truthy cur then [rev cur] else []
  | c :: s' =>
      if isspace c
      then (if truthy cur then rev cur :: split_from [] s' else split_from [] s')
      else split_from (c :: cur) s'
  end.

Definition split (s : str) : list str := split_from [] s.

(** The metadata of a stored chunk: string keys and values. *)
Definition metadata : Type := list (str * str).

(** The ['type'] of a result. *)
Inductive result_type := vector | bm25.

(** A result dictionary.  The key ['normalized_score'] is absent until
    [hybrid_search] sets it. *)
Record result := mk_result {
  text : str;
  meta : metadata;
  score : Q;
  type : result_type;
  normalized_score : option Q
}.

(** [r.get('normalized_score', 0.0)] *)
Definition get_normalized (r : result) : Q :=
  match normalized_score r with Some x => x | None => 0 end.

(** [r['normalized_score'] = x] *)
Definition set_normalized (r : result) (x : Q) : result :=
  mk_result (text r) (meta r) (score r) (type r) (Some x).

(** An entry of [merged]: [{**result, 'hybrid_score': h}]. *)
Record fused := mk_fused {
  base : result;
  hybrid_score : Q
}.

(** The answer of [collection.query]. *)
Record query_result := mk_query_result {
  ids : list str;
  documents_of : list str;
  metadatas_of : list metadata;
  distances : option (list Q)
}.

(** The amounts added by the keyword boost. *)
Record boosts := mk_boosts {
  locator_boost : Q;
  materials_boost : Q;
  indicator_boost : Q
}.

(** The amounts written in [hybrid_search]. *)
Definition source_boosts : boosts := mk_boosts 0.15 0.20 0.25.

(** Every amount set to zero. *)
Definition no_boosts : boosts := mk_boosts 0 0 0.

(** A dict with keys [0 .. n-1], as built by [_normalize_scores]. *)
Definition index_dict : Type := list (nat * Q).

(** [d.get(i)] *)
Fixpoint lookup (d : index_dict) (i : nat) : option Q :=
  match d with
  | [] => None
  | (j, x) :: d' => if (i =? j)%nat then Some x else lookup d' i
  end.

(** [d.get(i, 0.0)] *)
Definition get (d : index_dict) (i : nat) : Q :=
  match lookup d i with Some x => x | None => 0 end.

(** The loop [for i, score in enumerate(scores): normalized[i] = ...]. *)
Fixpoint normalize_from (min_score max_score : Q) (i : nat) (scores : list Q)
  : option index_dict :=
  match scores with
  | [] => Some []
  | s :: scores' =>
      match div (s - min_score) (max_score - min_score) with
      | None => None
      | Some x =>
          match normalize_from min_score max_score (S i) scores' with
          | None => None
          | Some d => Some ((i, x) :: d)
          end
      end
  end.

Definition _normalize_scores (results : list result) : option index_dict :=
  match map score results with
  | [] => Some []
  | s :: scores' =>
      let max_score := max_list s scores' in
      let min_score := min_list s scores' in
      if Qeq_bool max_score min_score || Qeq_bool max_score 0
      then Some (map (fun i => (i, 0.5)) (seq 0 (List.length results)))
      else normalize_from min_score max_score 0 (s :: scores')
  end.

(** [for i, r in enumerate(results): r['normalized_score'] = d.get(i, 0.0)] *)
Fixpoint assign_normalized (d : index_dict) (i : nat) (results : list result)
  : list result :=
  match results with
  | [] => []
  | r :: results' =>
      set_normalized r (get d i) :: assign_normalized d (S i) results'
  end.

Definition locator_prefixes : list str :=
  [lit "where"; lit "which module"; lit "find"].

Definition materials_keywords : list str :=
  [lit "material"; lit "book"; lit "textbook"; lit "required"; lit "course pack"].

Definition indicator_terms : list str :=
  [lit "table"; lit "material"; lit "book"; lit "fundamentals";
   lit "course pack"; lit "lab access"].

(** [query_lower.startswith(("where", "which module", "find"))] *)
Definition is_locator (query_lower : str) : bool :=
  existsb (startswith query_lower) locator_prefixes.

(** [any(keyword in query_lower for keyword in [...])] *)
Definition is_materials (query_lower : str) : bool :=
  existsb (contains query_lower) materials_keywords.

Section Fusion.
Variable amounts : boosts.

(** The body of the two per-result loops of the materials branch. *)
Definition boost_result (r : result) : result :=
  let result_text := lower (text r) in
  if existsb (contains result_text) indicator_terms
  then set_normalized r (min2 1 (get_normalized r + indicator_boost amounts))
  else r.

Definition keyword_boost (query_lower : str) : Q :=
  if is_locator query_lower then locator_boost amounts
  else if is_materials query_lower then materials_boost amounts
  else 0.

(** The result lists after the [if ... elif ...] on the query. *)
Definition boost_results (query_lower : str) (results : list result)
  : list result :=
  if is_locator query_lower then results
  else if is_materials query_lower then map boost_result results
  else results.

End Fusion.

(** [merged] keeps its keys in the order of their first insertion. *)
Definition merged_dict : Type := list (str * fused).

Fixpoint has_key (merged : merged_dict) (k : str) : bool :=
  match merged with
  | [] => false
  | (k', _) :: merged' => str_eqb k k' || has_key merged' k
  end.

(** [merged[k]['hybrid_score'] += x] *)
Fixpoint add_score (merged : merged_dict) (k : str) (x : Q) : merged_dict :=
  match merged with
  | [] => []
  | (k', e) :: merged' =>
      if str_eqb k k'
      then (k', mk_fused (base e) (hybrid_score e + x)) :: merged'
      else (k', e) :: add_score merged' k x
  end.

(** The body of the two merge loops, [weight] being 0.6 or 0.4. *)
Definition merge_one (weight : Q) (merged : merged_dict) (r : result)
  : merged_dict :=
  if negb (has_key merged (text r))
  then merged ++ [(text r, mk_fused r (get_normalized r * weight))]
  else add_score merged (text r) (get_normalized r * weight).

Definition merge_results (vector_results bm25_results : list result)
  : merged_dict :=
  fold_left (merge_one 0.4) bm25_results
    (fold_left (merge_one 0.6) vector_results []).

(** [max(0.0, min(1.0, x))] *)
Definition clamp (x : Q) : Q := max2 0 (min2 1 x).

Definition apply_boost (keyword_boost : Q) (merged : merged_dict) : merged_dict :=
  map (fun kv =>
         (fst kv, mk_fused (base (snd kv))
                           (clamp (hybrid_score (snd kv) + keyword_boost))))
      merged.

(** [list.sort(key=..., reverse=True)]: stable, largest key first. *)
Fixpoint insert_desc (x : fused) (l : list fused) : list fused :=
  match l with
  | [] => [x]
  | y :: l' =>
      if Qle_bool (hybrid_score y) (hybrid_score x) then x :: l
      else y :: insert_desc x l'
  end.

Definition sort_desc (l : list fused) : list fused :=
  fold_right insert_desc [] l.

(** [np.argsort(scores)]: the indices by ascending score.  NumPy leaves
    the order among equal scores open; here they keep their index order. *)
Fixpoint insert_index (scores : list Q) (i : nat) (l : list nat) : list nat :=
  match l with
  | [] => [i]
  | j :: l' =>
      if Qle_bool (nth i scores 0) (nth j scores 0) then i :: l
      else j :: insert_index scores i l'
  end.

Definition argsort (scores : list Q) : list nat :=
  fold_right (insert_index scores) [] (seq 0 (List.length scores)).

Section Collaborators.
(** The collaborators held by a [Retriever] instance:
    [collection.query] applied to the embedding of the query, the
    stored documents and metadata, and the BM25 score of one stored
    document for a tokenised query. *)
Variable collection_query : str -> nat -> query_result.
Variable documents : list str.
Variable metadatas : list metadata.
Variable bm25_score : list str -> nat -> Q.

(** [self.bm25.get_scores(tokenized_query)]: one score per document. *)
Definition get_scores (tokenized_query : list str) : list Q :=
  map (bm25_score tokenized_query) (seq 0 (List.length documents)).

(** [top_k] counts results; the store takes it as [n_results]. *)
Definition vector_search (query : str) (top_k : option nat) : list result :=
  let top_k := match top_k with Some k => k | None => TOP_K end in
  let results := collection_query query top_k in
  map (fun i =>
         let distance :=
           match distances results with
           | Some ds => nth i ds 0
           | None => 1
           end in
         let similarity := max2 0 (min2 1 (1 - distance / 2)) in
         mk_result (nth i (documents_of results) [])
                   (nth i (metadatas_of results) [])
                   similarity vector None)
      (seq 0 (List.length (ids results))).

Definition bm25_search (query : str) (top_k : option nat) : list result :=
  let top_k := match top_k with Some k => k | None => TOP_K end in
  let tokenized_query := split (lower query) in
  let scores := get_scores tokenized_query in
  let top_indices := firstn top_k (rev (argsort scores)) in
  fold_left
    (fun formatted_results idx =>
       if negb (Qle_bool (nth idx scores 0) 0)
       then formatted_results
              ++ [mk_result (nth idx documents []) (nth idx metadatas [])
                            (nth idx scores 0) bm25 None]
       else formatted_results)
    top_indices [].

(** [hybrid_search] from the normalisation on, for given result lists. *)
Definition fuse (amounts : boosts) (query : str) (top_k : nat)
           (vector_results bm25_results : list result)
  : option (list fused) :=
  match _normalize_scores vector_results, _normalize_scores bm25_results with
  | Some v_normalized, Some b_normalized =>
      let vector_results := assign_normalized v_normalized 0 vector_results in
      let bm25_results := assign_normalized b_normalized 0 bm25_results in
      let query_lower := lower (strip query) in
      let keyword_boost := keyword_boost amounts query_lower in
      let vector_results := boost_results amounts query_lower vector_results in
      let bm25_results := boost_results amounts query_lower bm25_results in
      let merged := merge_results vector_results bm25_results in
      let merged := apply_boost keyword_boost merged in
      let final_results := sort_desc (map snd merged) in
      Some (firstn top_k final_results)
  | _, _ => None
  end.

(** [hybrid_search], the boost amounts left open. *)
Definition hybrid_search_with (amounts : boosts) (query : str)
           (top_k : option nat) : option (list fused) :=
  let top_k := match top_k with Some k => k | None => TOP_K end in
  let vector_results := vector_search query (Some (top_k * 2)%nat) in
  let bm25_results := bm25_search query (Some (top_k * 2)%nat) in
  fuse amounts query top_k vector_results bm25_results.

Definition hybrid_search : str -> option nat -> option (list fused) :=
  hybrid_search_with source_boosts.

(** The confidence computed from the list [hybrid_search] returned. *)
Definition confidence_of (results : list fused) : Q :=
  match results with
  | top :: _ => max2 0 (min2 1 (hybrid_score top))
  | [] => 0
  end.

(** [retrieve], the boost amounts left open. *)
Definition retrieve_with (amounts : boosts) (query : str) (top_k : option nat)
  : option (list fused * Q) :=
  let top_k := match top_k with Some k => k | None => TOP_K end in
  match hybrid_search_with amounts query (Some top_k) with
  | Some results => Some (results, confidence_of results)
  | None => None
  end.

Definition retrieve : str -> option nat -> option (list fused * Q) :=
  retrieve_with source_boosts.

End Collaborators.

End Retriever.

(** ** Vocabulary of the statements about [chunk_text] *)
Module ChunkSpec.
Import Py Indexer.

(** The character at offset [p], when there is one. *)
Definition char_at (text : str) (p : Z) : option ascii :=
  if p <? 0 then None else nth_error text (Z.to_nat p).

Section Loop.
Variable text : str.
Variable chunk_size : Z.

(** The end of the span proposed when the cursor is at [start]. *)
Definition candidate_end (start : Z) : Z :=
  match is_in_protected_region text start with
  | (true, _, region_end) => region_end
  | (false, _, _) => ordinary_end text chunk_size start
  end.

(** A chunk the loop appends at some cursor position. *)
Definition emitted (c : chunk_tuple) : Prop :=
  chunk_start c < len text
  /\ chunk_end c = candidate_end (chunk_start c)
  /\ chunk_str c = slice text (chunk_start c) (chunk_end c)
  /\ truthy (strip (chunk_str c)) = true.

End Loop.

(** Offset [p] lies in the span of one of the chunks. *)
Definition covered (chunks : list chunk_tuple) (p : Z) : Prop :=
  exists c, In c chunks /\ chunk_start c <= p < chunk_end c.

(** The table regions, then the slide regions. *)
Definition protected_ranges (text : str) : list (Z * Z) :=
  table_ranges text ++ slide_ranges text.

(** The region [r] lies wholly inside the span of the chunk [c]. *)
Definition region_within (r : Z * Z) (c : chunk_tuple) : Prop :=
  chunk_start c <= fst r /\ snd r <= chunk_end c.

(** The region [r] and the span of the chunk [c] do not meet. *)
Definition region_apart (r : Z * Z) (c : chunk_tuple) : Prop :=
  chunk_end c <= fst r \/ snd r <= chunk_start c.

(** Atomicity as the specification words it: no chunk holds part of a
    protected region without holding all of it. *)
Definition atomic_regions : Prop :=
  forall text chunk_size overlap out,
    overlap < chunk_size ->
    chunk_text text (Some chunk_size) (Some overlap) = Some out ->
    forall c r, In c out -> In r (protected_ranges text) ->
                region_within r c \/ region_apart r c.


(** A table block that starts five characters into the text. *)
Definition split_table : str := lit "abcde[TABLE 1]x[END TABLE]".

(** A table block of 400 characters that starts 900 characters into the
    text, with 900 characters after it. *)
Definition late_table : str :=
  repeat "x"%char 900 ++ lit "[TABLE 1]" ++ repeat "r"%char 380
  ++ lit "[END TABLE]" ++ repeat "y"%char 900.

(** Two letters with a blank between them. *)
Definition spaced : str := lit "a b".

(** The text of a table opener: ["[TABLE "], digits, ["]"]. *)
Definition table_opener_text (ds : str) : str :=
  lit "[TABLE " ++ ds ++ [closing_bracket].

(** The text of a slide marker: ["[SLIDE "], digits, characters other
    than ["]"], then ["]"]. *)
Definition slide_marker_text (ds body : str) : str :=
  lit "[SLIDE " ++ ds ++ body ++ [closing_bracket].

(** Any character but the opening bracket, with which every marker starts. *)
Definition not_open (c : ascii) : bool := negb (Ascii.eqb c "["%char).

(** A match of [m] holds no position where another match could start. *)
Definition no_inner_match (m : str -> option nat) : Prop :=
  forall s n, m s = Some n ->
              (0 < n)%nat /\ forall k, (0 < k < n)%nat -> m (skipn k s) = None.

(** [piece] occurs in [text] from offset [i] to offset [j]. *)
Definition occurs_at (text piece : str) (i j : Z) : Prop :=
  exists pre post, text = pre ++ piece ++ post /\ i = len pre /\ j = i + len piece.

(** A table opener: ["[TABLE n]"] for a non-empty run of digits [n]. *)
Definition table_opener (text : str) (i j : Z) : Prop :=
  exists ds, ds <> [] /\ forallb is_digit ds = true
             /\ occurs_at text (table_opener_text ds) i j.

(** A table closer: ["[END TABLE]"]. *)
Definition table_closer (text : str) (i j : Z) : Prop :=
  occurs_at text (lit "[END TABLE]") i j.

(** A slide marker: ["[SLIDE n ...]"] up to the first closing bracket. *)
Definition slide_marker (text : str) (i j : Z) : Prop :=
  exists ds body,
    ds <> [] /\ forallb is_digit ds = true
    /\ forallb (fun c => negb (is_closing c)) body = true
    /\ occurs_at text (slide_marker_text ds body) i j.

(** The closer at [[s, e)] is the nearest one that starts after offset
    [pos]: no closer starts between [pos] and [s]. *)
Definition nearest_closer_after (text : str) (pos s e : Z) : Prop :=
  table_closer text s e /\ pos < s
  /\ forall s' e', table_closer text s' e' -> pos < s' -> s <= s'.

(** [b] is the least offset after [a] at which a slide marker is found,
    or the length of the text when none is found after [a]. *)
Definition next_slide_start (text : str) (a b : Z) : Prop :=
  (exists j, In (b, j) (slide_matches text) /\ a < b
             /\ forall i' j', In (i', j') (slide_matches text) -> a < i' -> b <= i')
  \/ (b = len text
      /\ forall i' j', In (i', j') (slide_matches text) -> i' <= a).

(** Slide detection as the claim words it: each slide marker of the text
    starts a slide region. *)
Definition every_slide_marker_starts_region : Prop :=
  forall text i j, slide_marker text i j -> exists e, In (i, e) (slide_ranges text).

(** A slide marker written inside another one, before its closing bracket. *)
Definition nested_slides : str := lit "[SLIDE 1 [SLIDE 2]".

(** The start of each element of [ms] with the start of the element that
    follows it in the list, the last one with [text_len]. *)
Fixpoint pair_with_next (text_len : Z) (ms : list (Z * Z)) : list (Z * Z) :=
  match ms with
  | [] => []
  | m :: rest =>
      (fst m, match rest with m' :: _ => fst m' | [] => text_len end)
        :: pair_with_next text_len rest
  end.

(** Offset [pos] lies in the region [r]. *)
Definition inside (r : Z * Z) (pos : Z) : Prop := fst r <= pos < snd r.

End ChunkSpec.

(** ** Vocabulary of the statements about the retriever *)
Module FusionSpec.
Import Py Retriever.
Local Open Scope Q_scope.

(** [mx] is a greatest element of [l]. *)
Definition greatest (mx : Q) (l : list Q) : Prop :=
  In mx l /\ forall x, In x l -> x <= mx.

(** [mn] is a least element of [l]. *)
Definition least (mn : Q) (l : list Q) : Prop :=
  In mn l /\ forall x, In x l -> mn <= x.

(** The sum of the normalised scores of the results of [l] whose text is [t]. *)
Definition nsum (t : str) (l : list result) : Q :=
  fold_right (fun r acc => if str_eqb (text r) t then get_normalized r + acc else acc) 0 l.

(** The same over results paired with the weight of their list. *)
Definition wsum (t : str) (l : list (Q * result)) : Q :=
  fold_right
    (fun wr acc =>
       if str_eqb (text (snd wr)) t then get_normalized (snd wr) * fst wr + acc else acc)
    0 l.

(** The two merge loops as one pass over the weighted results. *)
Definition merge_all (l : list (Q * result)) (m : merged_dict) : merged_dict :=
  fold_left (fun m wr => merge_one (fst wr) m (snd wr)) l m.

(** The state of [merged] after the weighted results [done] went in: one
    entry per text met, holding the sum of its weighted scores. *)
Definition merged_inv (m : merged_dict) (done : list (Q * result)) : Prop :=
  NoDup (map fst m)
  /\ (forall t, In t (map fst m) <-> In t (map (fun wr => text (snd wr)) done))
  /\ (forall t e, In (t, e) m -> hybrid_score e == wsum t done).

(** Deduplication read with one dense and one lexical result per text:
    the entry of a text found in both lists scores
    [0.6 * dense + 0.4 * lexical]. *)
Definition single_pair_score : Prop :=
  forall vector_results bm25_results d l e,
    In d vector_results -> In l bm25_results -> text d = text l ->
    In (text d, e) (merge_results vector_results bm25_results) ->
    hybrid_score e == 0.6 * get_normalized d + 0.4 * get_normalized l.

(** A result list with its normalised scores assigned. *)
Definition normalized_list (results : list result) : list result :=
  match _normalize_scores results with
  | Some d => assign_normalized d 0 results
  | None => []
  end.

(** A result as a search returns it. *)
Definition raw (ty : result_type) (t : string) (s : Q) : result :=
  mk_result (lit t) [] s ty None.

(** Two stored chunks with the same text, both among the dense results. *)
Definition twin_dense : list result :=
  normalized_list [raw vector "A" 0.9; raw vector "A" 0.5; raw vector "B" 0.1].

(** The lexical results for the same query. *)
Definition twin_lexical : list result :=
  normalized_list [raw bm25 "B" 2; raw bm25 "A" 1].

(** [a] may stand before [b] in a list sorted best first. *)
Definition before (a b : fused) : Prop := hybrid_score b <= hybrid_score a.

(** The list [hybrid_search] sorts and cuts, for given boost amounts. *)
Definition boosted_merge (amounts : boosts) (query : str)
  (vector_results bm25_results : list result) : list fused :=
  let query_lower := lower (strip query) in
  map snd
    (apply_boost (keyword_boost amounts query_lower)
       (merge_results
          (boost_results amounts query_lower (normalized_list vector_results))
          (boost_results amounts query_lower (normalized_list bm25_results)))).

(** The keyword families of the boost. *)
Inductive query_family := locator_query | materials_query | plain_query.

(** The family of a query: locator when its trimmed, lowercased form
    begins with one of the locator words; otherwise materials when it
    contains one of the materials keywords. *)
Definition classify (query : str) : query_family :=
  let q := lower (strip query) in
  if existsb (startswith q) [lit "where"; lit "which module"; lit "find"]
  then locator_query
  else if existsb (contains q)
            [lit "material"; lit "book"; lit "textbook"; lit "required";
             lit "course pack"]
       then materials_query
       else plain_query.

(** The flat amount added to every fused score. *)
Definition flat_boost (f : query_family) : Q :=
  match f with
  | locator_query => 0.15
  | materials_query => 0.20
  | plain_query => 0
  end.

(** The text of the result holds a materials-indicator term. *)
Definition has_indicator (r : result) : bool :=
  existsb (contains (lower (text r))) indicator_terms.

(** The normalised score of a raw-list result as it enters the weighted
    combination: raised by 0.25, and no higher than 1, for a materials
    query and a result with an indicator term. *)
Definition entering_score (f : query_family) (r : result) : Q :=
  match f with
  | materials_query =>
      if has_indicator r then min2 1 (get_normalized r + 0.25) else get_normalized r
  | _ => get_normalized r
  end.

(** The same without the cap: raised by 0.25. *)
Definition entering_score_uncapped (f : query_family) (r : result) : Q :=
  match f with
  | materials_query =>
      if has_indicator r then get_normalized r + 0.25 else get_normalized r
  | _ => get_normalized r
  end.

(** The raw-list results as they enter the weighted combination. *)
Definition entering (query : str) (results : list result) : list result :=
  boost_results source_boosts (lower (strip query)) (normalized_list results).

(** The indicator boost read as a plain [+0.25] on the normalised score. *)
Definition uncapped_indicator_boost : Prop :=
  forall query results i r r',
    nth_error (normalized_list results) i = Some r ->
    nth_error (entering query results) i = Some r' ->
    get_normalized r' == entering_score_uncapped (classify query) r.

(** A materials query and two dense results for it. *)
Definition materials_query_text : str := lit "Required textbook?".

Definition materials_hits : list result :=
  [raw vector "Table of course materials" 0.9; raw vector "Office hours" 0.1].

(** The same results, the normalised scores of the second list no lower. *)
Definition le_results (l0 l1 : list result) : Prop :=
  Forall2 (fun r0 r1 => text r0 = text r1 /\ get_normalized r0 <= get_normalized r1)
          l0 l1.

(** The same keys in the same order, the scores of the second no lower. *)
Definition le_merged (m0 m1 : merged_dict) : Prop :=
  Forall2 (fun kv0 kv1 => fst kv0 = fst kv1
                          /\ hybrid_score (snd kv0) <= hybrid_score (snd kv1))
          m0 m1.

(** Entry by entry, the scores of the second list are no lower. *)
Definition le_fused (l0 l1 : list fused) : Prop :=
  Forall2 (fun f0 f1 => hybrid_score f0 <= hybrid_score f1) l0 l1.

(** Each amount of [a0] is at most that of [a1]. *)
Definition le_boosts (a0 a1 : boosts) : Prop :=
  locator_boost a0 <= locator_boost a1
  /\ materials_boost a0 <= materials_boost a1
  /\ indicator_boost a0 <= indicator_boost a1.

(** A corpus of three chunks. *)
Definition three_documents : list str := [lit "alpha"; lit "beta"; lit "gamma"].

(** A score table in which only the first document matches. *)
Definition first_only (tokens : list str) (idx : nat) : Q :=
  if (idx =? 0)%nat then 1.5 else 0.

End FusionSpec.

From Stdlib Require DecimalString DecimalNat DecimalZ DecimalFacts.

(** ** More Python built-ins, for the code around the chunker and the
    retriever *)
Module PyMore.
Import Py.

(** [str(n)] for a non-negative [int]: its decimal digits. *)
Definition str_of_nat (n : nat) : str :=
  list_ascii_of_string (DecimalString.NilEmpty.string_of_uint (Nat.to_uint n)).

(** [str(z)] for an [int]. *)
Definition str_of_int (z : Z) : str :=
  list_ascii_of_string (DecimalString.NilZero.string_of_int (Z.to_int z)).

(** [sep.join(parts)] *)
Fixpoint join (sep : str) (parts : list str) : str :=
  match parts with
  | [] => []
  | [p] => p
  | p :: rest => p ++ sep ++ join sep rest
  end.

(** A dict with string keys and string values, in insertion order. *)
Definition dict : Type := list (str * str).

(** [d.get(k)] *)
Fixpoint dict_get (d : dict) (k : str) : option str :=
  match d with
  | [] => None
  | (k', v) :: d' => if Retriever.str_eqb k k' then Some v else dict_get d' k
  end.

(** [d.get(k, default)] *)
Definition dict_get_or (d : dict) (k default : str) : str :=
  match dict_get d k with Some v => v | None => default end.

(** [l[:n]] on a list. *)
Definition take {A : Type} (n : Z) (l : list A) : list A :=
  firstn (Z.to_nat (clip (Z.of_nat (List.length l)) n)) l.

End PyMore.

(** ** models.py *)
Module Document.
Import Py PyMore.

Record t := mk {
  text : str;
  breadcrumb : str;
  source_file : str;
  file_type : str;
  metadata : option dict
}.

End Document.

Module Chunk.
Import Py.

Record t := mk {
  text : str;
  breadcrumb : str;
  source_file : str;
  chunk_id : nat;
  start_char : Z;
  end_char : Z
}.

End Chunk.

Module Source.
Import Py.

Record t := mk {
  breadcrumb : str;
  url : option str;
  snippet : str
}.

End Source.

(** ** indexer.py: [create_chunks] and the data [store_in_chroma] hands to
    the collection *)
Module IndexerBuild.
Import Py PyMore Indexer.

(** The inner loop of [create_chunks] over [enumerate(text_chunks)]. *)
Fixpoint enumerate_chunks (doc : Document.t) (chunk_idx : nat)
  (text_chunks : list chunk_tuple) (all_chunks : list Chunk.t) : list Chunk.t :=
  match text_chunks with
  | [] => all_chunks
  | (chunk_text_content, start_char, end_char) :: rest =>
      enumerate_chunks doc (S chunk_idx) rest
        (all_chunks
           ++ [Chunk.mk chunk_text_content (Document.breadcrumb doc)
                        (Document.source_file doc) chunk_idx start_char end_char])
  end.

(** The outer loop; [None] when [chunk_text] does not return. *)
Fixpoint create_chunks_from (documents : list Document.t) (all_chunks : list Chunk.t)
  : option (list Chunk.t) :=
  match documents with
  | [] => Some all_chunks
  | doc :: rest =>
      match chunk_text (Document.text doc) (Some CHUNK_SIZE) (Some CHUNK_OVERLAP) with
      | None => None
      | Some text_chunks =>
          create_chunks_from rest (enumerate_chunks doc 0 text_chunks all_chunks)
      end
  end.

Definition create_chunks (documents : list Document.t) : option (list Chunk.t) :=
  create_chunks_from documents [].

(** The metadata dict [store_in_chroma] builds for one chunk. *)
Definition chunk_metadata (chunk : Chunk.t) : dict :=
  [(lit "breadcrumb", Chunk.breadcrumb chunk);
   (lit "source_file", Chunk.source_file chunk);
   (lit "chunk_id", str_of_nat (Chunk.chunk_id chunk));
   (lit "start_char", str_of_int (Chunk.start_char chunk));
   (lit "end_char", str_of_int (Chunk.end_char chunk))].

(** The [ids], [documents] and [metadatas] that [store_in_chroma] passes
    to [collection.add]. *)
Definition chroma_ids (chunks : list Chunk.t) : list str :=
  map str_of_nat (seq 0 (List.length chunks)).

Definition chroma_texts (chunks : list Chunk.t) : list str :=
  map Chunk.text chunks.

Definition chroma_metadatas (chunks : list Chunk.t) : list dict :=
  map chunk_metadata chunks.

End IndexerBuild.

(** ** retriever.py: [top_k] as Python passes it

    The methods of [Retriever] above take [top_k] as a count.  Python
    hands them an [int], which [retrieve] and [hybrid_search] pass on
    unchecked: the store is asked for [n_results = top_k * 2], whatever
    its sign, and the slices [[:top_k]] follow Python's rule for a
    negative bound.  The same methods follow for any [int]; on a count
    they are the ones above ([retrieve_on_count]). *)
Module RetrieverInt.
Import Py PyMore Retriever.
Local Open Scope Q_scope.

Section Collaborators.
(** [collection.query] with the [n_results] it is given, the stored
    documents and metadata, and the BM25 score of one stored document. *)
Variable collection_query : str -> Z -> query_result.
Variable documents : list str.
Variable metadatas : list metadata.
Variable bm25_score : list str -> nat -> Q.

Definition vector_search (query : str) (top_k : option Z) : list result :=
  let top_k := match top_k with Some k => k | None => Z.of_nat TOP_K end in
  let results := collection_query query top_k in
  map (fun i =>
         let distance :=
           match distances results with
           | Some ds => nth i ds 0
           | None => 1
           end in
         let similarity := max2 0 (min2 1 (1 - distance / 2)) in
         mk_result (nth i (documents_of results) [])
                   (nth i (metadatas_of results) [])
                   similarity vector None)
      (seq 0 (List.length (ids results))).

Definition bm25_search (query : str) (top_k : option Z) : list result :=
  let top_k := match top_k with Some k => k | None => Z.of_nat TOP_K end in
  let tokenized_query := split (lower query) in
  let scores := get_scores documents bm25_score tokenized_query in
  let top_indices := take top_k (rev (argsort scores)) in
  fold_left
    (fun formatted_results idx =>
       if negb (Qle_bool (nth idx scores 0) 0)
       then formatted_results
              ++ [mk_result (nth idx documents []) (nth idx metadatas [])
                            (nth idx scores 0) bm25 None]
       else formatted_results)
    top_indices [].

(** [hybrid_search] from the normalisation on, for given result lists. *)
Definition fuse (amounts : boosts) (query : str) (top_k : Z)
           (vector_results bm25_results : list result)
  : option (list fused) :=
  match _normalize_scores vector_results, _normalize_scores bm25_results with
  | Some v_normalized, Some b_normalized =>
      let vector_results := assign_normalized v_normalized 0 vector_results in
      let bm25_results := assign_normalized b_normalized 0 bm25_results in
      let query_lower := lower (strip query) in
      let keyword_boost := keyword_boost amounts query_lower in
      let vector_results := boost_results amounts query_lower vector_results in
      let bm25_results := boost_results amounts query_lower bm25_results in
      let merged := merge_results vector_results bm25_results in
      let merged := apply_boost keyword_boost merged in
      let final_results := sort_desc (map snd merged) in
      Some (take top_k final_results)
  | _, _ => None
  end.

Definition hybrid_search_with (amounts : boosts) (query : str)
           (top_k : option Z) : option (list fused) :=
  let top_k := match top_k with Some k => k | None => Z.of_nat TOP_K end in
  let vector_results := vector_search query (Some (top_k * 2)%Z) in
  let bm25_results := bm25_search query (Some (top_k * 2)%Z) in
  fuse amounts query top_k vector_results bm25_results.

Definition hybrid_search : str -> option Z -> option (list fused) :=
  hybrid_search_with source_boosts.

Definition retrieve_with (amounts : boosts) (query : str) (top_k : option Z)
  : option (list fused * Q) :=
  let top_k := match top_k with Some k => k | None => Z.of_nat TOP_K end in
  match hybrid_search_with amounts query (Some top_k) with
  | Some results => Some (results, confidence_of results)
  | None => None
  end.

Definition retrieve : str -> option Z -> option (list fused * Q) :=
  retrieve_with source_boosts.

End Collaborators.

(** The contract as the claim words it, for every [k]: [retrieve]
    returns at most [k] results. *)
Definition at_most_k_results : Prop :=
  forall collection_query documents metadatas bm25_score query k results confidence,
    retrieve collection_query documents metadatas bm25_score query (Some k)
    = Some (results, confidence) ->
    (Z.of_nat (List.length results) <= k)%Z.

(** A store that answers every request with the same three chunks. *)
Definition three_hits : str -> Z -> query_result :=
  fun _ _ =>
    mk_query_result [lit "1"; lit "2"; lit "3"] [lit "A"; lit "B"; lit "C"]
                    [[]; []; []] (Some [0.2; 0.4; 0.6]).

End RetrieverInt.

(** ** Vocabulary of the further statements about [chunk_text] *)
Module ChunkMore.
Import Py Indexer ChunkSpec.

Section Cursor.
Variable text : str.
Variables chunk_size overlap : Z.

(** The cursor after the pass that starts at [start]. *)
Definition next_cursor (start : Z) : Z :=
  match is_in_protected_region text start with
  | (true, _, region_end) => region_end
  | (false, _, _) => start + (chunk_size - overlap)
  end.

(** [visits a s]: the run of the loop that starts at cursor [a] makes a
    pass at cursor [s]. *)
Inductive visits : Z -> Z -> Prop :=
| visits_here (a : Z) : a < len text -> visits a a
| visits_next (a s : Z) : a < len text -> visits (next_cursor a) s -> visits a s.

End Cursor.

(** The first chunk starts before the second. *)
Definition starts_before (a b : chunk_tuple) : Prop := chunk_start a < chunk_start b.

(** The window of [chunk_size] characters at offset [s]. *)
Definition window (text : str) (chunk_size s : Z) : chunk_tuple :=
  (slice text s (s + chunk_size), s, s + chunk_size).

End ChunkMore.

(** ** app.py: the context handed to the model and the source citations *)
Module App.
Import Py PyMore Retriever.
Local Open Scope Z_scope.

(** The limits of config.py. *)
Definition MAX_SOURCES : Z := 3.
Definition MAX_CONTEXT_CHARS : Z := 12000.

(** The line feed. *)
Definition nl : str := ["010"%char].

(** [chunk.get('metadata', {}).get('breadcrumb', 'Unknown')] for a chunk
    of the retriever. *)
Definition breadcrumb_of (chunk : fused) : str :=
  dict_get_or (meta (base chunk)) (lit "breadcrumb") (lit "Unknown").

(** The first line of a block: [f"[Source {i} - {bc}]\n"]. *)
Definition source_header (i : nat) (bc : str) : str :=
  lit "[Source " ++ str_of_nat i ++ lit " - " ++ bc ++ lit "]" ++ nl.

(** [f"[Source {i} - {bc}]\n{chunk['text']}\n"] *)
Definition block_of (i : nat) (chunk : fused) : str :=
  source_header i (breadcrumb_of chunk) ++ text (base chunk) ++ nl.

(** [f"[Source {i} - {bc}]\n{chunk['text'][:remaining-50]}...\n"] *)
Definition cut_block (i : nat) (chunk : fused) (remaining : Z) : str :=
  source_header i (breadcrumb_of chunk)
  ++ slice (text (base chunk)) 0 (remaining - 50) ++ lit "..." ++ nl.

(** The loop of [chat] and of [debug_context] over
    [enumerate(top_chunks, 1)], from the chunk numbered [i] on. *)
Fixpoint context_blocks (cap : Z) (i : nat) (top_chunks : list fused)
  (blocks : list str) (total : Z) : list str :=
  match top_chunks with
  | [] => blocks
  | chunk :: rest =>
      let block := block_of i chunk in
      if total + len block >? cap
      then
        let remaining := cap - total in
        if remaining >? 200
        then blocks ++ [cut_block i chunk remaining]
        else blocks
      else context_blocks cap (S i) rest (blocks ++ [block]) (total + len block)
  end.

(** The bounded context: ["".join(blocks)]. *)
Definition build_context (cap : Z) (top_chunks : list fused) : str :=
  List.concat (context_blocks cap 1 top_chunks [] 0).

(** [x in seen] *)
Definition mem (x : str) (seen : list str) : bool := existsb (str_eqb x) seen.

(** [text[:200] + "..." if len(text) > 200 else text] *)
Definition snippet_of (text : str) : str :=
  if len text >? 200 then slice text 0 200 ++ lit "..." else text.

(** The [Source] built for a chunk. *)
Definition source_of (chunk : fused) : Source.t :=
  Source.mk (breadcrumb_of chunk)
            (dict_get (meta (base chunk)) (lit "url"))
            (snippet_of (text (base chunk))).

(** The loop of [create_sources]; the [break] ends it. *)
Fixpoint create_sources_loop (max_sources : Z) (chunks : list fused)
  (sources : list Source.t) (seen_breadcrumbs : list str) : list Source.t :=
  match chunks with
  | [] => sources
  | chunk :: rest =>
      let breadcrumb := breadcrumb_of chunk in
      if mem breadcrumb seen_breadcrumbs
      then create_sources_loop max_sources rest sources seen_breadcrumbs
      else
        let seen_breadcrumbs := breadcrumb :: seen_breadcrumbs in
        let sources := sources ++ [source_of chunk] in
        if Z.of_nat (List.length sources) >=? max_sources
        then sources
        else create_sources_loop max_sources rest sources seen_breadcrumbs
  end.

Definition create_sources (retrieved_chunks : list fused) (max_sources : option Z)
  : list Source.t :=
  let max_sources := match max_sources with Some m => m | None => MAX_SOURCES end in
  create_sources_loop max_sources (take max_sources retrieved_chunks) [] [].

(** Step 6 of [chat]: the same loop written in place, without the [break]. *)
Fixpoint chat_sources_loop (chunks : list fused)
  (sources : list Source.t) (seen : list str) : list Source.t :=
  match chunks with
  | [] => sources
  | chunk :: rest =>
      let bc := breadcrumb_of chunk in
      if mem bc seen
      then chat_sources_loop rest sources seen
      else chat_sources_loop rest (sources ++ [source_of chunk]) (bc :: seen)
  end.

Definition chat_sources (top_chunks : list fused) : list Source.t :=
  chat_sources_loop (take MAX_SOURCES top_chunks) [] [].











End App.

(** ** Vocabulary of the statements about the context *)
Module ContextSpec.
Import Py PyMore Retriever App.
Local Open Scope Z_scope.

(** The blocks of all the chunks, numbered from [i]. *)
Fixpoint all_blocks (i : nat) (top_chunks : list fused) : list str :=
  match top_chunks with
  | [] => []
  | chunk :: rest => block_of i chunk :: all_blocks (S i) rest
  end.

(** A retrieved chunk with the given breadcrumb and text. *)
Definition cited (bc : string) (t : str) : fused :=
  mk_fused (mk_result t [(lit "breadcrumb", lit bc)] 1%Q vector None) 1%Q.

(** Two short chunks. *)
Definition two_chunks : list fused :=
  [cited "A" (lit "hello"); cited "B" (lit "world, this is long text")].

(** A chunk of 300 characters. *)
Definition long_chunk : fused := cited "B" (repeat "x"%char 300).

(** A chunk as [create_chunks] builds it, and a retrieved chunk carrying
    the metadata stored for it. *)
Definition indexed_chunk : Chunk.t :=
  Chunk.mk (lit "Office hours: Monday") (lit "Modules > Syllabus")
           (lit "syllabus.md") 0 0 1200.

Definition retrieved_indexed : list fused :=
  [mk_fused (mk_result (Chunk.text indexed_chunk)
                       (IndexerBuild.chunk_metadata indexed_chunk)
                       1%Q vector None) 1%Q].

End ContextSpec.

(** ** ingest.py: from the files found to the documents *)
Module Ingest.
Import Py PyMore.

(** [s.replace(old, new)] for a non-empty [old], read left to right;
    [skip] counts the characters of a replaced occurrence still to pass. *)
Fixpoint replace_from (old new : str) (skip : nat) (s : str) : str :=
  match s with
  | [] => []
  | c :: s' =>
      match skip with
      | S k => replace_from old new k s'
      | O =>
          if startswith s old
          then new ++ replace_from old new (List.length old - 1) s'
          else c :: replace_from old new 0 s'
      end
  end.

(** [s.replace(old, new)]; an empty [old] matches before every character
    and at the end. *)
Definition replace (s old new : str) : str :=
  match old with
  | [] => new ++ flat_map (fun c => c :: new) s
  | _ :: _ => replace_from old new 0 s
  end.

(** What the file system and the extractors give for one regular file
    under [base_path]: the parts of its relative path, its stem and
    suffix, the relative and the full path as strings, the text of the
    extractor of its type, and the rows of [extract_text_from_csv]. *)
Record found_file := mk_file {
  parts : list str;
  stem : str;
  suffix : str;
  relative : str;
  path : str;
  extracted : str;
  csv_rows : list str
}.

Definition supported_extensions : list str :=
  [lit ".md"; lit ".txt"; lit ".pdf"; lit ".docx"; lit ".csv"].

(** [[text] if text else []] *)
Definition one_text (text : str) : list str :=
  if truthy text then [text] else [].

Definition extract_text_from_file (f : found_file) : list str :=
  let suffix := lower (suffix f) in
  if Retriever.str_eqb suffix (lit ".md") then one_text (extracted f)
  else if Retriever.str_eqb suffix (lit ".txt") then one_text (extracted f)
  else if Retriever.str_eqb suffix (lit ".pdf") then one_text (extracted f)
  else if Retriever.str_eqb suffix (lit ".docx") then one_text (extracted f)
  else if Retriever.str_eqb suffix (lit ".csv") then csv_rows f
  else [].

Definition build_breadcrumb (f : found_file) : str :=
  let filename := stem f in
  if (1 <? List.length (parts f))%nat
  then
    let dir_parts := removelast (parts f) in
    let breadcrumb := join (lit " > ") dir_parts in
    breadcrumb ++ lit " > " ++ filename
  else lit "Modules > " ++ filename.

Definition build_canvas_url (breadcrumb : str) : str :=
  lit "https://canvas.example.com/modules/"
  ++ replace (lower breadcrumb) (lit " > ") (lit "/").

(** [breadcrumb if idx == 0 else f"{breadcrumb} (Row {idx+1})"] *)
Definition row_breadcrumb (breadcrumb : str) (idx : nat) : str :=
  if (idx =? 0)%nat then breadcrumb
  else breadcrumb ++ lit " (Row " ++ str_of_nat (idx + 1) ++ lit ")".

(** The loop of [process_directory] over [enumerate(texts)]. *)
Fixpoint file_documents (f : found_file) (breadcrumb : str) (idx : nat)
  (texts : list str) (documents : list Document.t) : list Document.t :=
  match texts with
  | [] => documents
  | text :: rest =>
      if truthy (strip text)
      then
        file_documents f breadcrumb (S idx) rest
          (documents
             ++ [Document.mk text (row_breadcrumb breadcrumb idx) (relative f)
                             (lower (suffix f))
                             (Some [(lit "url", build_canvas_url breadcrumb);
                                    (lit "file_path", path f)])])
      else file_documents f breadcrumb (S idx) rest documents
  end.

(** The loop over the files kept. *)
Fixpoint process_files (file_paths : list found_file) (documents : list Document.t)
  : list Document.t :=
  match file_paths with
  | [] => documents
  | f :: rest =>
      match extract_text_from_file f with
      | [] => process_files rest documents
      | texts =>
          process_files rest (file_documents f (build_breadcrumb f) 0 texts documents)
      end
  end.

(** [process_directory], for the regular files found under [base_path]. *)
Definition process_directory (found : list found_file) : list Document.t :=
  let file_paths :=
    filter (fun f => existsb (Retriever.str_eqb (lower (suffix f))) supported_extensions)
           found in
  process_files file_paths [].

End Ingest.

Import Py Indexer ChunkSpec.

(* ================================================================== *)
(** * Part II: properties *)
(* ================================================================== *)

(** ** Strings and slices *)

Lemma lstrip_keeps (c : ascii) (s : str) :
  In c s -> isspace c = false -> In c (lstrip s).
Proof.
  induction s as [| d s IH]; simpl; intros Hin Hc; [assumption |].
  destruct (isspace d) eqn:Hd.
  - destruct Hin as [-> | Hin]; [congruence | auto].
  - exact Hin.
Qed.

Lemma strip_keeps (c : ascii) (s : str) :
  In c s -> isspace c = false -> In c (strip s).
Proof.
  intros Hin Hc. unfold strip, rstrip.
  rewrite <- in_rev. apply lstrip_keeps; [| assumption].
  rewrite <- in_rev. apply lstrip_keeps; assumption.
Qed.

Lemma strip_truthy (c : ascii) (s : str) :
  In c s -> isspace c = false -> truthy (strip s) = true.
Proof.
  intros Hin Hc. pose proof (strip_keeps c s Hin Hc) as H.
  destruct (strip s); [contradiction | reflexivity].
Qed.

Lemma slice_char_at (text : str) (a b p : Z) (c : ascii) :
  0 <= a <= p -> p < b -> char_at text p = Some c -> In c (slice text a b).
Proof.
  intros Ha Hb Hc. unfold char_at in Hc.
  destruct (p <? 0) eqn:Hp; [discriminate |].
  assert (Hlen : p < len text).
  { unfold len. assert (nth_error text (Z.to_nat p) <> None) as Hn by congruence.
    apply nth_error_Some in Hn. lia. }
  unfold slice, clip.
  destruct (a <? 0) eqn:Ha0; [lia |].
  destruct (b <? 0) eqn:Hb0; [lia |].
  apply nth_error_In with (n := Z.to_nat (p - a)).
  rewrite nth_error_firstn.
  replace (Z.to_nat (p - a) <? Z.to_nat (Z.min b (len text) - Z.min a (len text)))%nat
    with true by (symmetry; apply Nat.ltb_lt; lia).
  rewrite nth_error_skipn.
  replace (Z.to_nat (Z.min a (len text)) + Z.to_nat (p - a))%nat
    with (Z.to_nat p) by lia.
  exact Hc.
Qed.

(** ** The point query *)

Section PointQuery.
Variable text : str.

Lemma find_range_Some (pos : Z) (ranges : list (Z * Z)) (s e : Z) :
  find_range pos ranges = Some (s, e) -> In (s, e) ranges /\ s <= pos < e.
Proof.
  induction ranges as [| [s' e'] ranges IH]; simpl; [discriminate |].
  destruct ((s' <=? pos) && (pos <? e')) eqn:Hin.
  - intros [= <- <-]. apply andb_true_iff in Hin. split; [left; reflexivity | lia].
  - intros H. destruct (IH H) as [H1 H2]. split; [right; exact H1 | exact H2].
Qed.

Lemma find_range_None (pos : Z) (ranges : list (Z * Z)) :
  find_range pos ranges = None ->
  forall s e, In (s, e) ranges -> ~ (s <= pos < e).
Proof.
  induction ranges as [| [s' e'] ranges IH]; simpl; [tauto |].
  destruct ((s' <=? pos) && (pos <? e')) eqn:Hin; [discriminate |].
  intros H s e [[= <- <-] | Hr].
  - apply andb_false_iff in Hin. lia.
  - exact (IH H s e Hr).
Qed.

Lemma protected_region_at_bounds (pos : Z) (ty : region_type) (s e : Z) :
  protected_region_at text pos = Some (ty, (s, e)) -> s <= pos < e.
Proof.
  unfold protected_region_at.
  destruct (find_range pos (table_ranges text)) as [[s1 e1] |] eqn:Ht.
  - intros [= _ <- <-]. exact (proj2 (find_range_Some _ _ _ _ Ht)).
  - destruct (find_range pos (slide_ranges text)) as [[s1 e1] |] eqn:Hs;
      [| discriminate].
    intros [= _ <- <-]. exact (proj2 (find_range_Some _ _ _ _ Hs)).
Qed.

(** The two answers of [is_in_protected_region]. *)
Lemma is_in_protected_region_cases (pos : Z) :
  (exists ty s e,
      protected_region_at text pos = Some (ty, (s, e))
      /\ is_in_protected_region text pos = (true, Some ty, e)
      /\ s <= pos < e)
  \/ (protected_region_at text pos = None
      /\ is_in_protected_region text pos = (false, None, pos)).
Proof.
  unfold is_in_protected_region.
  destruct (protected_region_at text pos) as [[ty [s e]] |] eqn:H.
  - left. exists ty, s, e. repeat split; try reflexivity;
      apply (protected_region_at_bounds _ _ _ _ H).
  - right. split; reflexivity.
Qed.

End PointQuery.

(** ** The chunking loop *)

Section ChunkLoop.
Variable text : str.
Variables chunk_size overlap : Z.

Lemma append_nonblank_In (chunks : list chunk_tuple) (s e : Z) (c : chunk_tuple) :
  In c (append_nonblank text chunks s e) ->
  In c chunks
  \/ (c = (slice text s e, s, e) /\ truthy (strip (slice text s e)) = true).
Proof.
  unfold append_nonblank.
  destruct (truthy (strip (slice text s e))) eqn:Ht; [| tauto].
  intros H. apply in_app_or in H. destruct H as [H | [<- | []]]; [tauto |].
  right. split; reflexivity.
Qed.

Lemma append_nonblank_incl (chunks : list chunk_tuple) (s e : Z) (c : chunk_tuple) :
  In c chunks -> In c (append_nonblank text chunks s e).
Proof.
  unfold append_nonblank. intros H.
  destruct (truthy (strip (slice text s e))); [apply in_or_app; tauto | exact H].
Qed.

Lemma append_nonblank_covers (chunks : list chunk_tuple) (s e p : Z) (c : ascii) :
  0 <= s <= p -> p < e -> char_at text p = Some c -> isspace c = false ->
  covered (append_nonblank text chunks s e) p.
Proof.
  intros Hs He Hc Hsp. unfold append_nonblank.
  rewrite (strip_truthy c); [| eapply slice_char_at; eassumption | exact Hsp].
  exists (slice text s e, s, e). split; [apply in_or_app; simpl; tauto |].
  unfold chunk_start, chunk_end; simpl. lia.
Qed.

Lemma ordinary_end_lower (start : Z) :
  0 <= chunk_size -> start + chunk_size <= ordinary_end text chunk_size start.
Proof.
  intros Hc. unfold ordinary_end.
  destruct (start + chunk_size <? len text); [| lia].
  destruct (is_in_protected_region_cases text (start + chunk_size))
    as [(ty & s & e & _ & -> & Hb) | [_ ->]]; lia.
Qed.

(** Every chunk of the result was appended by some pass of the loop. *)
Lemma chunk_loop_In (fuel : nat) :
  forall start chunks out,
    chunk_loop text chunk_size overlap fuel start chunks = Some out ->
    forall c, In c out -> In c chunks \/ emitted text chunk_size c.
Proof.
  induction fuel as [| fuel IH]; simpl; intros start chunks out; [discriminate |].
  destruct (start <? len text) eqn:Hlt; [| intros [= <-]; tauto].
  apply Z.ltb_lt in Hlt.
  assert (Hstep : forall e c,
             e = candidate_end text chunk_size start ->
             In c (append_nonblank text chunks start e) ->
             In c chunks \/ emitted text chunk_size c).
  { intros e c He Hc. apply append_nonblank_In in Hc.
    destruct Hc as [Hc | [-> Ht]]; [tauto |]. right.
    unfold emitted, chunk_start, chunk_end, chunk_str; simpl.
    repeat split; assumption. }
  unfold candidate_end in Hstep.
  destruct (is_in_protected_region text start) as [[[|] oty] region_end] eqn:Hp.
  - intros H c Hc. destruct (IH _ _ _ H c Hc) as [Hc' | Hc']; [| tauto].
    exact (Hstep _ _ eq_refl Hc').
  - destruct (start + (chunk_size - overlap) >=? len text).
    + intros [= <-] c Hc. exact (Hstep _ _ eq_refl Hc).
    + intros H c Hc. destruct (IH _ _ _ H c Hc) as [Hc' | Hc']; [| tauto].
      exact (Hstep _ _ eq_refl Hc').
Qed.

(** With [overlap < chunk_size] every pass moves the cursor forward, so
    the loop ends. *)
Lemma chunk_loop_total (fuel : nat) :
  overlap < chunk_size ->
  forall start chunks,
    Z.max 0 (len text - start) < Z.of_nat fuel ->
    exists out, chunk_loop text chunk_size overlap fuel start chunks = Some out.
Proof.
  intros Hov. induction fuel as [| fuel IH]; intros start chunks Hfuel; [lia |].
  simpl. destruct (start <? len text) eqn:Hlt; [| eexists; reflexivity].
  apply Z.ltb_lt in Hlt.
  destruct (is_in_protected_region_cases text start)
    as [(ty & s & e & _ & -> & Hb) | [_ ->]].
  - apply IH. lia.
  - destruct (start + (chunk_size - overlap) >=? len text) eqn:Hge;
      [eexists; reflexivity |].
    apply IH. lia.
Qed.

(** Once an ordinary pass fails to move the cursor forward, the cursor
    never gets past the place of that pass, and the loop runs for ever. *)
Lemma chunk_loop_stuck (s0 : Z) :
  chunk_size - overlap <= 0 ->
  s0 < len text ->
  protected_region_at text s0 = None ->
  forall fuel start chunks,
    start <= s0 -> chunk_loop text chunk_size overlap fuel start chunks = None.
Proof.
  intros Hstep Hs0 Hfree. induction fuel as [| fuel IH]; intros start chunks Hle; simpl;
    [reflexivity |].
  replace (start <? len text) with true by (symmetry; apply Z.ltb_lt; lia).
  destruct (is_in_protected_region_cases text start)
    as [(ty & s & e & Hr & -> & Hb) | [_ ->]].
  - apply IH.
    destruct (Z_lt_ge_dec s0 e) as [Hlt | Hge]; [| lia]. exfalso.
    unfold protected_region_at in Hfree, Hr.
    destruct (find_range s0 (table_ranges text)) eqn:Ht0; [discriminate |].
    destruct (find_range s0 (slide_ranges text)) eqn:Hs0'; [discriminate |].
    destruct (find_range start (table_ranges text)) as [r |] eqn:Ht.
    + injection Hr as _ ->.
      apply (find_range_None _ _ Ht0 s e (proj1 (find_range_Some _ _ _ _ Ht))). lia.
    + destruct (find_range start (slide_ranges text)) as [r |] eqn:Hsl; [| discriminate].
      injection Hr as _ ->.
      apply (find_range_None _ _ Hs0' s e (proj1 (find_range_Some _ _ _ _ Hsl))). lia.
  - replace (start + (chunk_size - overlap) >=? len text) with false
      by (symmetry; rewrite Z.geb_leb; apply Z.leb_gt; lia).
    apply IH. lia.
Qed.

(** The fuel [chunk_text] gives the loop is enough whenever any fuel is:
    a run that ends moves the cursor forward in every pass. *)
Lemma chunk_loop_fuel_enough (fuel : nat) :
  forall start chunks out,
    chunk_loop text chunk_size overlap fuel start chunks = Some out ->
    forall fuel',
      Z.max 0 (len text - start) < Z.of_nat fuel' ->
      chunk_loop text chunk_size overlap fuel' start chunks = Some out.
Proof.
  induction fuel as [| fuel IH]; simpl; intros start chunks out; [discriminate |].
  intros H [| fuel'] Hfuel; [lia |]. simpl.
  destruct (start <? len text) eqn:Hlt; [| exact H].
  apply Z.ltb_lt in Hlt.
  destruct (is_in_protected_region_cases text start)
    as [(ty & s & e & _ & Hp & Hb) | [Hfree Hp]]; rewrite Hp in H |- *.
  - apply (IH _ _ _ H). lia.
  - destruct (start + (chunk_size - overlap) >=? len text) eqn:Hge; [exact H |].
    destruct (Z_le_gt_dec (chunk_size - overlap) 0) as [Hstep | Hstep].
    + rewrite (chunk_loop_stuck start Hstep Hlt Hfree) in H by lia. discriminate.
    + apply (IH _ _ _ H). lia.
Qed.

(** Positions holding a non-space character are covered once the cursor
    has passed them. *)
Lemma chunk_loop_covers (fuel : nat) :
  0 <= overlap < chunk_size ->
  forall start chunks out,
    0 <= start ->
    chunk_loop text chunk_size overlap fuel start chunks = Some out ->
    (forall p c, 0 <= p < start -> char_at text p = Some c ->
                 isspace c = false -> covered chunks p) ->
    forall p c, 0 <= p -> char_at text p = Some c ->
                isspace c = false -> covered out p.
Proof.
  intros Hov. induction fuel as [| fuel IH]; simpl; intros start chunks out Hs;
    [discriminate |].
  assert (Hlen : forall p c, char_at text p = Some c -> p < len text).
  { intros p c. unfold char_at. destruct (p <? 0); [discriminate |].
    intros H. assert (nth_error text (Z.to_nat p) <> None) as Hn by congruence.
    apply nth_error_Some in Hn. unfold len. lia. }
  destruct (start <? len text) eqn:Hlt.
  2:{ apply Z.ltb_ge in Hlt. intros [= <-] Hinv p c Hp Hc Hsp.
      apply (Hinv p c); [specialize (Hlen p c Hc); lia | assumption ..]. }
  apply Z.ltb_lt in Hlt.
  assert (Hstep : forall e start',
             start < start' <= e ->
             forall p c, 0 <= p < start' -> char_at text p = Some c ->
                         isspace c = false ->
                         (forall p c, 0 <= p < start -> char_at text p = Some c ->
                                      isspace c = false -> covered chunks p) ->
                         covered (append_nonblank text chunks start e) p).
  { intros e start' He p c Hp Hc Hsp Hinv.
    destruct (Z_lt_ge_dec p start) as [Hlo | Hhi].
    - assert (covered chunks p) as (c' & Hin & Hc')
        by (apply (Hinv p c); [lia | assumption ..]).
      exists c'. split; [apply append_nonblank_incl; exact Hin | exact Hc'].
    - apply (append_nonblank_covers chunks start e p c); [lia | lia | assumption ..]. }
  destruct (is_in_protected_region_cases text start)
    as [(ty & s & e & _ & -> & Hb) | [_ ->]].
  - intros H Hinv. apply (IH e _ _ (ltac:(lia)) H).
    intros p c Hp Hc Hsp. apply (Hstep e e) with (c := c); [lia | assumption ..].
  - pose proof (ordinary_end_lower start ltac:(lia)) as Hoe.
    destruct (start + (chunk_size - overlap) >=? len text) eqn:Hge.
    + intros [= <-] Hinv p c Hp Hc Hsp.
      apply (Hstep (ordinary_end text chunk_size start)
                   (start + (chunk_size - overlap)) ltac:(lia) p c);
        [specialize (Hlen p c Hc); lia | assumption ..].
    + intros H Hinv.
      apply (IH (start + (chunk_size - overlap)) _ _ (ltac:(lia)) H).
      intros p c Hp Hc Hsp.
      apply (Hstep (ordinary_end text chunk_size start)
                   (start + (chunk_size - overlap)) ltac:(lia) p c); assumption.
Qed.

End ChunkLoop.

(** ** Statements about [chunk_text] *)

Lemma chunk_text_defaults (text : str) :
  chunk_text text None None = chunk_text text (Some 1200) (Some 200).
Proof. reflexivity. Qed.

Lemma chunk_text_emitted (text : str) (chunk_size overlap : Z) (out : list chunk_tuple) :
  chunk_text text (Some chunk_size) (Some overlap) = Some out ->
  forall c, In c out -> emitted text chunk_size c.
Proof.
  unfold chunk_text. intros H c Hc.
  destruct (chunk_loop_In _ _ _ _ _ _ _ H c Hc) as [[] | He]. exact He.
Qed.

(** Whatever the parameters, more passes than [chunk_text] allows change
    nothing: it returns [None] only for a loop that never ends. *)
Lemma chunk_text_fuel (text : str) (chunk_size overlap : Z) (fuel : nat)
  (out : list chunk_tuple) :
  chunk_loop text chunk_size overlap fuel 0 [] = Some out ->
  chunk_text text (Some chunk_size) (Some overlap) = Some out.
Proof.
  intros H. unfold chunk_text.
  apply (chunk_loop_fuel_enough _ _ _ _ _ _ _ H). unfold len. lia.
Qed.

Lemma chunk_text_total (text : str) (chunk_size overlap : Z) :
  overlap < chunk_size ->
  exists out, chunk_text text (Some chunk_size) (Some overlap) = Some out.
Proof.
  intros Hov. unfold chunk_text. apply chunk_loop_total; [exact Hov |].
  unfold len. lia.
Qed.

Example split_table_ranges : protected_ranges split_table = [(5, 26)].
Proof. reflexivity. Qed.

Example split_table_chunks :
  chunk_text split_table (Some 10) (Some 2)
  = Some [(lit "abcde[TABLE 1]x[END ", 0, 20); (lit "BLE 1]x[END TABLE]", 8, 26)].
Proof. reflexivity. Qed.

(** The scenario of the specification: the table block comes out whole. *)
Example table_scenario :
  exists rest,
    chunk_text (lit "[TABLE 1]
A: 93
B: 83
[END TABLE]
Some filler text after.") (Some 10) (Some 2)
    = Some ((lit "[TABLE 1]
A: 93
B: 83
[END TABLE]", 0, 33) :: rest).
Proof. eexists. reflexivity. Qed.

(** C3: an ordinary chunk whose proposed end [cursor + chunk_size] lies
    inside the text and inside a protected region ends at
    [min(region_end, cursor + 2 * chunk_size)]. *)
Theorem capped_region_extension
  (text : str) (chunk_size overlap : Z) (out : list chunk_tuple)
  (c : chunk_tuple) (ty : option region_type) (region_end : Z) :
  chunk_text text (Some chunk_size) (Some overlap) = Some out ->
  In c out ->
  is_in_protected_region text (chunk_start c) = (false, None, chunk_start c) ->
  chunk_start c + chunk_size < len text ->
  is_in_protected_region text (chunk_start c + chunk_size) = (true, ty, region_end) ->
  chunk_end c = Z.min region_end (chunk_start c + 2 * chunk_size).
Proof.
  intros Hout Hc Hord Hin Hreg.
  destruct (chunk_text_emitted _ _ _ _ Hout c Hc) as (_ & He & _).
  rewrite He. unfold candidate_end. rewrite Hord.
  unfold ordinary_end. apply Z.ltb_lt in Hin. rewrite Hin, Hreg.
  f_equal. lia.
Qed.

Lemma capped_region_extension_witness :
  let c := (lit "abcde[TABLE 1]x[END ", 0, 20) in
  let out := [c; (lit "BLE 1]x[END TABLE]", 8, 26)] in
  chunk_text split_table (Some 10) (Some 2) = Some out
  /\ In c out
  /\ is_in_protected_region split_table (chunk_start c) = (false, None, chunk_start c)
  /\ chunk_start c + 10 < len split_table
  /\ is_in_protected_region split_table (chunk_start c + 10) = (true, Some table, 26)
  /\ chunk_end c = Z.min 26 (chunk_start c + 2 * 10).
Proof.
  assert (H1 : chunk_text split_table (Some 10) (Some 2)
               = Some [(lit "abcde[TABLE 1]x[END ", 0, 20);
                       (lit "BLE 1]x[END TABLE]", 8, 26)]) by reflexivity.
  assert (H2 : In (lit "abcde[TABLE 1]x[END ", 0, 20)
                  [(lit "abcde[TABLE 1]x[END ", 0, 20);
                   (lit "BLE 1]x[END TABLE]", 8, 26)]) by (left; reflexivity).
  assert (H3 : is_in_protected_region split_table
                 (chunk_start (lit "abcde[TABLE 1]x[END ", 0, 20))
               = (false, None, chunk_start (lit "abcde[TABLE 1]x[END ", 0, 20)))
    by reflexivity.
  assert (H4 : chunk_start (lit "abcde[TABLE 1]x[END ", 0, 20) + 10 < len split_table)
    by reflexivity.
  assert (H5 : is_in_protected_region split_table
                 (chunk_start (lit "abcde[TABLE 1]x[END ", 0, 20) + 10)
               = (true, Some table, 26)) by reflexivity.
  cbv zeta.
  refine (conj H1 (conj H2 (conj H3 (conj H4 (conj H5 _))))).
  exact (capped_region_extension split_table 10 2 _ _ _ _ H1 H2 H3 H4 H5).
Defined.

(** C1: the code breaks the claim at the configured size and overlap.
    In [late_table] the table region is [900, 1300).  The first chunk,
    [0, 1300), holds it whole and no cap is met; the cursor then moves to
    [0 + 1200 - 200 = 1000], inside the region, and the branch commented
    "Include the entire region" emits [text[1000:1300]]: a proper suffix
    of the region, which that chunk neither holds whole nor avoids. *)
Theorem mid_region_cursor_splits_table :
  protected_ranges late_table = [(900, 1300)]
  /\ (exists c1 c2 c3,
        chunk_text late_table None None = Some [c1; c2; c3]
        /\ (chunk_start c1, chunk_end c1) = (0, 1300)
        /\ (chunk_start c2, chunk_end c2) = (1000, 1300)
        /\ (chunk_start c3, chunk_end c3) = (1300, 2500)
        /\ chunk_str c2 = slice late_table 1000 1300
        /\ is_in_protected_region late_table 1000 = (true, Some table, 1300)
        /\ region_within (900, 1300) c1
        /\ ~ region_within (900, 1300) c2
        /\ ~ region_apart (900, 1300) c2)
  /\ ~ atomic_regions.
Proof.
  assert (Hr : protected_ranges late_table = [(900, 1300)]) by (vm_compute; reflexivity).
  assert (Hc : chunk_text late_table None None
               = Some [(slice late_table 0 1300, 0, 1300);
                       (slice late_table 1000 1300, 1000, 1300);
                       (slice late_table 1300 2500, 1300, 2500)])
    by (vm_compute; reflexivity).
  split; [exact Hr |]. split.
  - do 3 eexists. split; [exact Hc |].
    split; [reflexivity |]. split; [reflexivity |]. split; [reflexivity |].
    split; [reflexivity |]. split; [vm_compute; reflexivity |].
    unfold region_within, region_apart, chunk_start, chunk_end. cbn [fst snd].
    split; [lia |]. split; lia.
  - intros H. rewrite chunk_text_defaults in Hc.
    destruct (H late_table 1200 200 _ ltac:(lia) Hc
                (slice late_table 1000 1300, 1000, 1300) (900, 1300)) as [Hw | Ha].
    + right; left; reflexivity.
    + rewrite Hr. left; reflexivity.
    + unfold region_within, chunk_start, chunk_end in Hw. cbn [fst snd] in Hw. lia.
    + unfold region_apart, chunk_start, chunk_end in Ha. cbn [fst snd] in Ha. lia.
Qed.



(** A negative overlap leaves gaps between consecutive chunks. *)
Example negative_overlap_gap :
  chunk_text (lit "abcdef") (Some 2) (Some (-1))
  = Some [(lit "ab", 0, 2); (lit "de", 3, 5)].
Proof. reflexivity. Qed.



(** ** The marker patterns and [re.finditer] *)

Lemma match_literal_Some (l s r : str) :
  match_literal l s = Some r <-> s = l ++ r.
Proof.
  revert s. induction l as [| c l IH]; intros s; simpl.
  - split; [intros [= ->]; reflexivity | intros ->; reflexivity].
  - destruct s as [| d s]; [split; discriminate |].
    destruct (Ascii.eqb c d) eqn:Hcd.
    + apply Ascii.eqb_eq in Hcd. subst d. rewrite IH.
      split; [intros ->; reflexivity | intros [= ->]; reflexivity].
    + apply Ascii.eqb_neq in Hcd. split; [discriminate | intros [= -> _]; congruence].
Qed.

Lemma span_split (p : ascii -> bool) (s : str) :
  forallb p (firstn (span p s) s) = true
  /\ match skipn (span p s) s with
     | c :: _ => p c = false
     | [] => True
     end.
Proof.
  induction s as [| c s IH]; simpl; [split; trivial |].
  destruct (p c) eqn:Hc; simpl; [rewrite Hc; exact IH | split; trivial].
Qed.

Lemma span_app (p : ascii -> bool) (ds : str) (c : ascii) (rest : str) :
  forallb p ds = true -> p c = false -> span p (ds ++ c :: rest) = List.length ds.
Proof.
  intros Hds Hc. induction ds as [| d ds IH]; simpl in *.
  - rewrite Hc. reflexivity.
  - apply andb_true_iff in Hds. destruct Hds as [-> Hds]. rewrite (IH Hds). reflexivity.
Qed.

Lemma match_table_spec (s : str) (n : nat) :
  match_table s = Some n
  <-> exists ds rest,
        s = table_opener_text ds ++ rest
        /\ ds <> [] /\ forallb is_digit ds = true
        /\ n = List.length (table_opener_text ds).
Proof.
  unfold match_table, table_opener_text. split.
  - destruct (match_literal (lit "[TABLE ") s) as [r |] eqn:Hl; [| discriminate].
    apply match_literal_Some in Hl.
    destruct (span is_digit r =? 0)%nat eqn:Hn; [discriminate |].
    apply Nat.eqb_neq in Hn.
    destruct (span_split is_digit r) as [Hds _].
    destruct (skipn (span is_digit r) r) as [| c rest] eqn:Hr; [discriminate |].
    destruct (is_closing c) eqn:Hc; [| discriminate].
    intros [= <-]. apply Ascii.eqb_eq in Hc. subst c.
    exists (firstn (span is_digit r) r), rest. repeat split.
    + rewrite <- app_assoc, <- app_assoc. simpl app at 3.
      rewrite <- Hr, firstn_skipn. exact Hl.
    + intros Hnil. apply (f_equal (@List.length ascii)) in Hnil.
      rewrite length_firstn in Hnil. simpl in Hnil.
      assert (span is_digit r <= List.length r)%nat.
      { clear. induction r as [| c r IH]; simpl; [lia |]. destruct (is_digit c); simpl; lia. }
      lia.
    + exact Hds.
    + rewrite !length_app, length_firstn. simpl.
      assert (span is_digit r <= List.length r)%nat.
      { clear. induction r as [| c r IH]; simpl; [lia |]. destruct (is_digit c); simpl; lia. }
      lia.
  - intros (ds & rest & -> & Hne & Hds & ->).
    assert (Hl : match_literal (lit "[TABLE ")
                   ((lit "[TABLE " ++ ds ++ [closing_bracket]) ++ rest)
                 = Some (ds ++ closing_bracket :: rest)).
    { apply match_literal_Some. rewrite <- !app_assoc. reflexivity. }
    rewrite Hl. rewrite (span_app is_digit ds closing_bracket rest Hds eq_refl).
    destruct ds as [| d ds]; [congruence |].
    replace (List.length (d :: ds) =? 0)%nat with false by reflexivity.
    rewrite skipn_app, skipn_all, Nat.sub_diag. simpl skipn. simpl app.
    replace (is_closing closing_bracket) with true by reflexivity.
    simpl. rewrite length_app. simpl. reflexivity.
Qed.

Lemma span_le (p : ascii -> bool) (s : str) : (span p s <= List.length s)%nat.
Proof.
  induction s as [| c s IH]; simpl; [lia |]. destruct (p c); simpl; lia.
Qed.

Lemma match_slide_sound (s : str) (n : nat) :
  match_slide s = Some n ->
  exists ds body rest,
    s = slide_marker_text ds body ++ rest
    /\ ds <> [] /\ forallb is_digit ds = true
    /\ forallb (fun c => negb (is_closing c)) body = true
    /\ n = List.length (slide_marker_text ds body).
Proof.
  unfold match_slide, slide_marker_text.
  destruct (match_literal (lit "[SLIDE ") s) as [r |] eqn:Hl; [| discriminate].
  apply match_literal_Some in Hl.
  destruct (span is_digit r =? 0)%nat eqn:Hn; [discriminate |].
  apply Nat.eqb_neq in Hn.
  destruct (span_split is_digit r) as [Hds _].
  set (r' := skipn (span is_digit r) r).
  destruct (span_split (fun c => negb (is_closing c)) r') as [Hbody Hclose].
  destruct (skipn (span (fun c => negb (is_closing c)) r') r') as [| c rest] eqn:Hr;
    [discriminate |].
  intros [= <-]. apply negb_false_iff, Ascii.eqb_eq in Hclose. subst c.
  exists (firstn (span is_digit r) r),
    (firstn (span (fun c => negb (is_closing c)) r') r'), rest.
  pose proof (span_le is_digit r) as Hle1.
  pose proof (span_le (fun c => negb (is_closing c)) r') as Hle2.
  repeat split.
  - rewrite <- !app_assoc. simpl app at 4.
    rewrite <- Hr, firstn_skipn. unfold r'. rewrite firstn_skipn. exact Hl.
  - intros Hnil. apply (f_equal (@List.length ascii)) in Hnil.
    rewrite length_firstn in Hnil. simpl in Hnil. lia.
  - exact Hds.
  - exact Hbody.
  - rewrite !length_app, !length_firstn. simpl. lia.
Qed.

Lemma span_skipn (p : ascii -> bool) (s : str) :
  forall n, (n <= span p s)%nat -> span p (skipn n s) = (span p s - n)%nat.
Proof.
  induction s as [| c s IH]; intros [| n] Hn; simpl in *; try reflexivity; try lia.
  destruct (p c); [| lia]. simpl. apply IH. lia.
Qed.

Lemma span_mono (p q : ascii -> bool) (s : str) :
  (forall c, p c = true -> q c = true) -> (span p s <= span q s)%nat.
Proof.
  intros Hpq. induction s as [| c s IH]; simpl; [lia |].
  destruct (p c) eqn:Hp; [rewrite (Hpq c Hp); lia | lia].
Qed.

Lemma digit_not_closing (c : ascii) : is_digit c = true -> negb (is_closing c) = true.
Proof.
  intros H. unfold is_closing. destruct (Ascii.eqb c closing_bracket) eqn:E; [| reflexivity].
  apply Ascii.eqb_eq in E. subst c. discriminate.
Qed.

Lemma match_slide_complete (ds body rest : str) :
  ds <> [] -> forallb is_digit ds = true ->
  forallb (fun c => negb (is_closing c)) body = true ->
  match_slide (slide_marker_text ds body ++ rest)
  = Some (List.length (slide_marker_text ds body)).
Proof.
  intros Hne Hds Hbody. unfold match_slide, slide_marker_text.
  set (r := ds ++ body ++ closing_bracket :: rest).
  assert (Hl : match_literal (lit "[SLIDE ")
                 ((lit "[SLIDE " ++ ds ++ body ++ [closing_bracket]) ++ rest) = Some r).
  { apply match_literal_Some. unfold r. rewrite <- !app_assoc. reflexivity. }
  rewrite Hl.
  assert (Hfirst : (span is_digit r <> 0)%nat).
  { unfold r. destruct ds as [| d ds]; [congruence |]. simpl in Hds |- *.
    apply andb_true_iff in Hds. destruct Hds as [-> _]. lia. }
  apply Nat.eqb_neq in Hfirst. rewrite Hfirst.
  assert (Htotal : span (fun c => negb (is_closing c)) r = List.length (ds ++ body)).
  { unfold r. rewrite app_assoc. apply span_app; [| reflexivity].
    rewrite forallb_app, Hbody, andb_true_r.
    apply forallb_forall. intros c Hc. apply digit_not_closing.
    exact (proj1 (forallb_forall _ _) Hds c Hc). }
  pose proof (span_mono is_digit (fun c => negb (is_closing c)) r digit_not_closing) as Hle.
  rewrite (span_skipn _ r _ Hle), skipn_skipn.
  replace (span (fun c => negb (is_closing c)) r - span is_digit r + span is_digit r)%nat
    with (List.length (ds ++ body)) by lia.
  unfold r at 1. rewrite app_assoc, skipn_app, skipn_all, Nat.sub_diag. simpl.
  f_equal. rewrite Htotal in Hle. rewrite Htotal. rewrite length_app in Hle.
  rewrite !length_app. simpl. lia.
Qed.

Lemma skipn_inside (body rest : str) (c0 : ascii) (k : nat) :
  forallb not_open body = true ->
  (0 < k <= List.length body)%nat ->
  exists c r, skipn k (c0 :: body ++ rest) = c :: r /\ not_open c = true.
Proof.
  intros Hb Hk. destruct k as [| k]; [lia |]. simpl.
  revert k Hk. induction body as [| d body IH]; simpl in *; intros k Hk; [lia |].
  apply andb_true_iff in Hb. destruct Hb as [Hd Hb].
  destruct k as [| k]; simpl.
  - exists d, (body ++ rest). split; [reflexivity | exact Hd].
  - apply IH; [exact Hb | lia].
Qed.

Lemma match_table_not_open (c : ascii) (r : str) :
  not_open c = true -> match_table (c :: r) = None.
Proof.
  unfold not_open, match_table. intros H. apply negb_true_iff in H.
  cbn [lit list_ascii_of_string match_literal].
  rewrite Ascii.eqb_sym, H. reflexivity.
Qed.

Lemma match_end_table_not_open (c : ascii) (r : str) :
  not_open c = true -> match_end_table (c :: r) = None.
Proof.
  unfold not_open, match_end_table. intros H. apply negb_true_iff in H.
  cbn [lit list_ascii_of_string match_literal].
  rewrite Ascii.eqb_sym, H. reflexivity.
Qed.

Lemma digit_not_open (ds : str) :
  forallb is_digit ds = true -> forallb not_open ds = true.
Proof.
  induction ds as [| d ds IH]; simpl; [trivial |].
  intros H. apply andb_true_iff in H. destruct H as [Hd Hds].
  rewrite (IH Hds), andb_true_r. unfold not_open.
  destruct (Ascii.eqb d "[") eqn:E; [| reflexivity].
  apply Ascii.eqb_eq in E. subst d. discriminate.
Qed.

Lemma match_table_no_inner : no_inner_match match_table.
Proof.
  intros s n H. apply match_table_spec in H.
  destruct H as (ds & rest & -> & Hne & Hds & ->).
  unfold table_opener_text. split; [simpl; lia |]. intros k Hk.
  destruct (skipn_inside (lit "TABLE " ++ ds ++ [closing_bracket]) rest "["%char k)
    as (c & r & Hs & Hc).
  - rewrite !forallb_app, (digit_not_open ds Hds). reflexivity.
  - simpl in Hk |- *. lia.
  - change ((lit "[TABLE " ++ ds ++ [closing_bracket]) ++ rest)
      with ("["%char :: (lit "TABLE " ++ ds ++ [closing_bracket]) ++ rest).
    rewrite Hs. apply match_table_not_open, Hc.
Qed.

Lemma match_end_table_spec (s : str) (n : nat) :
  match_end_table s = Some n
  <-> exists rest, s = lit "[END TABLE]" ++ rest /\ n = 11%nat.
Proof.
  unfold match_end_table.
  destruct (match_literal (lit "[END TABLE]") s) as [r |] eqn:Hl.
  - apply match_literal_Some in Hl. split.
    + intros [= <-]. exists r. split; [exact Hl | reflexivity].
    + intros (rest & _ & ->). reflexivity.
  - split; [discriminate |]. intros (rest & Hs & _).
    apply match_literal_Some in Hs. congruence.
Qed.

Lemma match_end_table_no_inner : no_inner_match match_end_table.
Proof.
  intros s n H. apply match_end_table_spec in H. destruct H as (rest & -> & ->).
  split; [lia |]. intros k Hk.
  destruct (skipn_inside (lit "END TABLE]") rest "["%char k) as (c & r & Hs & Hc).
  - reflexivity.
  - simpl. lia.
  - change (lit "[END TABLE]" ++ rest) with ("["%char :: lit "END TABLE]" ++ rest).
    rewrite Hs. apply match_end_table_not_open, Hc.
Qed.

(** Every pair listed by [finditer_from] is a match of [m]. *)
Lemma finditer_from_sound (m : str -> option nat) (s : str) :
  forall pos skip i j,
    In (i, j) (finditer_from m pos skip s) ->
    exists k n, i = (pos + k)%nat /\ j = (i + n)%nat
                /\ (skip <= k < List.length s)%nat
                /\ m (skipn k s) = Some n.
Proof.
  induction s as [| c s IH]; simpl; intros pos skip i j; [tauto |].
  assert (Hrec : forall skip',
             In (i, j) (finditer_from m (S pos) skip' s) ->
             exists k n, i = (pos + k)%nat /\ j = (i + n)%nat
                         /\ (S skip' <= k < S (List.length s))%nat
                         /\ m (skipn k (c :: s)) = Some n).
  { intros skip' H. destruct (IH _ _ _ _ H) as (k & n & -> & -> & Hk & Hm).
    exists (S k), n. repeat split; try lia. exact Hm. }
  destruct skip as [| skip].
  - destruct (m (c :: s)) as [n |] eqn:Hm.
    + intros [[= <- <-] | H].
      * exists 0%nat, n. repeat split; try lia. exact Hm.
      * destruct (Hrec _ H) as (k & n' & ? & ? & ? & ?).
        exists k, n'. repeat split; try assumption; lia.
    + intros H. destruct (Hrec _ H) as (k & n' & ? & ? & ? & ?).
      exists k, n'. repeat split; try assumption; lia.
  - intros H. destruct (Hrec _ H) as (k & n' & ? & ? & ? & ?).
    exists k, n'. repeat split; try assumption; lia.
Qed.

(** When matches cannot nest, every match of [m] is listed. *)
Lemma finditer_from_complete (m : str -> option nat) (s : str) :
  no_inner_match m ->
  forall pos skip k n,
    (skip <= k < List.length s)%nat ->
    (forall k', (k' < skip)%nat -> m (skipn k' s) = None) ->
    m (skipn k s) = Some n ->
    In ((pos + k)%nat, (pos + k + n)%nat) (finditer_from m pos skip s).
Proof.
  intros Hm. induction s as [| c s IH]; simpl; intros pos skip k n Hk Hskip Hn; [lia |].
  destruct skip as [| skip].
  - destruct (m (c :: s)) as [n0 |] eqn:Hm0.
    + destruct k as [| k].
      * simpl in Hn. left. rewrite Nat.add_0_r. congruence.
      * right. destruct (Hm _ _ Hm0) as [Hpos Hinner].
        replace (pos + S k)%nat with (S pos + k)%nat by lia.
        apply IH; [| | exact Hn].
        -- split; [| lia]. destruct (Nat.lt_ge_cases k (pred n0)) as [Hlt | Hge]; [| exact Hge].
           rewrite (Hinner (S k)) in Hn; [discriminate | lia].
        -- intros k' Hk'. apply (Hinner (S k')). lia.
    + destruct k as [| k]; [simpl in Hn; congruence |].
      replace (pos + S k)%nat with (S pos + k)%nat by lia.
      apply IH; [lia | intros k' Hk'; lia | exact Hn].
  - destruct k as [| k]; [lia |].
    replace (pos + S k)%nat with (S pos + k)%nat by lia.
    apply IH; [lia | | exact Hn].
    intros k' Hk'. apply (Hskip (S k')). lia.
Qed.

Lemma occurs_at_skipn (text piece : str) (k : nat) :
  piece <> [] ->
  ((k < List.length text)%nat /\ exists rest, skipn k text = piece ++ rest)
  <-> occurs_at text piece (Z.of_nat k) (Z.of_nat (k + List.length piece)).
Proof.
  intros Hne. unfold occurs_at, len. split.
  - intros (Hk & rest & Hs). exists (firstn k text), rest.
    rewrite <- Hs, firstn_skipn, length_firstn. repeat split; lia.
  - intros (pre & post & -> & Hi & _). assert (k = List.length pre) as -> by lia.
    split.
    + rewrite !length_app. destruct piece; [congruence | simpl; lia].
    + exists post. rewrite skipn_app, skipn_all, Nat.sub_diag. reflexivity.
Qed.

Lemma finditer_sound (m : str -> option nat) (text : str) (i j : Z) :
  In (i, j) (finditer m text) ->
  exists k n, i = Z.of_nat k /\ j = Z.of_nat (k + n)
              /\ (k < List.length text)%nat /\ m (skipn k text) = Some n.
Proof.
  unfold finditer. intros H. apply in_map_iff in H.
  destruct H as ([i' j'] & [= <- <-] & H).
  destruct (finditer_from_sound _ _ _ _ _ _ H) as (k & n & -> & -> & Hk & Hm).
  exists k, n. repeat split; try lia. exact Hm.
Qed.

Lemma finditer_complete (m : str -> option nat) (text : str) (k n : nat) :
  no_inner_match m ->
  (k < List.length text)%nat -> m (skipn k text) = Some n ->
  In (Z.of_nat k, Z.of_nat (k + n)) (finditer m text).
Proof.
  intros Hm Hk Hn. unfold finditer. apply in_map_iff.
  exists (k, (k + n)%nat). split; [reflexivity |].
  apply (finditer_from_complete m text Hm 0 0 k n); [lia | intros; lia | exact Hn].
Qed.

(** Whatever the pattern, a match that is not listed starts inside one
    that is. *)
Lemma finditer_from_covering (m : str -> option nat) (s : str) :
  forall pos skip k n,
    (k < List.length s)%nat -> m (skipn k s) = Some n ->
    (k < skip)%nat
    \/ In ((pos + k)%nat, (pos + k + n)%nat) (finditer_from m pos skip s)
    \/ exists i j, In (i, j) (finditer_from m pos skip s) /\ (i < pos + k < j)%nat.
Proof.
  induction s as [| c s IH]; simpl; intros pos skip k n Hk Hn; [lia |].
  assert (Hrec : forall k' skip',
             k = S k' ->
             (k' < skip')%nat
             \/ In ((pos + k)%nat, (pos + k + n)%nat) (finditer_from m (S pos) skip' s)
             \/ exists i j, In (i, j) (finditer_from m (S pos) skip' s)
                             /\ (i < pos + k < j)%nat).
  { intros k' skip' ->. simpl in Hn.
    replace (pos + S k')%nat with (S pos + k')%nat by lia.
    apply IH; [lia | exact Hn]. }
  destruct skip as [| skip].
  - destruct (m (c :: s)) as [n0 |] eqn:Hm0.
    + destruct k as [| k'].
      * simpl in Hn. right. left. left. rewrite Nat.add_0_r. congruence.
      * right. destruct (Hrec k' (pred n0) eq_refl) as [H | [H | (i & j & H & Hij)]].
        -- right. exists pos, (pos + n0)%nat. split; [left; reflexivity | lia].
        -- left. right. exact H.
        -- right. exists i, j. split; [right; exact H | exact Hij].
    + destruct k as [| k']; [simpl in Hn; congruence |].
      destruct (Hrec k' 0%nat eq_refl) as [H | H]; [lia | right; exact H].
  - destruct k as [| k']; [left; lia |].
    destruct (Hrec k' skip eq_refl) as [H | H]; [left; lia | right; exact H].
Qed.

Lemma finditer_covering (m : str -> option nat) (text : str) (k n : nat) :
  (k < List.length text)%nat -> m (skipn k text) = Some n ->
  In (Z.of_nat k, Z.of_nat (k + n)) (finditer m text)
  \/ exists i j, In (i, j) (finditer m text) /\ i < Z.of_nat k < j.
Proof.
  intros Hk Hn. unfold finditer.
  destruct (finditer_from_covering m text 0 0 k n Hk Hn) as [H | [H | (i & j & H & Hij)]];
    [lia | left | right].
  - apply in_map_iff. exists (k, (k + n)%nat). split; [reflexivity | exact H].
  - exists (Z.of_nat i), (Z.of_nat j). split; [| lia].
    apply in_map_iff. exists (i, j). split; [reflexivity | exact H].
Qed.

(** [re.finditer] lists its matches from left to right: each one starts
    after the start of the one before and not before its end. *)
Lemma finditer_from_sorted (m : str -> option nat) (s : str) :
  forall pos skip,
    StronglySorted (fun a b => (fst a < fst b)%nat /\ (snd a <= fst b)%nat)
                   (finditer_from m pos skip s).
Proof.
  induction s as [| c s IH]; intros pos skip; simpl; [constructor |].
  destruct skip as [| skip]; [| apply IH].
  destruct (m (c :: s)) as [n |]; [| apply IH].
  constructor; [apply IH |]. apply Forall_forall. intros [i j] Hin.
  destruct (finditer_from_sound _ _ _ _ _ _ Hin) as (k & n' & -> & _ & Hk & _).
  simpl. lia.
Qed.

Lemma finditer_sorted (m : str -> option nat) (text : str) :
  StronglySorted (fun a b => fst a < fst b /\ snd a <= fst b) (finditer m text).
Proof.
  unfold finditer. pose proof (finditer_from_sorted m text 0 0) as H.
  induction H as [| x l Hl IH Hx]; simpl; constructor; [exact IH |].
  apply Forall_forall. intros y Hy. apply in_map_iff in Hy.
  destruct Hy as (y' & <- & Hy'). simpl.
  pose proof (proj1 (Forall_forall _ _) Hx y' Hy'). simpl in *. lia.
Qed.

Lemma sorted_weaken {A : Type} (R S : A -> A -> Prop) (l : list A) :
  (forall a b, R a b -> S a b) -> StronglySorted R l -> StronglySorted S l.
Proof.
  intros HRS H. induction H as [| x l Hl IH Hx]; constructor; [exact IH |].
  eapply Forall_impl; [| exact Hx]. intros y. apply HRS.
Qed.

(** ** Boundary detection, in the words of the specification *)

Lemma table_starts_iff (text : str) (i j : Z) :
  In (i, j) (table_starts text) <-> table_opener text i j.
Proof.
  unfold table_starts, table_opener. split.
  - intros H. destruct (finditer_sound _ _ _ _ H) as (k & n & -> & -> & Hk & Hm).
    apply match_table_spec in Hm. destruct Hm as (ds & rest & Hs & Hne & Hds & ->).
    exists ds. repeat split; try assumption.
    apply occurs_at_skipn; [destruct ds; discriminate |].
    split; [exact Hk | exists rest; exact Hs].
  - intros (ds & Hne & Hds & Hocc).
    assert (Hocc' := Hocc). destruct Hocc' as (pre & post & _ & -> & ->).
    unfold len in *. rewrite <- Nat2Z.inj_add in *.
    apply occurs_at_skipn in Hocc; [| destruct ds; discriminate].
    destruct Hocc as (Hk & rest & Hs).
    apply finditer_complete; [exact match_table_no_inner | exact Hk |].
    apply match_table_spec. exists ds, rest. repeat split; assumption.
Qed.

Lemma table_ends_iff (text : str) (i j : Z) :
  In (i, j) (table_ends text) <-> table_closer text i j.
Proof.
  unfold table_ends, table_closer. split.
  - intros H. destruct (finditer_sound _ _ _ _ H) as (k & n & -> & -> & Hk & Hm).
    apply match_end_table_spec in Hm. destruct Hm as (rest & Hs & ->).
    apply (occurs_at_skipn text (lit "[END TABLE]") k); [discriminate |].
    split; [exact Hk | exists rest; exact Hs].
  - intros Hocc.
    assert (Hocc' := Hocc). destruct Hocc' as (pre & post & _ & -> & ->).
    unfold len in *. rewrite <- Nat2Z.inj_add in *.
    apply occurs_at_skipn in Hocc; [| discriminate].
    destruct Hocc as (Hk & rest & Hs).
    apply finditer_complete; [exact match_end_table_no_inner | exact Hk |].
    apply match_end_table_spec. exists rest. split; [exact Hs | reflexivity].
Qed.

Lemma slide_matches_sound (text : str) (i j : Z) :
  In (i, j) (slide_matches text) -> slide_marker text i j.
Proof.
  unfold slide_matches, slide_marker. intros H.
  destruct (finditer_sound _ _ _ _ H) as (k & n & -> & -> & Hk & Hm).
  apply match_slide_sound in Hm.
  destruct Hm as (ds & body & rest & Hs & Hne & Hds & Hbody & ->).
  exists ds, body. repeat split; try assumption.
  apply occurs_at_skipn; [destruct ds; discriminate |].
  split; [exact Hk | exists rest; exact Hs].
Qed.

Lemma slide_matches_covering (text : str) (i j : Z) :
  slide_marker text i j ->
  In (i, j) (slide_matches text)
  \/ exists i' j', In (i', j') (slide_matches text) /\ i' < i < j'.
Proof.
  unfold slide_matches. intros (ds & body & Hne & Hds & Hbody & Hocc).
  assert (Hocc' := Hocc). destruct Hocc' as (pre & post & _ & -> & ->).
  unfold len in *. rewrite <- Nat2Z.inj_add in *.
  apply occurs_at_skipn in Hocc; [| destruct ds; discriminate].
  destruct Hocc as (Hk & rest & Hs).
  apply finditer_covering; [exact Hk |].
  rewrite Hs. apply match_slide_complete; assumption.
Qed.

(** In offset order, the first closer the inner loop meets is the
    nearest one after [pos]. *)
Lemma first_end_after_spec (closers : list (Z * Z)) :
  StronglySorted (fun a b => fst a < fst b) closers ->
  forall pos e,
    first_end_after pos closers = Some e
    <-> exists s, In (s, e) closers /\ pos < s
                  /\ forall s' e', In (s', e') closers -> pos < s' -> s <= s'.
Proof.
  intros H. induction H as [| [p q] rest Hrest IH Hp]; intros pos e; simpl.
  - split; [discriminate | intros (s & [] & _)].
  - assert (Hlt : forall s' e', In (s', e') rest -> p < s').
    { intros s' e' Hin. exact (proj1 (Forall_forall _ _) Hp (s', e') Hin). }
    destruct (Z.gtb_spec p pos) as [Hgt | Hle].
    + split.
      * intros [= <-]. exists p. split; [left; reflexivity |]. split; [exact Hgt |].
        intros s' e' [[= <- <-] | Hin] _; [lia |]. specialize (Hlt s' e' Hin). lia.
      * intros (s & [[= <- <-] | Hin] & Hs & Hmin); [reflexivity |].
        specialize (Hlt s e Hin). specialize (Hmin p q (or_introl eq_refl) Hgt). lia.
    + rewrite IH. split.
      * intros (s & Hin & Hs & Hmin). exists s. split; [right; exact Hin |].
        split; [exact Hs |]. intros s' e' [[= <- <-] | Hin'] Hs'; [lia |].
        exact (Hmin s' e' Hin' Hs').
      * intros (s & [[= <- <-] | Hin] & Hs & Hmin); [lia |].
        exists s. split; [exact Hin |]. split; [exact Hs |].
        intros s' e' Hin' Hs'. apply (Hmin s' e'); [right; exact Hin' | exact Hs'].
Qed.

(** The outer loop gives one range for each opener that finds a closer. *)
Lemma table_ranges_of_flat_map (openers closers : list (Z * Z)) :
  table_ranges_of openers closers
  = flat_map
      (fun o =>
         match first_end_after (fst o) closers with
         | Some end_end => [(fst o, end_end)]
         | None => []
         end)
      openers.
Proof.
  unfold table_ranges_of.
  enough (forall acc,
             fold_left
               (fun ranges s =>
                  match first_end_after (fst s) closers with
                  | Some end_end => ranges ++ [(fst s, end_end)]
                  | None => ranges
                  end) openers acc
             = acc ++ flat_map
                        (fun o =>
                           match first_end_after (fst o) closers with
                           | Some end_end => [(fst o, end_end)]
                           | None => []
                           end) openers) as H by exact (H []).
  induction openers as [| o openers IH]; intros acc; simpl.
  - rewrite app_nil_r. reflexivity.
  - rewrite IH. destruct (first_end_after (fst o) closers); simpl.
    + rewrite <- app_assoc. reflexivity.
    + reflexivity.
Qed.

Lemma table_ranges_of_In (openers closers : list (Z * Z)) (a b : Z) :
  In (a, b) (table_ranges_of openers closers)
  <-> (exists j, In (a, j) openers) /\ first_end_after a closers = Some b.
Proof.
  rewrite table_ranges_of_flat_map, in_flat_map. split.
  - intros ([i j] & Ho & Hin). simpl in Hin.
    destruct (first_end_after i closers) as [e |] eqn:E; [| destruct Hin].
    destruct Hin as [[= <- <-] | []]. split; [exists j; exact Ho | exact E].
  - intros [[j Ho] E]. exists (a, j). split; [exact Ho |]. simpl. rewrite E.
    left. reflexivity.
Qed.

Lemma table_ranges_of_sorted (openers closers : list (Z * Z)) :
  StronglySorted (fun a b => fst a < fst b) openers ->
  StronglySorted (fun a b => fst a < fst b) (table_ranges_of openers closers).
Proof.
  rewrite table_ranges_of_flat_map. intros H.
  induction H as [| o openers Ho IH Hall]; simpl; [constructor |].
  destruct (first_end_after (fst o) closers) as [e |]; [| exact IH].
  simpl. constructor; [exact IH |]. apply Forall_forall. intros [a b] Hin.
  apply in_flat_map in Hin. destruct Hin as (o' & Ho' & Hin).
  destruct (first_end_after (fst o') closers); [| destruct Hin].
  destruct Hin as [[= <- <-] | []]. simpl.
  exact (proj1 (Forall_forall _ _) Hall o' Ho').
Qed.

Lemma slide_ranges_from_pairs (text : str) (all : list (Z * Z)) :
  forall ms i,
    skipn i all = ms ->
    slide_ranges_from text all i ms = pair_with_next (len text) ms.
Proof.
  induction ms as [| m ms IH]; intros i Hs; simpl; [reflexivity |].
  assert (Hall : all = firstn i all ++ m :: ms) by (rewrite <- Hs, firstn_skipn; reflexivity).
  assert (Hi : List.length (firstn i all) = i).
  { apply firstn_length_le. apply Nat.lt_le_incl.
    destruct (Nat.lt_ge_cases i (List.length all)) as [Hlt | Hge]; [exact Hlt |].
    rewrite (skipn_all2 all Hge) in Hs. discriminate. }
  assert (Hnext : skipn (S i) all = ms).
  { rewrite Hall at 1. replace (S i) with (List.length (firstn i all) + 1)%nat by lia.
    rewrite skipn_app, skipn_all2 by lia.
    replace (List.length (firstn i all) + 1 - List.length (firstn i all))%nat
      with 1%nat by lia. reflexivity. }
  rewrite (IH (S i) Hnext). f_equal. f_equal.
  assert (Hlen : List.length all = (i + 1 + List.length ms)%nat).
  { rewrite Hall at 1. rewrite length_app, Hi. simpl. lia. }
  destruct ms as [| m' ms].
  - replace (i + 1 <? List.length all)%nat with false; [reflexivity |].
    symmetry. apply Nat.ltb_ge. simpl in Hlen. lia.
  - replace (i + 1 <? List.length all)%nat with true
      by (symmetry; apply Nat.ltb_lt; simpl in Hlen; lia).
    rewrite Hall at 1. rewrite app_nth2 by lia. rewrite Hi.
    replace (i + 1 - i)%nat with 1%nat by lia. reflexivity.
Qed.

Lemma pair_with_next_length (text_len : Z) (ms : list (Z * Z)) :
  List.length (pair_with_next text_len ms) = List.length ms.
Proof.
  induction ms as [| m ms IH]; [reflexivity |].
  cbn [pair_with_next List.length]. now rewrite IH.
Qed.

(** In offset order, the element that follows in the list is the one with
    the least start after. *)
Lemma pair_with_next_In (text_len : Z) (ms : list (Z * Z)) :
  StronglySorted (fun a b => fst a < fst b) ms ->
  forall a b,
    In (a, b) (pair_with_next text_len ms)
    <-> (exists j, In (a, j) ms)
        /\ ((exists j, In (b, j) ms /\ a < b
                       /\ forall i' j', In (i', j') ms -> a < i' -> b <= i')
            \/ (b = text_len /\ forall i' j', In (i', j') ms -> i' <= a)).
Proof.
  intros H. induction H as [| [p q] rest Hrest IH Hp]; intros a b.
  - simpl. split; [tauto | intros [[j []] _]].
  - assert (Hlt : forall s' e', In (s', e') rest -> p < s').
    { intros s' e' Hin. exact (proj1 (Forall_forall _ _) Hp (s', e') Hin). }
    cbn [pair_with_next fst In]. rewrite IH. split.
    + intros [Hhead | [[j Hj] Hnext]].
      * injection Hhead as <- <-. split; [exists q; left; reflexivity |].
        destruct rest as [| [p' q'] rest'].
        -- right. split; [reflexivity |]. intros i' j' [[= <- <-] | []]. lia.
        -- left. exists q'. split; [right; left; reflexivity |].
           pose proof (Hlt p' q' (or_introl eq_refl)) as Hpp. cbn [fst].
           split; [exact Hpp |]. intros i' j' [[= <- <-] | [[= <- <-] | Hin]] Hi'; [lia | lia |].
           inversion Hrest as [| ? ? _ Hall]; subst.
           pose proof (proj1 (Forall_forall _ _) Hall (i', j') Hin) as Hx. simpl in Hx. lia.
      * pose proof (Hlt a j Hj) as Hpa. split; [exists j; right; exact Hj |].
        destruct Hnext as [(j' & Hb & Hab & Hmin) | [-> Hall]].
        -- left. exists j'. split; [right; exact Hb |]. split; [exact Hab |].
           intros i' j'' [[= <- <-] | Hin] Hi'; [lia | exact (Hmin i' j'' Hin Hi')].
        -- right. split; [reflexivity |].
           intros i' j' [[= <- <-] | Hin]; [lia | exact (Hall i' j' Hin)].
    + intros [[j [[= <- <-] | Hj]] Hnext].
      * left. f_equal. destruct rest as [| [p' q'] rest'].
        -- destruct Hnext as [(j' & [[= <- _] | []] & Hab & _) | [-> _]]; [lia | reflexivity].
        -- pose proof (Hlt p' q' (or_introl eq_refl)) as Hpp. cbn [fst].
           destruct Hnext as [(j' & Hb & Hab & Hmin) | [_ Hall]].
           ++ pose proof (Hmin p' q' (or_intror (or_introl eq_refl)) Hpp) as H1.
              destruct Hb as [[= <- _] | [[= <- _] | Hb]]; [lia | reflexivity |].
              inversion Hrest as [| ? ? _ Hall]; subst.
              pose proof (proj1 (Forall_forall _ _) Hall (b, j') Hb) as Hx. simpl in Hx. lia.
           ++ specialize (Hall p' q' (or_intror (or_introl eq_refl))). lia.
      * pose proof (Hlt a j Hj) as Hpa. right. split; [exists j; exact Hj |].
        destruct Hnext as [(j' & Hb & Hab & Hmin) | [-> Hall]].
        -- left. exists j'. destruct Hb as [[= <- _] | Hb]; [lia |].
           split; [exact Hb |]. split; [exact Hab |].
           intros i' j'' Hin Hi'. apply (Hmin i' j''); [right; exact Hin | exact Hi'].
        -- right. split; [reflexivity |].
           intros i' j' Hin. apply (Hall i' j'). right. exact Hin.
Qed.

Lemma find_range_hit (pos : Z) (ranges : list (Z * Z)) :
  (exists r, In r ranges /\ inside r pos) ->
  exists r, find_range pos ranges = Some r /\ In r ranges /\ inside r pos.
Proof.
  intros (r & Hr & Hin).
  destruct (find_range pos ranges) as [[s e] |] eqn:Hf.
  - exists (s, e). destruct (find_range_Some _ _ _ _ Hf) as [H1 H2].
    repeat split; try assumption; apply H2.
  - destruct r as [s e]. exfalso. exact (find_range_None _ _ Hf s e Hr Hin).
Qed.

Lemma find_range_miss (pos : Z) (ranges : list (Z * Z)) :
  (forall r, In r ranges -> ~ inside r pos) -> find_range pos ranges = None.
Proof.
  intros H. destruct (find_range pos ranges) as [[s e] |] eqn:Hf; [| reflexivity].
  destruct (find_range_Some _ _ _ _ Hf) as [H1 H2]. exfalso. exact (H (s, e) H1 H2).
Qed.

Example nested_slides_ranges : slide_ranges nested_slides = [(0, 18)].
Proof. reflexivity. Qed.

(** C4, as stated, fails: in ["[SLIDE 1 [SLIDE 2]"] the marker
    ["[SLIDE 2]"] at offset 9 lies inside the match that starts at 0, which
    [[^\]]*] carries on to the first closing bracket; [re.finditer] does
    not list it and no slide region starts there. *)
Lemma nested_slide_marker_fails : ~ every_slide_marker_starts_region.
Proof.
  intros H.
  destruct (H nested_slides 9 18) as [e He].
  - exists (lit "2"), []. split; [discriminate |]. split; [reflexivity |].
    split; [reflexivity |].
    exists (lit "[SLIDE 1 "), []. split; [reflexivity |]. split; reflexivity.
  - rewrite nested_slides_ranges in He. destruct He as [[=] | []].
Qed.

(** C4, amended: the regions are those the claim describes, for the slide
    markers that [re.finditer] lists.
    - Table openers and closers are exactly the occurrences of the two
      markers.  A slide match is a slide marker; a slide marker is listed
      unless it starts inside a listed one; the listed ones come from left
      to right without overlap.
    - The table regions are exactly the spans from the start of an opener
      to the end of the nearest closer that starts after it, one for each
      opener that has such a closer, in the order of the openers; an
      opener with no closer after it gives no region.
    - The slide regions are exactly the spans from the start of a listed
      marker to the start of the next listed marker, or to the end of the
      text for the last one.
    - The point query answers with the end of a table region that holds
      the position, else of a slide region that holds it, else with
      "not protected". *)
Theorem boundary_detection (text : str) :
  (forall i j, In (i, j) (table_starts text) <-> table_opener text i j)
  /\ (forall i j, In (i, j) (table_ends text) <-> table_closer text i j)
  /\ (forall i j, In (i, j) (slide_matches text) -> slide_marker text i j)
  /\ (forall i j, slide_marker text i j ->
                  In (i, j) (slide_matches text)
                  \/ exists i' j', In (i', j') (slide_matches text) /\ i' < i < j')
  /\ StronglySorted (fun a b => fst a < fst b /\ snd a <= fst b) (slide_matches text)
  /\ (forall a b,
         In (a, b) (table_ranges text)
         <-> exists j s, table_opener text a j /\ nearest_closer_after text a s b)
  /\ (forall a j,
         table_opener text a j ->
         (forall s e, table_closer text s e -> s <= a) ->
         forall b, ~ In (a, b) (table_ranges text))
  /\ StronglySorted (fun r1 r2 => fst r1 < fst r2) (table_ranges text)
  /\ (forall a b,
         In (a, b) (slide_ranges text)
         <-> (exists j, In (a, j) (slide_matches text)) /\ next_slide_start text a b)
  /\ List.length (slide_ranges text) = List.length (slide_matches text)
  /\ (forall pos,
         ((exists r, In r (table_ranges text) /\ inside r pos) ->
          exists r, In r (table_ranges text) /\ inside r pos
                    /\ is_in_protected_region text pos = (true, Some table, snd r))
         /\ ((forall r, In r (table_ranges text) -> ~ inside r pos) ->
             (exists r, In r (slide_ranges text) /\ inside r pos) ->
             exists r, In r (slide_ranges text) /\ inside r pos
                       /\ is_in_protected_region text pos = (true, Some slide, snd r))
         /\ ((forall r, In r (protected_ranges text) -> ~ inside r pos) ->
             is_in_protected_region text pos = (false, None, pos))).
Proof.
  assert (Hends : StronglySorted (fun a b => fst a < fst b) (table_ends text)).
  { unfold table_ends. eapply sorted_weaken; [| apply finditer_sorted]. simpl. tauto. }
  assert (Hstarts : StronglySorted (fun a b => fst a < fst b) (table_starts text)).
  { unfold table_starts. eapply sorted_weaken; [| apply finditer_sorted]. simpl. tauto. }
  assert (Hslides : StronglySorted (fun a b => fst a < fst b) (slide_matches text)).
  { unfold slide_matches. eapply sorted_weaken; [| apply finditer_sorted]. simpl. tauto. }
  assert (Hregion : forall a b,
             In (a, b) (table_ranges text)
             <-> exists j s, table_opener text a j /\ nearest_closer_after text a s b).
  { intros a b. unfold table_ranges, nearest_closer_after.
    rewrite table_ranges_of_In, (first_end_after_spec _ Hends). split.
    - intros [[j Hj] (s & Hs & Hlt & Hmin)]. exists j, s.
      split; [apply table_starts_iff; exact Hj |].
      split; [apply table_ends_iff; exact Hs |]. split; [exact Hlt |].
      intros s' e' Hc Hlt'. apply (Hmin s' e'); [apply table_ends_iff; exact Hc | exact Hlt'].
    - intros (j & s & Hj & Hs & Hlt & Hmin).
      split; [exists j; apply table_starts_iff; exact Hj |].
      exists s. split; [apply table_ends_iff; exact Hs |]. split; [exact Hlt |].
      intros s' e' Hc Hlt'. apply (Hmin s' e'); [apply table_ends_iff; exact Hc | exact Hlt']. }
  split; [exact (table_starts_iff text) |].
  split; [exact (table_ends_iff text) |].
  split; [exact (slide_matches_sound text) |].
  split; [exact (slide_matches_covering text) |].
  split; [apply finditer_sorted |].
  split; [exact Hregion |].
  split.
  { intros a j _ Hno b Hin. apply Hregion in Hin.
    destruct Hin as (_ & s & _ & Hs & Hlt & _). specialize (Hno s b Hs). lia. }
  split; [apply table_ranges_of_sorted, Hstarts |].
  split.
  { intros a b. unfold slide_ranges, next_slide_start.
    rewrite (slide_ranges_from_pairs text (slide_matches text) (slide_matches text)
               0%nat eq_refl).
    apply pair_with_next_In, Hslides. }
  split.
  { unfold slide_ranges. rewrite (slide_ranges_from_pairs text (slide_matches text) (slide_matches text)
               0%nat eq_refl).
    apply pair_with_next_length. }
  intros pos. unfold is_in_protected_region, protected_region_at. repeat split.
  - intros H. destruct (find_range_hit _ _ H) as ([s e] & -> & Hr & Hin).
    exists (s, e). repeat split; try assumption; apply Hin.
  - intros Hno H. rewrite (find_range_miss _ _ Hno).
    destruct (find_range_hit _ _ H) as ([s e] & -> & Hr & Hin).
    exists (s, e). repeat split; try assumption; apply Hin.
  - intros Hno. unfold protected_ranges in Hno.
    rewrite !find_range_miss; [reflexivity | |];
      intros r Hr; apply Hno, in_or_app; tauto.
Qed.

(* ------------------------------------------------------------------ *)
(** ** Scores *)

Import Retriever FusionSpec.
Local Open Scope Q_scope.

Lemma Qle_bool_false (a b : Q) : Qle_bool a b = false -> b < a.
Proof.
  intros H. destruct (Qlt_le_dec b a) as [Hlt | Hle]; [exact Hlt |].
  apply Qle_bool_iff in Hle. congruence.
Qed.

Ltac qbool :=
  repeat match goal with
    | H : Qle_bool _ _ = true |- _ => apply Qle_bool_iff in H
    | H : Qle_bool _ _ = false |- _ => apply Qle_bool_false in H
    | H : Qeq_bool _ _ = true |- _ => apply Qeq_bool_iff in H
    | H : Qeq_bool _ _ = false |- _ => apply Qeq_bool_neq in H
    end.

Ltac qcase :=
  repeat match goal with
    | |- context [Qle_bool ?a ?b] => destruct (Qle_bool a b) eqn:?
    end;
  qbool.

Lemma max2_upper (a b : Q) : a <= max2 a b /\ b <= max2 a b.
Proof. unfold max2. qcase; lra. Qed.

Lemma max2_pick (a b : Q) : max2 a b = a \/ max2 a b = b.
Proof. unfold max2. destruct (Qle_bool b a); tauto. Qed.

Lemma min2_lower (a b : Q) : min2 a b <= a /\ min2 a b <= b.
Proof. unfold min2. qcase; lra. Qed.

Lemma min2_pick (a b : Q) : min2 a b = a \/ min2 a b = b.
Proof. unfold min2. destruct (Qle_bool a b); tauto. Qed.

Lemma max2_spec (a b : Q) : (b <= a /\ max2 a b = a) \/ (a < b /\ max2 a b = b).
Proof. unfold max2. qcase; [left | right]; split; (lra || reflexivity). Qed.

Lemma min2_spec (a b : Q) : (a <= b /\ min2 a b = a) \/ (b < a /\ min2 a b = b).
Proof. unfold min2. qcase; [left | right]; split; (lra || reflexivity). Qed.

(** Case analysis on every [min2] and [max2] of the goal, innermost first. *)
Ltac minmax :=
  repeat match goal with
    | |- context [min2 ?a ?b] =>
        lazymatch a with context [min2 _ _] => fail | context [max2 _ _] => fail | _ => idtac end;
        lazymatch b with context [min2 _ _] => fail | context [max2 _ _] => fail | _ => idtac end;
        destruct (min2_spec a b) as [[? ->] | [? ->]]
    | |- context [max2 ?a ?b] =>
        lazymatch a with context [min2 _ _] => fail | context [max2 _ _] => fail | _ => idtac end;
        lazymatch b with context [min2 _ _] => fail | context [max2 _ _] => fail | _ => idtac end;
        destruct (max2_spec a b) as [[? ->] | [? ->]]
    end.

Lemma clamp_range (x : Q) : 0 <= clamp x <= 1.
Proof. unfold clamp. minmax; lra. Qed.

Lemma clamp_mono (x y : Q) : x <= y -> clamp x <= clamp y.
Proof. intros H. unfold clamp. minmax; lra. Qed.

Lemma clamp_fixed (x : Q) : 0 <= x <= 1 -> clamp x == x.
Proof. intros H. unfold clamp. minmax; lra. Qed.

Lemma max_list_greatest (l : list Q) : forall x, greatest (max_list x l) (x :: l).
Proof.
  unfold max_list, greatest. induction l as [| y l IH]; intros x; simpl.
  - split; [tauto | intros z [<- | []]; lra].
  - destruct (IH (max2 x y)) as [Hin Hub]. simpl in Hin.
    pose proof (max2_upper x y) as [Hx Hy]. split.
    + destruct Hin as [Hin | Hin]; [| tauto]. rewrite <- Hin.
      destruct (max2_pick x y) as [E | E]; rewrite E; tauto.
    + intros z [Hz | [Hz | Hz]].
      * rewrite <- Hz.
        apply Qle_trans with (max2 x y); [exact Hx | apply Hub; left; reflexivity].
      * rewrite <- Hz.
        apply Qle_trans with (max2 x y); [exact Hy | apply Hub; left; reflexivity].
      * apply Hub. right. exact Hz.
Qed.

Lemma min_list_least (l : list Q) : forall x, least (min_list x l) (x :: l).
Proof.
  unfold min_list, least. induction l as [| y l IH]; intros x; simpl.
  - split; [tauto | intros z [<- | []]; lra].
  - destruct (IH (min2 x y)) as [Hin Hlb]. simpl in Hin.
    pose proof (min2_lower x y) as [Hx Hy]. split.
    + destruct Hin as [Hin | Hin]; [| tauto]. rewrite <- Hin.
      destruct (min2_pick x y) as [E | E]; rewrite E; tauto.
    + intros z [Hz | [Hz | Hz]].
      * rewrite <- Hz.
        apply Qle_trans with (min2 x y); [apply Hlb; left; reflexivity | exact Hx].
      * rewrite <- Hz.
        apply Qle_trans with (min2 x y); [apply Hlb; left; reflexivity | exact Hy].
      * apply Hlb. right. exact Hz.
Qed.

(** ** [_normalize_scores] *)

Lemma lookup_const (c : Q) (n : nat) :
  forall a k, (k < n)%nat ->
              lookup (map (fun i => (i, c)) (seq a n)) (a + k) = Some c.
Proof.
  induction n as [| n IH]; intros a k Hk; [lia |]. simpl.
  destruct k as [| k].
  - rewrite Nat.add_0_r, Nat.eqb_refl. reflexivity.
  - replace (a + S k =? a)%nat with false by (symmetry; apply Nat.eqb_neq; lia).
    replace (a + S k)%nat with (S a + k)%nat by lia. apply IH. lia.
Qed.

Lemma normalize_from_lookup (mn mx : Q) (scores : list Q) :
  ~ mx - mn == 0 ->
  forall i, exists d,
    normalize_from mn mx i scores = Some d
    /\ forall k s, nth_error scores k = Some s ->
                   lookup d (i + k) = Some ((s - mn) / (mx - mn)).
Proof.
  intros Hne. induction scores as [| s scores IH]; intros i; simpl.
  - exists []. split; [reflexivity |]. intros [| k] s; discriminate.
  - unfold div. destruct (Qeq_bool (mx - mn) 0) eqn:E; [qbool; contradiction |].
    destruct (IH (S i)) as (d & -> & Hd).
    eexists. split; [reflexivity |]. intros [| k] s'; simpl.
    + intros [= <-]. rewrite Nat.add_0_r, Nat.eqb_refl. reflexivity.
    + intros Hk.
      replace (i + S k =? i)%nat with false by (symmetry; apply Nat.eqb_neq; lia).
      replace (i + S k)%nat with (S i + k)%nat by lia. exact (Hd k s' Hk).
Qed.

(** C6: [_normalize_scores] never divides by zero: it returns a dict for
    every list.  For a non-empty list, with [mx] and [mn] the greatest and
    the least score, every result gets 0.5 when [mx = mn] (all scores
    equal) or [mx = 0], and [(score - mn) / (mx - mn)] otherwise. *)
Theorem normalize_scores_degenerate_safe (results : list result) :
  exists d,
    _normalize_scores results = Some d
    /\ (results <> [] ->
        exists mx mn,
          greatest mx (map score results) /\ least mn (map score results)
          /\ forall i r,
               nth_error results i = Some r ->
               ((mx == mn \/ mx == 0) -> lookup d i = Some 0.5)
               /\ ((forall x y, In x (map score results) ->
                                In y (map score results) -> x == y) ->
                   lookup d i = Some 0.5)
               /\ (~ mx == mn -> ~ mx == 0 ->
                   ~ mx - mn == 0
                   /\ lookup d i = Some ((score r - mn) / (mx - mn)))).
Proof.
  destruct results as [| r0 rs].
  - exists []. split; [reflexivity | congruence].
  - unfold _normalize_scores. cbn [map].
    set (scores := map score rs).
    pose proof (max_list_greatest scores (score r0)) as Hmax.
    pose proof (min_list_least scores (score r0)) as Hmin.
    set (mx := max_list (score r0) scores) in *.
    set (mn := min_list (score r0) scores) in *.
    destruct (Qeq_bool mx mn || Qeq_bool mx 0) eqn:E.
    + eexists. split; [reflexivity |]. intros _. exists mx, mn.
      split; [exact Hmax |]. split; [exact Hmin |]. intros i r Hi.
      assert (Hlook : lookup (map (fun i => (i, 0.5)) (seq 0 (List.length (r0 :: rs)))) i
                      = Some 0.5).
      { apply (lookup_const 0.5 _ 0%nat i). apply nth_error_Some. congruence. }
      split; [intros _; exact Hlook |]. split; [intros _; exact Hlook |].
      intros H1 H2. apply orb_true_iff in E. destruct E as [E | E]; qbool; contradiction.
    + apply orb_false_iff in E. destruct E as [E1 E2]. qbool.
      assert (Hne : ~ mx - mn == 0) by (intros H; apply E1; lra).
      destruct (normalize_from_lookup mn mx (score r0 :: scores) Hne 0%nat)
        as (d & Hd & Hlook).
      exists d. split; [exact Hd |]. intros _. exists mx, mn.
      split; [exact Hmax |]. split; [exact Hmin |]. intros i r Hi.
      split; [intros [H | H]; contradiction |]. split.
      * intros Hall. exfalso. apply E1. apply Hall; [apply Hmax | apply Hmin].
      * intros _ _. split; [exact Hne |].
        apply (Hlook i). change (score r0 :: scores) with (map score (r0 :: rs)).
        rewrite nth_error_map, Hi. reflexivity.
Qed.

(** ** Merging by text *)

Lemma str_eqb_eq (a b : str) : str_eqb a b = true <-> a = b.
Proof.
  revert b. induction a as [| c a IH]; intros [| d b]; simpl;
    try (split; [discriminate | congruence]); [tauto |].
  rewrite andb_true_iff, Ascii.eqb_eq, IH. split; [intros [-> ->] | intros [= -> ->]]; auto.
Qed.

Lemma str_eqb_refl (a : str) : str_eqb a a = true.
Proof. apply str_eqb_eq. reflexivity. Qed.

Lemma str_eqb_neq (a b : str) : str_eqb a b = false <-> a <> b.
Proof.
  destruct (str_eqb a b) eqn:E.
  - apply str_eqb_eq in E. split; [discriminate | contradiction].
  - split; [| reflexivity]. intros _ H. apply str_eqb_eq in H. congruence.
Qed.

Lemma wsum_app (t : str) (a b : list (Q * result)) :
  wsum t (a ++ b) == wsum t a + wsum t b.
Proof.
  induction a as [| wr a IH]; simpl; [lra |].
  destruct (str_eqb (text (snd wr)) t); lra.
Qed.

Lemma wsum_weight (t : str) (w : Q) (l : list result) :
  wsum t (map (pair w) l) == w * nsum t l.
Proof.
  induction l as [| r l IH]; simpl; [lra |].
  destruct (str_eqb (text r) t); lra.
Qed.

Lemma wsum_absent (t : str) (l : list (Q * result)) :
  ~ In t (map (fun wr => text (snd wr)) l) -> wsum t l == 0.
Proof.
  induction l as [| wr l IH]; simpl; intros H; [lra |].
  destruct (str_eqb (text (snd wr)) t) eqn:E.
  - apply str_eqb_eq in E. tauto.
  - apply IH. tauto.
Qed.

Lemma nsum_absent (t : str) (l : list result) :
  ~ In t (map text l) -> nsum t l == 0.
Proof.
  induction l as [| r l IH]; simpl; intros H; [lra |].
  destruct (str_eqb (text r) t) eqn:E.
  - apply str_eqb_eq in E. tauto.
  - apply IH. tauto.
Qed.

Lemma nsum_single (t : str) (l : list result) (r : result) :
  filter (fun r => str_eqb (text r) t) l = [r] -> nsum t l == get_normalized r.
Proof.
  revert r. induction l as [| r0 l IH]; simpl; intros r; [discriminate |].
  destruct (str_eqb (text r0) t) eqn:E.
  - intros [= <- Hl]. rewrite nsum_absent; [lra |].
    intros Hin. apply in_map_iff in Hin. destruct Hin as (r' & Ht & Hr').
    assert (In r' (filter (fun r => str_eqb (text r) t) l)) as Hf
        by (apply filter_In; split; [exact Hr' | apply str_eqb_eq; exact Ht]).
    rewrite Hl in Hf. exact Hf.
  - intros H. exact (IH r H).
Qed.

Lemma has_key_In (m : merged_dict) (k : str) :
  has_key m k = true <-> In k (map fst m).
Proof.
  induction m as [| [k' e] m IH]; simpl; [split; [discriminate | tauto] |].
  rewrite orb_true_iff, str_eqb_eq, IH. split; intros [H | H]; auto.
Qed.

Lemma add_score_keys (m : merged_dict) (k : str) (x : Q) :
  map fst (add_score m k x) = map fst m.
Proof.
  induction m as [| [k' e] m IH]; simpl; [reflexivity |].
  destruct (str_eqb k k'); simpl; [reflexivity | rewrite IH; reflexivity].
Qed.

Lemma add_score_In (m : merged_dict) (k : str) (x : Q) (t : str) (e' : fused) :
  NoDup (map fst m) ->
  In (t, e') (add_score m k x) ->
  (t <> k /\ In (t, e') m)
  \/ (t = k /\ exists e, In (k, e) m /\ e' = mk_fused (base e) (hybrid_score e + x)).
Proof.
  induction m as [| [k' e] m IH]; simpl; [tauto |]. intros Hnd.
  inversion Hnd as [| ? ? Hk' Hnd']; subst.
  destruct (str_eqb k k') eqn:E.
  - apply str_eqb_eq in E. subst k'. intros [[= <- <-] | Hin].
    + right. split; [reflexivity |]. exists e. split; [left |]; reflexivity.
    + left. split; [| right; exact Hin]. intros ->. apply Hk'.
      apply in_map_iff. exists (k, e'). split; [reflexivity | exact Hin].
  - apply str_eqb_neq in E. intros [[= <- <-] | Hin].
    + left. split; [congruence | left; reflexivity].
    + destruct (IH Hnd' Hin) as [[H1 H2] | [H1 (e0 & H2 & H3)]].
      * left. split; [exact H1 | right; exact H2].
      * right. split; [exact H1 |]. exists e0. split; [right; exact H2 | exact H3].
Qed.

Lemma merge_one_inv (w : Q) (m : merged_dict) (r : result) (done : list (Q * result)) :
  merged_inv m done -> merged_inv (merge_one w m r) (done ++ [(w, r)]).
Proof.
  intros (Hnd & Hkeys & Hsum). unfold merge_one.
  assert (Hdone : forall t, In t (map (fun wr => text (snd wr)) (done ++ [(w, r)]))
                            <-> In t (map fst m) \/ t = text r).
  { intros t. rewrite map_app, in_app_iff, <- Hkeys. simpl. intuition. }
  destruct (has_key m (text r)) eqn:Hk; simpl.
  - apply has_key_In in Hk. repeat split.
    + rewrite add_score_keys. exact Hnd.
    + rewrite add_score_keys, Hdone. intros H. left. exact H.
    + rewrite add_score_keys, Hdone. intros [H | ->]; assumption.
    + intros t e Hin. rewrite wsum_app. simpl.
      destruct (add_score_In _ _ _ _ _ Hnd Hin) as [[Hne H] | [-> (e0 & H & ->)]].
      * rewrite (proj2 (str_eqb_neq _ _)) by congruence.
        rewrite (Hsum t e H). lra.
      * rewrite str_eqb_refl. simpl. rewrite (Hsum _ _ H). lra.
  - assert (Hno : ~ In (text r) (map fst m)).
    { intros H. apply has_key_In in H. congruence. }
    repeat split.
    + rewrite map_app. simpl. apply NoDup_app; [exact Hnd | repeat constructor; tauto |].
      intros t Ht [<- | []]. exact (Hno Ht).
    + rewrite Hdone, map_app, in_app_iff. simpl. intuition.
    + rewrite Hdone, map_app, in_app_iff. simpl. intuition.
    + intros t e Hin. rewrite wsum_app. simpl. apply in_app_or in Hin.
      destruct Hin as [Hin | [[= <- <-] | []]].
      * assert (t <> text r) as Hne.
        { intros ->. apply Hno. apply in_map_iff. exists (text r, e). split; [reflexivity | exact Hin]. }
        rewrite (proj2 (str_eqb_neq _ _)) by congruence.
        rewrite (Hsum t e Hin). lra.
      * rewrite str_eqb_refl. simpl.
        rewrite wsum_absent; [lra |]. rewrite <- Hkeys. exact Hno.
Qed.

Lemma merge_all_inv (l : list (Q * result)) :
  forall m done, merged_inv m done -> merged_inv (merge_all l m) (done ++ l).
Proof.
  induction l as [| [w r] l IH]; intros m done H; simpl.
  - rewrite app_nil_r. exact H.
  - replace (done ++ (w, r) :: l) with ((done ++ [(w, r)]) ++ l)
      by (rewrite <- app_assoc; reflexivity).
    apply IH, merge_one_inv, H.
Qed.

Lemma merge_results_weighted (vector_results bm25_results : list result) :
  merge_results vector_results bm25_results
  = merge_all (map (pair 0.6) vector_results ++ map (pair 0.4) bm25_results) [].
Proof.
  unfold merge_results, merge_all. rewrite fold_left_app.
  assert (H : forall w (l : list result) m,
             fold_left (merge_one w) l m
             = fold_left (fun m wr => merge_one (fst wr) m (snd wr)) (map (pair w) l) m).
  { intros w l. induction l as [| r l IH]; intros m; simpl; [reflexivity | apply IH]. }
  rewrite !H. reflexivity.
Qed.

Lemma merge_results_inv (vector_results bm25_results : list result) :
  merged_inv (merge_results vector_results bm25_results)
             (map (pair 0.6) vector_results ++ map (pair 0.4) bm25_results).
Proof.
  rewrite merge_results_weighted.
  apply (merge_all_inv _ [] []). repeat split; simpl; try tauto. constructor.
Qed.

Lemma merged_entry_unique (m : merged_dict) (t : str) (e1 e2 : fused) :
  NoDup (map fst m) -> In (t, e1) m -> In (t, e2) m -> e1 = e2.
Proof.
  induction m as [| [k e] m IH]; simpl; [tauto |]. intros Hnd.
  inversion Hnd as [| ? ? Hk Hnd']; subst.
  assert (Hkey : forall e', In (t, e') m -> In t (map fst m)).
  { intros e' H. apply in_map_iff. exists (t, e'). split; [reflexivity | exact H]. }
  intros [E1 | H1] [E2 | H2].
  - congruence.
  - injection E1 as -> _. elim Hk. eauto.
  - injection E2 as -> _. elim Hk. eauto.
  - exact (IH Hnd' H1 H2).
Qed.

Example twin_scores :
  map (fun r => Qred (get_normalized r)) twin_dense = [1; 1 # 2; 0]
  /\ map (fun r => Qred (get_normalized r)) twin_lexical = [1; 0].
Proof. split; reflexivity. Qed.

Example twin_merged :
  map (fun kv => (fst kv, Qred (hybrid_score (snd kv))))
      (merge_results twin_dense twin_lexical)
  = [(lit "A", 9 # 10); (lit "B", 2 # 5)].
Proof. reflexivity. Qed.

(** C5, as stated, fails when one list holds the same text twice: the
    entry adds up every occurrence. *)
Lemma single_pair_score_fails : ~ single_pair_score.
Proof.
  intros H.
  specialize (H twin_dense twin_lexical
                (nth 0 twin_dense (raw vector "" 0))
                (nth 1 twin_lexical (raw bm25 "" 0))
                (snd (nth 0 (merge_results twin_dense twin_lexical)
                          (lit "", mk_fused (raw vector "" 0) 0)))).
  assert (Hv : hybrid_score
                 (snd (nth 0 (merge_results twin_dense twin_lexical)
                           (lit "", mk_fused (raw vector "" 0) 0)))
               == 0.6 * get_normalized (nth 0 twin_dense (raw vector "" 0))
                  + 0.4 * get_normalized (nth 1 twin_lexical (raw bm25 "" 0))).
  { apply H; [left; reflexivity | right; left; reflexivity | reflexivity
             | left; reflexivity]. }
  vm_compute in Hv. discriminate.
Qed.

(** ** Sorting by hybrid score *)

Lemma insert_desc_perm (x : fused) (l : list fused) :
  Permutation (insert_desc x l) (x :: l).
Proof.
  induction l as [| y l IH]; simpl; [reflexivity |].
  destruct (Qle_bool (hybrid_score y) (hybrid_score x)); [reflexivity |].
  rewrite IH. apply perm_swap.
Qed.

Lemma sort_desc_perm (l : list fused) : Permutation (sort_desc l) l.
Proof.
  induction l as [| x l IH]; simpl; [reflexivity |].
  rewrite insert_desc_perm, IH. reflexivity.
Qed.

Lemma insert_desc_sorted (x : fused) (l : list fused) :
  StronglySorted before l -> StronglySorted before (insert_desc x l).
Proof.
  induction l as [| y l IH]; simpl; intros Hs.
  - repeat constructor.
  - inversion Hs as [| ? ? Hl Hy]; subst.
    destruct (Qle_bool (hybrid_score y) (hybrid_score x)) eqn:E; qbool.
    + constructor; [exact Hs |]. constructor; [exact E |].
      eapply Forall_impl; [| exact Hy]. unfold before. intros z Hz. lra.
    + constructor; [exact (IH Hl) |].
      eapply Permutation_Forall; [symmetry; apply insert_desc_perm |].
      constructor; [unfold before; lra | exact Hy].
Qed.

Lemma sort_desc_sorted (l : list fused) : StronglySorted before (sort_desc l).
Proof.
  induction l as [| x l IH]; simpl; [constructor | apply insert_desc_sorted, IH].
Qed.

Lemma firstn_In {A : Type} (n : nat) (l : list A) (x : A) :
  In x (firstn n l) -> In x l.
Proof.
  revert n. induction l as [| y l IH]; intros [| n]; simpl; try tauto.
  intros [H | H]; [tauto | right; exact (IH n H)].
Qed.

Lemma firstn_sorted (n : nat) (l : list fused) :
  StronglySorted before l -> StronglySorted before (firstn n l).
Proof.
  revert n. induction l as [| x l IH]; intros [| n] Hs; simpl; try constructor.
  - inversion Hs; subst. apply IH. assumption.
  - inversion Hs as [| ? ? _ Hx]; subst. apply Forall_forall. intros y Hy.
    apply (proj1 (Forall_forall _ _) Hx). apply (firstn_In _ _ _ Hy).
Qed.

(** The head of the sorted list has the greatest score. *)
Lemma sort_desc_head (l : list fused) (top : fused) (rest : list fused) :
  sort_desc l = top :: rest ->
  In top l /\ forall x, In x l -> hybrid_score x <= hybrid_score top.
Proof.
  intros H. pose proof (sort_desc_perm l) as Hp.
  pose proof (sort_desc_sorted l) as Hs. rewrite H in Hp, Hs. split.
  - apply (Permutation_in _ Hp). left. reflexivity.
  - intros x Hx. apply (Permutation_in _ (Permutation_sym Hp)) in Hx.
    destruct Hx as [<- | Hx]; [lra |].
    inversion Hs as [| ? ? _ Hall]; subst.
    exact (proj1 (Forall_forall _ _) Hall x Hx).
Qed.

Lemma apply_boost_range (b : Q) (merged : merged_dict) :
  Forall (fun f => 0 <= hybrid_score f <= 1) (map snd (apply_boost b merged)).
Proof.
  unfold apply_boost. rewrite map_map. apply Forall_forall. intros f Hf.
  apply in_map_iff in Hf. destruct Hf as (kv & <- & _). simpl. apply clamp_range.
Qed.

(** ** [fuse] always returns *)

Lemma normalize_scores_total (results : list result) :
  exists d, _normalize_scores results = Some d.
Proof.
  destruct results as [| r0 rs]; [exists []; reflexivity |].
  unfold _normalize_scores. cbn [map].
  destruct (Qeq_bool _ _ || Qeq_bool _ 0) eqn:E; [eexists; reflexivity |].
  apply orb_false_iff in E. destruct E as [E _]. qbool.
  match goal with
  | |- exists d, normalize_from ?mn ?mx _ ?l = _ =>
      destruct (normalize_from_lookup mn mx l ltac:(intros H; apply E; lra) 0%nat)
      as (d & Hd & _)
  end.
  exists d. exact Hd.
Qed.

Lemma fuse_Some (amounts : boosts) (query : str) (top_k : nat)
  (vector_results bm25_results : list result) :
  fuse amounts query top_k vector_results bm25_results
  = Some (firstn top_k
            (sort_desc (boosted_merge amounts query vector_results bm25_results))).
Proof.
  unfold fuse, boosted_merge, normalized_list.
  destruct (normalize_scores_total vector_results) as [dv ->].
  destruct (normalize_scores_total bm25_results) as [db ->].
  reflexivity.
Qed.

Lemma boosted_merge_range (amounts : boosts) (query : str)
  (vector_results bm25_results : list result) :
  Forall (fun f => 0 <= hybrid_score f <= 1)
         (boosted_merge amounts query vector_results bm25_results).
Proof. apply apply_boost_range. Qed.

(** Every entry of [merged] is filed under the text of its result. *)
Lemma add_score_texts (m : merged_dict) (k : str) (x : Q) :
  Forall (fun kv => text (base (snd kv)) = fst kv) m ->
  Forall (fun kv => text (base (snd kv)) = fst kv) (add_score m k x).
Proof.
  induction m as [| [k' e] m IH]; simpl; intros H; [constructor |].
  inversion H as [| ? ? He Hm]; subst.
  destruct (str_eqb k k'); constructor; auto.
Qed.

Lemma merge_texts (w : Q) (l : list result) :
  forall m, Forall (fun kv => text (base (snd kv)) = fst kv) m ->
            Forall (fun kv => text (base (snd kv)) = fst kv) (fold_left (merge_one w) l m).
Proof.
  induction l as [| r l IH]; intros m Hm; simpl; [exact Hm |].
  apply IH. unfold merge_one. destruct (has_key m (text r)); simpl.
  - apply add_score_texts, Hm.
  - apply Forall_app. split; [exact Hm | repeat constructor].
Qed.

Lemma boosted_merge_texts (amounts : boosts) (query : str)
  (vector_results bm25_results : list result) :
  NoDup (map (fun f => text (base f))
             (boosted_merge amounts query vector_results bm25_results)).
Proof.
  unfold boosted_merge, apply_boost. rewrite !map_map. simpl.
  set (vs := boost_results amounts _ (normalized_list vector_results)).
  set (bs := boost_results amounts _ (normalized_list bm25_results)).
  destruct (merge_results_inv vs bs) as (Hnd & _ & _).
  assert (Ht : Forall (fun kv => text (base (snd kv)) = fst kv) (merge_results vs bs)).
  { unfold merge_results. apply merge_texts, merge_texts. constructor. }
  rewrite (map_ext_in _ fst); [exact Hnd |].
  intros kv Hkv. exact (proj1 (Forall_forall _ _) Ht kv Hkv).
Qed.

Lemma NoDup_firstn {A : Type} (n : nat) (l : list A) : NoDup l -> NoDup (firstn n l).
Proof.
  intros H. rewrite <- (firstn_skipn n l) in H. exact (NoDup_app_remove_r _ _ H).
Qed.

(** The list [fuse] returns holds no text twice. *)
Lemma fuse_distinct_texts (amounts : boosts) (query : str) (top_k : nat)
  (vector_results bm25_results : list result) (results : list fused) :
  fuse amounts query top_k vector_results bm25_results = Some results ->
  NoDup (map (fun f => text (base f)) results).
Proof.
  rewrite fuse_Some. intros [= <-]. rewrite <- firstn_map. apply NoDup_firstn.
  eapply Permutation_NoDup; [| apply boosted_merge_texts].
  apply Permutation_map, Permutation_sym, sort_desc_perm.
Qed.

(** C5, amended: [merged] holds exactly one entry for each text met in
    either list, keyed by the text; before the keyword boost its score is
    0.6 times the sum of the normalised scores of the dense results with
    that text plus 0.4 times the same sum over the lexical results.  For a
    text met once in each list this is [0.6 * dense + 0.4 * lexical]; a
    text absent from one list gets only the other list's term.  The list
    returned after the boost, the sort and the cut holds no text twice. *)
Theorem merge_sums_by_text (vector_results bm25_results : list result) (t : str) :
  let merged := merge_results vector_results bm25_results in
  NoDup (map fst merged)
  /\ (In t (map fst merged)
      <-> In t (map text vector_results) \/ In t (map text bm25_results))
  /\ (forall e e', In (t, e) merged -> In (t, e') merged -> e = e')
  /\ (forall e,
         In (t, e) merged ->
         hybrid_score e == 0.6 * nsum t vector_results + 0.4 * nsum t bm25_results
         /\ (forall d l,
                filter (fun r => str_eqb (text r) t) vector_results = [d] ->
                filter (fun r => str_eqb (text r) t) bm25_results = [l] ->
                hybrid_score e == 0.6 * get_normalized d + 0.4 * get_normalized l)
         /\ (~ In t (map text bm25_results) ->
             hybrid_score e == 0.6 * nsum t vector_results)
         /\ (~ In t (map text vector_results) ->
             hybrid_score e == 0.4 * nsum t bm25_results))
  /\ (forall amounts query top_k results,
         fuse amounts query top_k vector_results bm25_results = Some results ->
         NoDup (map (fun f => text (base f)) results)).
Proof.
  intros merged.
  destruct (merge_results_inv vector_results bm25_results) as (Hnd & Hkeys & Hsum).
  fold merged in Hnd, Hkeys, Hsum.
  split; [exact Hnd |]. split.
  { rewrite Hkeys, map_app, in_app_iff, !map_map. simpl. tauto. }
  split; [intros e e'; apply merged_entry_unique; exact Hnd |].
  split; [| intros amounts query top_k results; apply fuse_distinct_texts].
  intros e He.
  assert (Hs : hybrid_score e == 0.6 * nsum t vector_results + 0.4 * nsum t bm25_results).
  { rewrite (Hsum t e He), wsum_app, !wsum_weight. lra. }
  split; [exact Hs |]. split; [| split].
  - intros d l Hd Hl. rewrite Hs, (nsum_single _ _ _ Hd), (nsum_single _ _ _ Hl). lra.
  - intros Hno. rewrite Hs, (nsum_absent _ _ Hno). lra.
  - intros Hno. rewrite Hs, (nsum_absent _ _ Hno). lra.
Qed.

Lemma conditional_append_length {A B : Type} (keep : A -> bool) (make : A -> B)
  (l : list A) :
  forall acc,
    (List.length
       (fold_left (fun out x => if keep x then out ++ [make x] else out) l acc)
     <= List.length acc + List.length l)%nat.
Proof.
  induction l as [| x l IH]; intros acc; simpl; [lia |].
  destruct (keep x).
  - specialize (IH (acc ++ [make x])). rewrite length_app in IH. simpl in IH. lia.
  - specialize (IH acc). lia.
Qed.

Section Retrieval.
Variable collection_query : str -> nat -> query_result.
Variable documents : list str.
Variable metadatas : list metadata.
Variable bm25_score : list str -> nat -> Q.

Lemma bm25_search_length (query : str) (top_k : nat) :
  (List.length (bm25_search documents metadatas bm25_score query (Some top_k)) <= top_k)%nat.
Proof.
  unfold bm25_search.
  match goal with
  | |- (List.length (fold_left _ ?l []) <= _)%nat =>
      pose proof (conditional_append_length
                    (fun idx =>
                       negb (Qle_bool
                               (nth idx (get_scores documents bm25_score
                                           (split (lower query))) 0) 0))
                    (fun idx =>
                       mk_result (nth idx documents []) (nth idx metadatas [])
                                 (nth idx (get_scores documents bm25_score
                                             (split (lower query))) 0) bm25 None)
                    l []) as H
  end.
  simpl in H. rewrite length_firstn in H. lia.
Qed.

Lemma retrieve_default (query : str) :
  retrieve collection_query documents metadatas bm25_score query None
  = retrieve collection_query documents metadatas bm25_score query (Some 8%nat).
Proof. reflexivity. Qed.

End Retrieval.

(** ** [retrieve] for any [int] *)

Lemma take_count {A : Type} (k : nat) (l : list A) :
  PyMore.take (Z.of_nat k) l = firstn k l.
Proof.
  unfold PyMore.take, clip.
  destruct (Z.of_nat k <? 0)%Z eqn:E; [apply Z.ltb_lt in E; lia |].
  destruct (Nat.le_gt_cases k (List.length l)) as [Hle | Hgt].
  - f_equal. lia.
  - rewrite (firstn_all2 (n := k)) by lia.
    apply firstn_all2. lia.
Qed.

Section OnCount.
Variable collection_query : str -> Z -> query_result.
Variable documents : list str.
Variable metadatas : list metadata.
Variable bm25_score : list str -> nat -> Q.

(** The store as the methods on counts see it. *)
Let store_on_count (query : str) (n : nat) : query_result :=
  collection_query query (Z.of_nat n).

Lemma vector_search_on_count (query : str) (k : nat) :
  RetrieverInt.vector_search collection_query query (Some (Z.of_nat k))
  = vector_search store_on_count query (Some k).
Proof. reflexivity. Qed.

Lemma bm25_search_on_count (query : str) (k : nat) :
  RetrieverInt.bm25_search documents metadatas bm25_score query (Some (Z.of_nat k))
  = bm25_search documents metadatas bm25_score query (Some k).
Proof.
  unfold RetrieverInt.bm25_search, bm25_search. now rewrite take_count.
Qed.

Lemma fuse_on_count (amounts : boosts) (query : str) (k : nat)
  (vector_results bm25_results : list result) :
  RetrieverInt.fuse amounts query (Z.of_nat k) vector_results bm25_results
  = fuse amounts query k vector_results bm25_results.
Proof.
  unfold RetrieverInt.fuse, fuse.
  destruct (_normalize_scores vector_results); [| reflexivity].
  destruct (_normalize_scores bm25_results); [| reflexivity].
  now rewrite take_count.
Qed.

(** On a count the methods for any [int] are the methods on counts. *)
Lemma retrieve_on_count (amounts : boosts) (query : str) (k : nat) :
  RetrieverInt.retrieve_with collection_query documents metadatas bm25_score
                             amounts query (Some (Z.of_nat k))
  = retrieve_with store_on_count documents metadatas bm25_score
                  amounts query (Some k).
Proof.
  unfold RetrieverInt.retrieve_with, RetrieverInt.hybrid_search_with,
    retrieve_with, hybrid_search_with.
  replace (Z.of_nat k * 2)%Z with (Z.of_nat (k * 2)) by lia.
  now rewrite vector_search_on_count, bm25_search_on_count, fuse_on_count.
Qed.

End OnCount.

Example minus_one_returns_two :
  option_map (fun out => List.length (fst out))
             (RetrieverInt.retrieve RetrieverInt.three_hits [] [] (fun _ _ => 0%Q)
                                    (lit "office hours") (Some (-1)%Z))
  = Some 2%nat.
Proof. reflexivity. Qed.

(** C8, as stated, fails: [k] is an [int] that [retrieve] passes on
    unchecked, and for [k = -1] the slice [final_results[:-1]] drops the
    last of three fused results and returns two. *)
Lemma at_most_k_results_fails : ~ RetrieverInt.at_most_k_results.
Proof.
  intros H.
  destruct (RetrieverInt.retrieve RetrieverInt.three_hits [] [] (fun _ _ => 0%Q)
                                  (lit "office hours") (Some (-1)%Z))
    as [[results confidence] |] eqn:E.
  - pose proof (H _ _ _ _ _ _ _ _ E) as Hle.
    pose proof minus_one_returns_two as Hn. rewrite E in Hn. simpl in Hn.
    injection Hn as Hn. rewrite Hn in Hle. lia.
  - pose proof minus_one_returns_two as Hn. rewrite E in Hn. discriminate.
Qed.

(** C8, amended: for every query and every [k >= 0], [retrieve(query, k)]
    asks the dense store for [2k] results and the lexical search for its
    [2k] best, and returns the first [k] entries of their fused list
    sorted by non-increasing hybrid score: at most [k] results, best
    first, every score in [[0, 1]]; the confidence is the clamped score of
    the first result, or 0 when there is none.  Of the store it uses the
    answer to the request for [2k] results only. *)
Theorem retrieve_contract
  (collection_query : str -> Z -> query_result)
  (documents : list str) (metadatas : list metadata)
  (bm25_score : list str -> nat -> Q) (query : str) (k : Z) :
  (0 <= k)%Z ->
  let dense := RetrieverInt.vector_search collection_query query (Some (k * 2)%Z) in
  let lexical :=
    RetrieverInt.bm25_search documents metadatas bm25_score query (Some (k * 2)%Z) in
  exists results confidence,
    RetrieverInt.retrieve collection_query documents metadatas bm25_score query (Some k)
    = Some (results, confidence)
    /\ results
       = firstn (Z.to_nat k)
                (sort_desc (boosted_merge source_boosts query dense lexical))
    /\ List.length dense = List.length (ids (collection_query query (k * 2)%Z))
    /\ (Z.of_nat (List.length lexical) <= k * 2)%Z
    /\ (forall other_store,
           other_store query (k * 2)%Z = collection_query query (k * 2)%Z ->
           RetrieverInt.retrieve other_store documents metadatas bm25_score
                                 query (Some k)
           = Some (results, confidence))
    /\ (Z.of_nat (List.length results) <= k)%Z
    /\ StronglySorted before results
    /\ Forall (fun f => 0 <= hybrid_score f <= 1) results
    /\ match results with
       | top :: _ => confidence = clamp (hybrid_score top)
                     /\ confidence == hybrid_score top
       | [] => confidence = 0
       end.
Proof.
  intros Hk dense lexical.
  assert (Hshape : forall store,
             store query (k * 2)%Z = collection_query query (k * 2)%Z ->
             RetrieverInt.retrieve store documents metadatas bm25_score query (Some k)
             = Some (firstn (Z.to_nat k)
                            (sort_desc (boosted_merge source_boosts query dense lexical)),
                     confidence_of
                       (firstn (Z.to_nat k)
                               (sort_desc (boosted_merge source_boosts query dense
                                                         lexical))))).
  { intros store Hsame. unfold RetrieverInt.retrieve.
    rewrite <- (Z2Nat.id k Hk) at 1. rewrite retrieve_on_count.
    unfold retrieve_with, hybrid_search_with. rewrite fuse_Some.
    assert (Ed : vector_search (fun q n => store q (Z.of_nat n)) query
                               (Some (Z.to_nat k * 2)%nat) = dense).
    { unfold dense, vector_search, RetrieverInt.vector_search.
      replace (Z.of_nat (Z.to_nat k * 2)) with (k * 2)%Z by lia.
      rewrite Hsame. reflexivity. }
    assert (El : bm25_search documents metadatas bm25_score query
                             (Some (Z.to_nat k * 2)%nat) = lexical).
    { unfold lexical. rewrite <- bm25_search_on_count. f_equal. f_equal. lia. }
    rewrite Ed, El. reflexivity. }
  do 2 eexists. split; [exact (Hshape collection_query eq_refl) |].
  split; [reflexivity |].
  split; [unfold dense, RetrieverInt.vector_search; now rewrite length_map, length_seq |].
  split.
  { unfold lexical. replace (k * 2)%Z with (Z.of_nat (Z.to_nat k * 2)) by lia.
    rewrite bm25_search_on_count.
    pose proof (bm25_search_length documents metadatas bm25_score query
                                   (Z.to_nat k * 2)). lia. }
  split; [exact Hshape |].
  pose proof (boosted_merge_range source_boosts query dense lexical) as Hrange0.
  set (merged := boosted_merge source_boosts query dense lexical) in *.
  assert (Hrange : Forall (fun f => 0 <= hybrid_score f <= 1)
                          (firstn (Z.to_nat k) (sort_desc merged))).
  { apply Forall_forall. intros f Hf. apply firstn_In in Hf.
    apply (Permutation_in _ (sort_desc_perm merged)) in Hf.
    exact (proj1 (Forall_forall _ _) Hrange0 f Hf). }
  split; [pose proof (firstn_le_length (Z.to_nat k) (sort_desc merged)); lia |].
  split; [apply firstn_sorted, sort_desc_sorted |].
  split; [exact Hrange |].
  destruct (firstn (Z.to_nat k) (sort_desc merged)) as [| top rest]; simpl;
    [reflexivity |].
  split; [reflexivity |]. apply clamp_fixed.
  inversion Hrange; subst. assumption.
Qed.

Lemma retrieve_contract_witness :
  (0 <= 2)%Z
  /\ exists results confidence,
       RetrieverInt.retrieve RetrieverInt.three_hits [] [] (fun _ _ => 0%Q)
                             (lit "office hours") (Some 2%Z)
       = Some (results, confidence)
       /\ results
          = firstn (Z.to_nat 2)
                   (sort_desc
                      (boosted_merge source_boosts (lit "office hours")
                         (RetrieverInt.vector_search RetrieverInt.three_hits
                            (lit "office hours") (Some (2 * 2)%Z))
                         (RetrieverInt.bm25_search [] [] (fun _ _ => 0%Q)
                            (lit "office hours") (Some (2 * 2)%Z))))
       /\ List.length (RetrieverInt.vector_search RetrieverInt.three_hits
                         (lit "office hours") (Some (2 * 2)%Z))
          = List.length (ids (RetrieverInt.three_hits (lit "office hours") (2 * 2)%Z))
       /\ (Z.of_nat (List.length (RetrieverInt.bm25_search [] [] (fun _ _ => 0%Q)
                                    (lit "office hours") (Some (2 * 2)%Z)))
           <= 2 * 2)%Z
       /\ (forall other_store,
              other_store (lit "office hours") (2 * 2)%Z
              = RetrieverInt.three_hits (lit "office hours") (2 * 2)%Z ->
              RetrieverInt.retrieve other_store [] [] (fun _ _ => 0%Q)
                                    (lit "office hours") (Some 2%Z)
              = Some (results, confidence))
       /\ (Z.of_nat (List.length results) <= 2)%Z
       /\ StronglySorted before results
       /\ Forall (fun f => 0 <= hybrid_score f <= 1) results
       /\ match results with
          | top :: _ => confidence = clamp (hybrid_score top)
                        /\ confidence == hybrid_score top
          | [] => confidence = 0
          end.
Proof.
  assert (H : (0 <= 2)%Z) by lia.
  exact (conj H (retrieve_contract RetrieverInt.three_hits [] [] (fun _ _ => 0%Q)
                                   (lit "office hours") 2%Z H)).
Defined.

(** ** The keyword boost, in the words of the specification *)

Example materials_example :
  classify materials_query_text = materials_query
  /\ map (fun r => (has_indicator r, Qred (get_normalized r)))
         (normalized_list materials_hits)
     = [(true, 1); (false, 0)]
  /\ map (fun r => Qred (get_normalized r)) (entering materials_query_text materials_hits)
     = [1; 0].
Proof. repeat split. Qed.

(** C7, as stated, fails: the best result of a list has normalised score
    1, and [min(1.0, ...)] keeps it there. *)
Lemma uncapped_indicator_boost_fails : ~ uncapped_indicator_boost.
Proof.
  intros H.
  specialize (H materials_query_text materials_hits 0%nat _ _ eq_refl eq_refl).
  vm_compute in H. discriminate.
Qed.

Lemma boost_results_entering (query : str) (results : list result) :
  Forall2 (fun r' r =>
             text r' = text r /\ meta r' = meta r /\ score r' = score r
             /\ type r' = type r
             /\ get_normalized r' = entering_score (classify query) r)
          (boost_results source_boosts (lower (strip query)) results) results.
Proof.
  unfold boost_results, classify, is_locator, is_materials, locator_prefixes,
    materials_keywords.
  destruct (existsb (startswith (lower (strip query))) _).
  - induction results; constructor; [repeat split | assumption].
  - destruct (existsb (contains (lower (strip query))) _).
    + induction results as [| r results IH]; simpl; constructor; [| exact IH].
      unfold boost_result, entering_score, has_indicator.
      destruct (existsb (contains (lower (text r))) indicator_terms);
        repeat split.
    + induction results; constructor; [repeat split | assumption].
Qed.

(** C7, amended: the query is a locator query, else a materials query,
    else neither; every fused score is the merged score plus the flat
    amount of the family (0.15, 0.20 or 0), clamped; and for a materials
    query each dense or lexical result whose lowercased text holds an
    indicator term enters the 0.6/0.4 combination with
    [min(1, normalized + 0.25)], every other result with its normalised
    score. *)
Theorem keyword_boost_policy (query : str) (top_k : nat)
  (vector_results bm25_results : list result) :
  let f := classify query in
  let vs := entering query vector_results in
  let bs := entering query bm25_results in
  keyword_boost source_boosts (lower (strip query)) = flat_boost f
  /\ Forall2 (fun r' r => text r' = text r
                          /\ get_normalized r' = entering_score f r)
             vs (normalized_list vector_results)
  /\ Forall2 (fun r' r => text r' = text r
                          /\ get_normalized r' = entering_score f r)
             bs (normalized_list bm25_results)
  /\ fuse source_boosts query top_k vector_results bm25_results
     = Some (firstn top_k
               (sort_desc
                  (map (fun kv =>
                          mk_fused (base (snd kv))
                                   (clamp (hybrid_score (snd kv) + flat_boost f)))
                       (merge_results vs bs)))).
Proof.
  intros f vs bs.
  assert (Hflat : keyword_boost source_boosts (lower (strip query)) = flat_boost f).
  { unfold f, keyword_boost, classify, is_locator, is_materials, locator_prefixes,
      materials_keywords.
    destruct (existsb (startswith (lower (strip query))) _); [reflexivity |].
    destruct (existsb (contains (lower (strip query))) _); reflexivity. }
  split; [exact Hflat |].
  split; [eapply Forall2_impl; [| apply boost_results_entering]; simpl; tauto |].
  split; [eapply Forall2_impl; [| apply boost_results_entering]; simpl; tauto |].
  rewrite fuse_Some. unfold boosted_merge, apply_boost.
  rewrite Hflat, map_map. reflexivity.
Qed.

(** The two fusion scenarios of the specification. *)
Example fusion_scenario :
  option_map (map (fun f => Qred (hybrid_score f)))
    (fuse source_boosts (lit "syllabus") 8
       [raw vector "a" 0.9; raw vector "b" 0.5; raw vector "c" 0.1]
       [raw bm25 "a" 5; raw bm25 "b" 5; raw bm25 "c" 5])
  = Some [4 # 5; 1 # 2; 1 # 5].
Proof. reflexivity. Qed.

Example locator_scenario :
  option_map (map (fun f => Qred (hybrid_score f)))
    (fuse source_boosts (lit "where is the syllabus") 8
       [raw vector "a" 0.9; raw vector "b" 0.5; raw vector "c" 0.1]
       [raw bm25 "a" 5; raw bm25 "b" 5; raw bm25 "c" 5])
  = Some [19 # 20; 13 # 20; 7 # 20].
Proof. reflexivity. Qed.

(** ** Boosts only add *)

Lemma le_results_refl (l : list result) : le_results l l.
Proof. induction l; constructor; [split; [reflexivity | lra] | assumption]. Qed.

Lemma boost_results_mono (a0 a1 : boosts) (query_lower : str) (l : list result) :
  le_boosts a0 a1 ->
  le_results (boost_results a0 query_lower l) (boost_results a1 query_lower l).
Proof.
  intros (_ & _ & Hi). unfold boost_results.
  destruct (is_locator query_lower); [apply le_results_refl |].
  destruct (is_materials query_lower); [| apply le_results_refl].
  induction l as [| r l IH]; simpl; constructor; [| exact IH].
  unfold boost_result.
  destruct (existsb (contains (lower (text r))) indicator_terms); simpl.
  - split; [reflexivity |]. unfold get_normalized at 1 3. simpl. minmax; lra.
  - split; [reflexivity | lra].
Qed.

Lemma keyword_boost_mono (a0 a1 : boosts) (query_lower : str) :
  le_boosts a0 a1 -> keyword_boost a0 query_lower <= keyword_boost a1 query_lower.
Proof.
  intros (Hl & Hm & _). unfold keyword_boost.
  destruct (is_locator query_lower); [exact Hl |].
  destruct (is_materials query_lower); [exact Hm | lra].
Qed.

Lemma has_key_le (m0 m1 : merged_dict) (k : str) :
  le_merged m0 m1 -> has_key m0 k = has_key m1 k.
Proof.
  intros H. induction H as [| [k0 e0] [k1 e1] m0 m1 [Hk _] _ IH]; simpl; [reflexivity |].
  simpl in Hk. subst k1. rewrite IH. reflexivity.
Qed.

Lemma add_score_le (m0 m1 : merged_dict) (k : str) (x0 x1 : Q) :
  le_merged m0 m1 -> x0 <= x1 -> le_merged (add_score m0 k x0) (add_score m1 k x1).
Proof.
  intros H Hx. induction H as [| [k0 e0] [k1 e1] m0 m1 [Hk He] Hm IH]; simpl;
    [constructor |].
  simpl in Hk, He. subst k1. destruct (str_eqb k k0).
  - constructor; [split; simpl; [reflexivity | lra] | exact Hm].
  - constructor; [split; simpl; [reflexivity | lra] | exact IH].
Qed.

Lemma merge_one_le (w : Q) (m0 m1 : merged_dict) (r0 r1 : result) :
  0 <= w -> le_merged m0 m1 ->
  text r0 = text r1 -> get_normalized r0 <= get_normalized r1 ->
  le_merged (merge_one w m0 r0) (merge_one w m1 r1).
Proof.
  intros Hw Hm Ht Hn. unfold merge_one. rewrite <- Ht, (has_key_le m0 m1 _ Hm).
  assert (Hx : get_normalized r0 * w <= get_normalized r1 * w) by nra.
  destruct (has_key m1 (text r0)); simpl.
  - apply add_score_le; assumption.
  - apply Forall2_app; [exact Hm |]. constructor; [| constructor].
    split; simpl; [reflexivity | exact Hx].
Qed.

Lemma fold_merge_le (w : Q) (l0 l1 : list result) :
  0 <= w -> le_results l0 l1 ->
  forall m0 m1, le_merged m0 m1 ->
                le_merged (fold_left (merge_one w) l0 m0) (fold_left (merge_one w) l1 m1).
Proof.
  intros Hw H. induction H as [| r0 r1 l0 l1 [Ht Hn] _ IH]; intros m0 m1 Hm; simpl;
    [exact Hm |].
  apply IH, merge_one_le; assumption.
Qed.

Lemma boosted_merge_mono (a0 a1 : boosts) (query : str)
  (vector_results bm25_results : list result) :
  le_boosts a0 a1 ->
  le_fused (boosted_merge a0 query vector_results bm25_results)
           (boosted_merge a1 query vector_results bm25_results).
Proof.
  intros Ha. unfold boosted_merge, merge_results, apply_boost.
  pose proof (keyword_boost_mono a0 a1 (lower (strip query)) Ha) as Hk.
  assert (Hm : le_merged
                 (fold_left (merge_one 0.4)
                    (boost_results a0 (lower (strip query)) (normalized_list bm25_results))
                    (fold_left (merge_one 0.6)
                       (boost_results a0 (lower (strip query))
                          (normalized_list vector_results)) []))
                 (fold_left (merge_one 0.4)
                    (boost_results a1 (lower (strip query)) (normalized_list bm25_results))
                    (fold_left (merge_one 0.6)
                       (boost_results a1 (lower (strip query))
                          (normalized_list vector_results)) []))).
  { apply fold_merge_le; [lra | apply boost_results_mono, Ha |].
    apply fold_merge_le; [lra | apply boost_results_mono, Ha | constructor]. }
  unfold le_fused. rewrite !map_map. simpl.
  induction Hm as [| kv0 kv1 m0 m1 [_ He] _ IH]; simpl; constructor; [| exact IH].
  apply clamp_mono. lra.
Qed.

Lemma le_fused_In (l0 l1 : list fused) (f0 : fused) :
  le_fused l0 l1 -> In f0 l0 ->
  exists f1, In f1 l1 /\ hybrid_score f0 <= hybrid_score f1.
Proof.
  intros H. induction H as [| x0 x1 l0 l1 Hx _ IH]; simpl; [tauto |].
  intros [<- | Hin].
  - exists x1. split; [left; reflexivity | exact Hx].
  - destruct (IH Hin) as (f1 & H1 & H2). exists f1. split; [right |]; assumption.
Qed.

Lemma confidence_mono (top_k : nat) (l0 l1 : list fused) :
  le_fused l0 l1 ->
  confidence_of (firstn top_k (sort_desc l0)) <= confidence_of (firstn top_k (sort_desc l1)).
Proof.
  intros H. destruct top_k as [| k]; simpl; [lra |].
  destruct (sort_desc l0) as [| t0 s0] eqn:E0.
  - simpl. destruct (sort_desc l1) as [| t1 s1]; simpl; [lra |].
    fold (clamp (hybrid_score t1)). apply clamp_range.
  - destruct (sort_desc_head _ _ _ E0) as [Hin0 _].
    destruct (le_fused_In _ _ _ H Hin0) as (f1 & Hin1 & Hle).
    destruct (sort_desc l1) as [| t1 s1] eqn:E1.
    + pose proof (sort_desc_perm l1) as Hp. rewrite E1 in Hp.
      apply Permutation_nil in Hp. subst l1. destruct Hin1.
    + destruct (sort_desc_head _ _ _ E1) as [_ Htop]. simpl.
      fold (clamp (hybrid_score t0)). fold (clamp (hybrid_score t1)).
      apply clamp_mono. specialize (Htop f1 Hin1). lra.
Qed.

Lemma source_boosts_add : le_boosts no_boosts source_boosts.
Proof. unfold le_boosts, no_boosts, source_boosts; simpl. repeat split; lra. Qed.

Section Monotone.
Variable collection_query : str -> nat -> query_result.
Variable documents : list str.
Variable metadatas : list metadata.
Variable bm25_score : list str -> nat -> Q.

(** C9: for the same query and the same dense and lexical results, the
    confidence [retrieve] computes is at least the confidence of the same
    computation with every boost amount set to zero. *)
Theorem boosts_never_lower_confidence (query : str) (top_k : option nat) :
  exists plain plain_confidence results confidence,
    retrieve_with collection_query documents metadatas bm25_score
                  no_boosts query top_k
    = Some (plain, plain_confidence)
    /\ retrieve collection_query documents metadatas bm25_score query top_k
       = Some (results, confidence)
    /\ plain_confidence <= confidence.
Proof.
  unfold retrieve, retrieve_with, hybrid_search_with.
  rewrite !fuse_Some. do 4 eexists.
  split; [reflexivity |]. split; [reflexivity |].
  apply confidence_mono, boosted_merge_mono, source_boosts_add.
Qed.

End Monotone.

(** ** [bm25_search] *)

Lemma conditional_append_Forall {A B : Type} (keep : A -> bool) (make : A -> B)
  (P : B -> Prop) (l : list A) :
  (forall x, keep x = true -> P (make x)) ->
  forall acc, Forall P acc ->
              Forall P (fold_left (fun out x => if keep x then out ++ [make x] else out) l acc).
Proof.
  intros Hmake. induction l as [| x l IH]; intros acc Hacc; simpl; [exact Hacc |].
  apply IH. destruct (keep x) eqn:E; [| exact Hacc].
  apply Forall_app. split; [exact Hacc | constructor; [exact (Hmake x E) | constructor]].
Qed.

Lemma conditional_append_none {A B : Type} (keep : A -> bool) (make : A -> B)
  (l : list A) :
  (forall x, keep x = false) ->
  forall acc, fold_left (fun out x => if keep x then out ++ [make x] else out) l acc = acc.
Proof.
  intros Hkeep. induction l as [| x l IH]; intros acc; simpl; [reflexivity |].
  rewrite Hkeep. apply IH.
Qed.

Lemma get_scores_nth (documents : list str) (bm25_score : list str -> nat -> Q)
  (tokens : list str) (idx : nat) :
  nth idx (get_scores documents bm25_score tokens) 0
  = if (idx <? List.length documents)%nat then bm25_score tokens idx else 0.
Proof.
  unfold get_scores. destruct (idx <? List.length documents)%nat eqn:E.
  - apply Nat.ltb_lt in E.
    rewrite (nth_indep _ 0 (bm25_score tokens 0%nat))
      by (rewrite length_map, length_seq; exact E).
    rewrite map_nth, seq_nth by exact E. reflexivity.
  - apply Nat.ltb_ge in E. apply nth_overflow. rewrite length_map, length_seq. exact E.
Qed.

Example first_only_search :
  map text (bm25_search three_documents [[]; []; []] first_only (lit "Alpha") (Some 2%nat))
  = [lit "alpha"].
Proof. reflexivity. Qed.

(** C10: every result of [bm25_search] has a score above 0; when no
    document scores above 0 for the query the list is empty; the list has
    at most [top_k] entries, and it can have fewer although the corpus
    holds [top_k] documents or more. *)
Theorem lexical_zero_score_filter
  (documents : list str) (metadatas : list metadata)
  (bm25_score : list str -> nat -> Q) (query : str) (top_k : nat) :
  Forall (fun r => 0 < score r)
         (bm25_search documents metadatas bm25_score query (Some top_k))
  /\ ((forall idx, (idx < List.length documents)%nat ->
                   bm25_score (split (lower query)) idx <= 0) ->
      bm25_search documents metadatas bm25_score query (Some top_k) = [])
  /\ (List.length (bm25_search documents metadatas bm25_score query (Some top_k))
      <= top_k)%nat
  /\ (exists docs metas scores q k,
         (k <= List.length docs)%nat
         /\ (List.length (bm25_search docs metas scores q (Some k)) < k)%nat).
Proof.
  split; [| split; [| split; [apply bm25_search_length |]]].
  - unfold bm25_search.
    apply (conditional_append_Forall
             (fun idx => negb (Qle_bool (nth idx (get_scores documents bm25_score
                                                   (split (lower query))) 0) 0))
             (fun idx => mk_result (nth idx documents []) (nth idx metadatas [])
                                   (nth idx (get_scores documents bm25_score
                                               (split (lower query))) 0) bm25 None));
      [| constructor].
    intros idx H. simpl. apply negb_true_iff in H. qbool. exact H.
  - intros Hzero. unfold bm25_search.
    apply (conditional_append_none
             (fun idx => negb (Qle_bool (nth idx (get_scores documents bm25_score
                                                   (split (lower query))) 0) 0))).
    intros idx. apply negb_false_iff, Qle_bool_iff. rewrite get_scores_nth.
    destruct (idx <? List.length documents)%nat eqn:E; [| lra].
    apply Hzero, Nat.ltb_lt, E.
  - exists three_documents, [[]; []; []], first_only, (lit "Alpha"), 2%nat.
    rewrite <- (length_map text), first_only_search. simpl. lia.
Qed.

(* ================================================================== *)
(** * Part III: further properties *)
(* ================================================================== *)

(** ** More on the chunking loop *)

Import ChunkMore.
Local Open Scope Z_scope.

Section ChunkLoopMore.
Variable text : str.
Variables chunk_size overlap : Z.

Lemma candidate_end_after (start : Z) :
  0 < chunk_size -> start < candidate_end text chunk_size start.
Proof.
  intros Hc. unfold candidate_end.
  destruct (is_in_protected_region_cases text start)
    as [(ty & s & e & _ & -> & Hb) | [_ ->]]; [lia |].
  pose proof (ordinary_end_lower text chunk_size start ltac:(lia)). lia.
Qed.

Lemma next_cursor_after (start : Z) :
  overlap < chunk_size -> start < next_cursor text chunk_size overlap start.
Proof.
  intros Hc. unfold next_cursor.
  destruct (is_in_protected_region_cases text start)
    as [(ty & s & e & _ & -> & Hb) | [_ ->]]; lia.
Qed.

(** A property of the cursor that every pass keeps holds at the start of
    every chunk. *)
Lemma chunk_loop_cursor (P : Z -> Prop) :
  (forall s, P s -> s < len text -> P (next_cursor text chunk_size overlap s)) ->
  forall fuel start chunks out,
    chunk_loop text chunk_size overlap fuel start chunks = Some out ->
    P start ->
    forall c, In c out -> In c chunks \/ (emitted text chunk_size c /\ P (chunk_start c)).
Proof.
  intros Hnext. induction fuel as [| fuel IH]; simpl; intros start chunks out;
    [discriminate |].
  destruct (start <? len text) eqn:Hlt; [| intros [= <-]; tauto].
  apply Z.ltb_lt in Hlt. intros H HP.
  assert (Hstep : forall c,
             In c (append_nonblank text chunks start (candidate_end text chunk_size start)) ->
             In c chunks \/ (emitted text chunk_size c /\ P (chunk_start c))).
  { intros c Hc. apply append_nonblank_In in Hc.
    destruct Hc as [Hc | [-> Ht]]; [tauto |]. right.
    unfold emitted, chunk_start, chunk_end, chunk_str; simpl.
    repeat split; assumption. }
  specialize (Hnext start HP Hlt).
  unfold candidate_end in Hstep. unfold next_cursor in Hnext.
  destruct (is_in_protected_region text start) as [[[|] oty] region_end] eqn:Hp.
  - intros c Hc. destruct (IH _ _ _ H Hnext c Hc) as [Hc' | Hc']; [| tauto].
    exact (Hstep _ Hc').
  - destruct (start + (chunk_size - overlap) >=? len text).
    + injection H as <-. exact Hstep.
    + intros c Hc. destruct (IH _ _ _ H Hnext c Hc) as [Hc' | Hc']; [| tauto].
      exact (Hstep _ Hc').
Qed.

Lemma append_nonblank_here (chunks : list chunk_tuple) (s e : Z) :
  truthy (strip (slice text s e)) = true ->
  In (slice text s e, s, e) (append_nonblank text chunks s e).
Proof.
  intros Ht. unfold append_nonblank. rewrite Ht. apply in_or_app. simpl. tauto.
Qed.

(** Every cursor the run visits leaves its chunk in the result, unless the
    chunk is blank. *)
Lemma chunk_loop_visits (fuel : nat) :
  forall start chunks out,
    chunk_loop text chunk_size overlap fuel start chunks = Some out ->
    (forall c, In c chunks -> In c out)
    /\ forall s,
        visits text chunk_size overlap start s ->
        truthy (strip (slice text s (candidate_end text chunk_size s))) = true ->
        In (slice text s (candidate_end text chunk_size s), s,
            candidate_end text chunk_size s) out.
Proof.
  induction fuel as [| fuel IH]; simpl; intros start chunks out; [discriminate |].
  destruct (start <? len text) eqn:Hlt.
  2:{ intros [= <-]. split; [tauto |]. apply Z.ltb_ge in Hlt.
      intros s Hv. inversion Hv; subst; lia. }
  intros H.
  assert (Hcases : forall s,
             visits text chunk_size overlap start s ->
             s = start \/ visits text chunk_size overlap
                            (next_cursor text chunk_size overlap start) s).
  { intros s Hv. inversion Hv; subst; tauto. }
  unfold next_cursor in Hcases.
  destruct (is_in_protected_region text start) as [[[|] oty] region_end] eqn:Hp.
  - destruct (IH _ _ _ H) as [Hincl Hvis]. split.
    + intros c Hc. apply Hincl, append_nonblank_incl, Hc.
    + intros s Hv Ht. destruct (Hcases s Hv) as [-> | Hv'].
      * apply Hincl. unfold candidate_end in Ht |- *. rewrite Hp in Ht |- *.
        apply append_nonblank_here, Ht.
      * exact (Hvis s Hv' Ht).
  - destruct (start + (chunk_size - overlap) >=? len text) eqn:Hge.
    + injection H as <-. split; [intros c Hc; apply append_nonblank_incl, Hc |].
      intros s Hv Ht. destruct (Hcases s Hv) as [-> | Hv'].
      * unfold candidate_end in Ht |- *. rewrite Hp in Ht |- *. apply append_nonblank_here, Ht.
      * exfalso. rewrite Z.geb_leb in Hge. apply Z.leb_le in Hge.
        inversion Hv'; subst; lia.
    + destruct (IH _ _ _ H) as [Hincl Hvis]. split.
      * intros c Hc. apply Hincl, append_nonblank_incl, Hc.
      * intros s Hv Ht. destruct (Hcases s Hv) as [-> | Hv'].
        -- apply Hincl. unfold candidate_end in Ht |- *. rewrite Hp in Ht |- *.
           apply append_nonblank_here, Ht.
        -- exact (Hvis s Hv' Ht).
Qed.

Lemma sorted_snoc (l : list chunk_tuple) (c : chunk_tuple) :
  StronglySorted starts_before l ->
  (forall x, In x l -> starts_before x c) ->
  StronglySorted starts_before (l ++ [c]).
Proof.
  induction l as [| y l IH]; simpl; intros Hs Hc; [repeat constructor |].
  inversion Hs as [| ? ? Hl Hy]; subst. constructor.
  - apply IH; [exact Hl | intros x Hx; apply Hc; right; exact Hx].
  - apply Forall_app. split; [exact Hy |]. constructor; [| constructor].
    apply Hc. left. reflexivity.
Qed.

(** The chunks come out in the order of their starts. *)
Lemma chunk_loop_sorted (fuel : nat) :
  overlap < chunk_size ->
  forall start chunks out,
    chunk_loop text chunk_size overlap fuel start chunks = Some out ->
    StronglySorted starts_before chunks ->
    (forall c, In c chunks -> chunk_start c < start) ->
    StronglySorted starts_before out.
Proof.
  intros Hov. induction fuel as [| fuel IH]; simpl; intros start chunks out;
    [discriminate |].
  destruct (start <? len text) eqn:Hlt; [| intros [= <-]; tauto].
  intros H Hs Hb.
  assert (Hstep : forall e start',
             start < start' ->
             StronglySorted starts_before (append_nonblank text chunks start e)
             /\ forall c, In c (append_nonblank text chunks start e) ->
                          chunk_start c < start').
  { intros e start' Hlt'. split.
    - unfold append_nonblank. destruct (truthy _); [| exact Hs].
      apply sorted_snoc; [exact Hs |]. intros x Hx. exact (Hb x Hx).
    - intros c Hc. apply append_nonblank_In in Hc. destruct Hc as [Hc | [-> _]].
      + specialize (Hb c Hc). lia.
      + unfold chunk_start; simpl. exact Hlt'. }
  pose proof (next_cursor_after start Hov) as Hnext. unfold next_cursor in Hnext.
  destruct (is_in_protected_region text start) as [[[|] oty] region_end] eqn:Hp.
  - destruct (Hstep region_end region_end Hnext) as [H1 H2]. exact (IH _ _ _ H H1 H2).
  - destruct (Hstep (ordinary_end text chunk_size start) _ Hnext) as [H1 H2].
    destruct (start + (chunk_size - overlap) >=? len text).
    + injection H as <-. exact H1.
    + exact (IH _ _ _ H H1 H2).
Qed.

End ChunkLoopMore.

Lemma slice_length (text : str) (a b : Z) :
  0 <= a <= len text -> a <= b ->
  len (slice text a b) = Z.min b (len text) - a.
Proof.
  intros Ha Hb. unfold slice, clip, len in *.
  destruct (a <? 0) eqn:Ha0; [lia |].
  destruct (b <? 0) eqn:Hb0; [lia |].
  rewrite length_firstn, length_skipn. lia.
Qed.

Lemma unprotected_everywhere (text : str) :
  protected_ranges text = [] ->
  forall pos, is_in_protected_region text pos = (false, None, pos).
Proof.
  unfold protected_ranges. intros H pos. apply app_eq_nil in H. destruct H as [Ht Hs].
  unfold is_in_protected_region, protected_region_at. rewrite Ht, Hs. reflexivity.
Qed.

Lemma visits_steps (text : str) (chunk_size overlap : Z) :
  protected_ranges text = [] ->
  0 < chunk_size - overlap ->
  forall (n : nat) (a : Z),
    a + Z.of_nat n * (chunk_size - overlap) < len text ->
    visits text chunk_size overlap a (a + Z.of_nat n * (chunk_size - overlap)).
Proof.
  intros Hfree Hstep. induction n as [| n IH]; intros a Ha.
  - replace (a + Z.of_nat 0 * (chunk_size - overlap)) with a by lia.
    apply visits_here. lia.
  - apply visits_next; [nia |].
    unfold next_cursor. rewrite (unprotected_everywhere text Hfree).
    replace (a + Z.of_nat (S n) * (chunk_size - overlap))
      with (a + (chunk_size - overlap) + Z.of_nat n * (chunk_size - overlap)) by lia.
    apply IH. lia.
Qed.

(** X1: for [overlap < chunk_size] and a positive [chunk_size],
    [chunk_text] returns its chunks by strictly increasing [start_char];
    every chunk starts inside the text and ends after its start. *)
Theorem chunk_spans_ordered (text : str) (chunk_size overlap : Z) :
  overlap < chunk_size -> 0 < chunk_size ->
  exists out,
    chunk_text text (Some chunk_size) (Some overlap) = Some out
    /\ StronglySorted starts_before out
    /\ forall c, In c out ->
                 0 <= chunk_start c < len text /\ chunk_start c < chunk_end c.
Proof.
  intros Hov Hcs. destruct (chunk_text_total text chunk_size overlap Hov) as [out Hout].
  exists out. split; [exact Hout |]. unfold chunk_text in Hout. split.
  - apply (chunk_loop_sorted text chunk_size overlap _ Hov _ _ _ Hout);
      [constructor | intros c []].
  - intros c Hc.
    destruct (chunk_loop_cursor text chunk_size overlap (fun s => 0 <= s)
                (fun s Hs _ => Z.lt_le_incl _ _
                                 (Z.le_lt_trans _ _ _ Hs
                                    (next_cursor_after text chunk_size overlap s Hov)))
                _ _ _ _ Hout (Z.le_refl 0) c Hc) as [[] | [(Hlt & He & _) H0]].
    rewrite He. split; [lia | apply candidate_end_after, Hcs].
Qed.

Lemma chunk_spans_ordered_witness :
  2 < 10 /\ 0 < 10
  /\ exists out,
      chunk_text split_table (Some 10) (Some 2) = Some out
      /\ StronglySorted starts_before out
      /\ forall c, In c out ->
                   0 <= chunk_start c < len split_table /\ chunk_start c < chunk_end c.
Proof.
  assert (H1 : 2 < 10) by lia. assert (H2 : 0 < 10) by lia.
  exact (conj H1 (conj H2 (chunk_spans_ordered split_table 10 2 H1 H2))).
Defined.

(** X2: for [overlap < chunk_size] and a positive [chunk_size], the text
    of a chunk has [min(end_char, len(text)) - start_char] characters, at
    least one: [end_char] is recorded as proposed and can lie past the end
    of the text.  A chunk whose cursor is outside every protected region
    spans between [chunk_size] and [2 * chunk_size] offsets. *)
Theorem chunk_sizes (text : str) (chunk_size overlap : Z) :
  overlap < chunk_size -> 0 < chunk_size ->
  exists out,
    chunk_text text (Some chunk_size) (Some overlap) = Some out
    /\ forall c, In c out ->
         len (chunk_str c) = Z.min (chunk_end c) (len text) - chunk_start c
         /\ 1 <= len (chunk_str c)
         /\ (protected_region_at text (chunk_start c) = None ->
             chunk_size <= chunk_end c - chunk_start c <= 2 * chunk_size).
Proof.
  intros Hov Hcs. destruct (chunk_text_total text chunk_size overlap Hov) as [out Hout].
  exists out. split; [exact Hout |]. unfold chunk_text in Hout. intros c Hc.
  destruct (chunk_loop_cursor text chunk_size overlap (fun s => 0 <= s)
              (fun s Hs _ => Z.lt_le_incl _ _
                               (Z.le_lt_trans _ _ _ Hs
                                  (next_cursor_after text chunk_size overlap s Hov)))
              _ _ _ _ Hout (Z.le_refl 0) c Hc) as [[] | [(Hlt & He & Hstr & _) H0]].
  pose proof (candidate_end_after text chunk_size (chunk_start c) Hcs) as Hafter.
  rewrite <- He in Hafter.
  assert (Hlen : len (chunk_str c) = Z.min (chunk_end c) (len text) - chunk_start c).
  { rewrite Hstr. apply slice_length; lia. }
  split; [exact Hlen |]. split; [lia |].
  intros Hfree. rewrite He. unfold candidate_end, is_in_protected_region.
  rewrite Hfree. pose proof (ordinary_end_lower text chunk_size (chunk_start c)
                               ltac:(lia)) as Hlow.
  split; [lia |]. unfold ordinary_end.
  destruct (chunk_start c + chunk_size <? len text); [| lia].
  destruct (is_in_protected_region_cases text (chunk_start c + chunk_size))
    as [(ty & s & e & _ & -> & Hb) | [_ ->]]; lia.
Qed.

Lemma chunk_sizes_witness :
  2 < 10 /\ 0 < 10
  /\ exists out,
      chunk_text split_table (Some 10) (Some 2) = Some out
      /\ forall c, In c out ->
           len (chunk_str c) = Z.min (chunk_end c) (len split_table) - chunk_start c
           /\ 1 <= len (chunk_str c)
           /\ (protected_region_at split_table (chunk_start c) = None ->
               10 <= chunk_end c - chunk_start c <= 2 * 10).
Proof.
  assert (H1 : 2 < 10) by lia. assert (H2 : 0 < 10) by lia.
  exact (conj H1 (conj H2 (chunk_sizes split_table 10 2 H1 H2))).
Defined.

(** X3: with [overlap >= chunk_size] the loop of [chunk_text] never ends
    on a non-empty text that does not start inside a protected region:
    the check [if start >= len(text): break] does not stop it. *)
Theorem overlap_not_below_size_never_ends (text : str) (chunk_size overlap : Z) :
  chunk_size <= overlap ->
  text <> [] ->
  protected_region_at text 0 = None ->
  (forall fuel, chunk_loop text chunk_size overlap fuel 0 [] = None)
  /\ chunk_text text (Some chunk_size) (Some overlap) = None.
Proof.
  intros Hov Hne Hfree.
  assert (Hlen : 0 < len text) by (unfold len; destruct text; [congruence | simpl; lia]).
  assert (H : forall fuel, chunk_loop text chunk_size overlap fuel 0 [] = None).
  { intros fuel.
    apply (chunk_loop_stuck text chunk_size overlap 0 ltac:(lia) Hlen Hfree); lia. }
  split; [exact H | apply H].
Qed.

Lemma overlap_not_below_size_never_ends_witness :
  5 <= 5 /\ lit "ab" <> []
  /\ protected_region_at (lit "ab") 0 = None
  /\ (forall fuel, chunk_loop (lit "ab") 5 5 fuel 0 [] = None)
  /\ chunk_text (lit "ab") (Some 5) (Some 5) = None.
Proof.
  assert (H1 : 5 <= 5) by lia.
  assert (H2 : lit "ab" <> []) by discriminate.
  assert (H3 : protected_region_at (lit "ab") 0 = None) by reflexivity.
  exact (conj H1 (conj H2 (conj H3
           (overlap_not_below_size_never_ends (lit "ab") 5 5 H1 H2 H3)))).
Defined.

(** X4: on a text with no table and no slide region, and for
    [0 <= overlap < chunk_size], [chunk_text] is fixed-width windowing:
    its chunks are exactly the non-blank windows of [chunk_size]
    characters at the multiples of [chunk_size - overlap] inside the
    text. *)
Theorem plain_text_fixed_windows (text : str) (chunk_size overlap : Z) :
  0 <= overlap < chunk_size ->
  protected_ranges text = [] ->
  exists out,
    chunk_text text (Some chunk_size) (Some overlap) = Some out
    /\ forall c,
         In c out
         <-> exists k, 0 <= k /\ k * (chunk_size - overlap) < len text
                       /\ c = window text chunk_size (k * (chunk_size - overlap))
                       /\ truthy (strip (chunk_str c)) = true.
Proof.
  intros Hov Hfree.
  destruct (chunk_text_total text chunk_size overlap ltac:(lia)) as [out Hout].
  exists out. split; [exact Hout |]. unfold chunk_text in Hout.
  assert (Hend : forall s, candidate_end text chunk_size s = s + chunk_size).
  { intros s. unfold candidate_end, ordinary_end.
    rewrite !(unprotected_everywhere text Hfree).
    destruct (s + chunk_size <? len text); reflexivity. }
  intros c. split.
  - intros Hc.
    destruct (chunk_loop_cursor text chunk_size overlap
                (fun s => exists k, 0 <= k /\ s = k * (chunk_size - overlap)))
      with (fuel := S (List.length text)) (start := 0) (chunks := @nil chunk_tuple)
           (out := out) (c := c)
      as [[] | [(Hlt & He & Hstr & Ht) (k & Hk & Hs)]]; try assumption.
    + intros s (k & Hk & ->) _. exists (k + 1). split; [lia |].
      unfold next_cursor. rewrite (unprotected_everywhere text Hfree). lia.
    + exists 0. lia.
    + exists k. rewrite <- Hs. repeat split; try assumption.
      unfold window. rewrite <- (Hend (chunk_start c)), <- He, <- Hstr.
      destruct c as [[t s] e]. reflexivity.
  - intros (k & Hk & Hlt & -> & Ht).
    destruct (chunk_loop_visits text chunk_size overlap _ _ _ _ Hout) as [_ Hvis].
    unfold window in Ht |- *. unfold chunk_str in Ht; simpl in Ht.
    rewrite <- (Hend (k * (chunk_size - overlap))) in Ht |- *.
    apply Hvis; [| exact Ht].
    replace (k * (chunk_size - overlap))
      with (0 + Z.of_nat (Z.to_nat k) * (chunk_size - overlap))
      by (rewrite Z2Nat.id by exact Hk; ring).
    apply visits_steps; [exact Hfree | lia |].
    rewrite Z2Nat.id by exact Hk. lia.
Qed.

Lemma plain_text_fixed_windows_witness :
  0 <= 0 < 1 /\ protected_ranges spaced = []
  /\ exists out,
      chunk_text spaced (Some 1) (Some 0) = Some out
      /\ forall c,
           In c out
           <-> exists k, 0 <= k /\ k * (1 - 0) < len spaced
                         /\ c = window spaced 1 (k * (1 - 0))
                         /\ truthy (strip (chunk_str c)) = true.
Proof.
  assert (H1 : 0 <= 0 < 1) by lia.
  assert (H2 : protected_ranges spaced = []) by reflexivity.
  exact (conj H1 (conj H2 (plain_text_fixed_windows spaced 1 0 H1 H2))).
Defined.

(** ** [create_chunks] and the data handed to the collection *)

Import PyMore IndexerBuild.
Local Open Scope Z_scope.

(** The chunks of one document, numbered from [i]. *)
Lemma enumerate_chunks_length (doc : Document.t) (tc : list chunk_tuple) :
  forall i acc,
    List.length (enumerate_chunks doc i tc acc)
    = (List.length acc + List.length tc)%nat.
Proof.
  induction tc as [| [[t s] e] tc IH]; intros i acc; simpl; [lia |].
  rewrite IH, length_app. simpl. lia.
Qed.

Lemma enumerate_chunks_app (doc : Document.t) (tc : list chunk_tuple) :
  forall i acc,
    enumerate_chunks doc i tc acc = acc ++ enumerate_chunks doc i tc [].
Proof.
  induction tc as [| [[t s] e] tc IH]; intros i acc; simpl.
  - now rewrite app_nil_r.
  - rewrite IH. rewrite (IH (S i) [_]). now rewrite <- app_assoc.
Qed.

Lemma enumerate_chunks_nth (doc : Document.t) (tc : list chunk_tuple) :
  forall i k t s e,
    nth_error tc k = Some (t, s, e) ->
    nth_error (enumerate_chunks doc i tc []) k
    = Some (Chunk.mk t (Document.breadcrumb doc) (Document.source_file doc)
                     (i + k)%nat s e).
Proof.
  induction tc as [| [[t0 s0] e0] tc IH]; intros i k t s e H.
  - destruct k; discriminate.
  - simpl. rewrite enumerate_chunks_app. destruct k as [| k]; simpl in *.
    + injection H as -> -> ->. now rewrite Nat.add_0_r.
    + rewrite (IH (S i) k t s e H). simpl. now rewrite Nat.add_succ_r.
Qed.

Lemma create_chunks_from_app (docs : list Document.t) :
  forall acc,
    create_chunks_from docs acc
    = match create_chunks_from docs [] with
      | Some more => Some (acc ++ more)
      | None => None
      end.
Proof.
  induction docs as [| doc docs IH]; intros acc; simpl.
  - now rewrite app_nil_r.
  - destruct (chunk_text (Document.text doc) (Some CHUNK_SIZE) (Some CHUNK_OVERLAP))
      as [tc |]; [| reflexivity].
    rewrite IH. rewrite (IH (enumerate_chunks doc 0 tc [])).
    destruct (create_chunks_from docs []) as [more |]; [| reflexivity].
    rewrite (enumerate_chunks_app doc tc 0 acc). now rewrite <- app_assoc.
Qed.

Lemma create_chunks_cons (doc : Document.t) (docs : list Document.t) :
  exists tc more,
    chunk_text (Document.text doc) None None = Some tc
    /\ create_chunks docs = Some more
    /\ create_chunks (doc :: docs) = Some (enumerate_chunks doc 0 tc [] ++ more).
Proof.
  revert doc. induction docs as [| d docs IH]; intros doc.
  - destruct (chunk_text_total (Document.text doc) 1200 200 ltac:(lia)) as [tc Htc].
    exists tc, []. rewrite chunk_text_defaults. split; [exact Htc |].
    split; [reflexivity |]. unfold create_chunks. simpl.
    unfold CHUNK_SIZE, CHUNK_OVERLAP. now rewrite Htc, app_nil_r.
  - destruct (IH d) as (tc' & more' & _ & _ & Hd).
    destruct (chunk_text_total (Document.text doc) 1200 200 ltac:(lia)) as [tc Htc].
    exists tc, (enumerate_chunks d 0 tc' [] ++ more').
    rewrite chunk_text_defaults. split; [exact Htc |]. split; [exact Hd |].
    unfold create_chunks in *. 
    change (create_chunks_from (doc :: d :: docs) [])
      with (match chunk_text (Document.text doc) (Some CHUNK_SIZE) (Some CHUNK_OVERLAP) with
            | None => None
            | Some text_chunks =>
                create_chunks_from (d :: docs) (enumerate_chunks doc 0 text_chunks [])
            end).
    unfold CHUNK_SIZE, CHUNK_OVERLAP. rewrite Htc.
    rewrite create_chunks_from_app. now rewrite Hd.
Qed.

Lemma create_chunks_total (docs : list Document.t) :
  exists chunks, create_chunks docs = Some chunks.
Proof.
  destruct docs as [| doc docs]; [now exists [] |].
  destruct (create_chunks_cons doc docs) as (tc & more & _ & _ & H). eauto.
Qed.

(** X5: [create_chunks] returns for every list of documents, and its
    answer is, document after document, the chunks [chunk_text] gives for
    the document's text with the configured size and overlap: the [k]-th
    chunk of a document carries [chunk_id = k] and the document's
    breadcrumb and source file. *)
Theorem create_chunks_per_document (docs : list Document.t) :
  exists per_doc : list (list Chunk.t),
    create_chunks docs = Some (List.concat per_doc)
    /\ Forall2
         (fun doc cs =>
            exists tc,
              chunk_text (Document.text doc) None None = Some tc
              /\ List.length cs = List.length tc
              /\ forall k t s e,
                   nth_error tc k = Some (t, s, e) ->
                   nth_error cs k
                   = Some (Chunk.mk t (Document.breadcrumb doc)
                                    (Document.source_file doc) k s e))
         docs per_doc.
Proof.
  induction docs as [| doc docs IH].
  - exists []. split; [reflexivity | constructor].
  - destruct IH as (per_doc & Hc & Hall).
    destruct (create_chunks_cons doc docs) as (tc & more & Htc & Hmore & Hcons).
    exists (enumerate_chunks doc 0 tc [] :: per_doc). split.
    + simpl. rewrite Hcons. rewrite Hc in Hmore. now injection Hmore as <-.
    + constructor; [| exact Hall]. exists tc. split; [exact Htc |]. split.
      * now rewrite enumerate_chunks_length.
      * intros k t s e H. now rewrite (enumerate_chunks_nth doc tc 0 k t s e H).
Qed.

Lemma enumerate_chunks_In (doc : Document.t) (tc : list chunk_tuple) :
  forall i c,
    In c (enumerate_chunks doc i tc []) ->
    exists t s e,
      In (t, s, e) tc
      /\ Chunk.text c = t /\ Chunk.start_char c = s /\ Chunk.end_char c = e
      /\ Chunk.breadcrumb c = Document.breadcrumb doc
      /\ Chunk.source_file c = Document.source_file doc.
Proof.
  induction tc as [| [[t0 s0] e0] tc IH]; intros i c H; simpl in H; [destruct H |].
  rewrite enumerate_chunks_app in H. destruct H as [<- | H].
  - exists t0, s0, e0. simpl. auto 10.
  - destruct (IH _ _ H) as (t & s & e & Hin & Hrest).
    exists t, s, e. split; [now right | exact Hrest].
Qed.

Lemma enumerate_chunks_covers (doc : Document.t) (tc : list chunk_tuple) :
  forall i t s e,
    In (t, s, e) tc ->
    exists k, In (Chunk.mk t (Document.breadcrumb doc) (Document.source_file doc) k s e)
                 (enumerate_chunks doc i tc []).
Proof.
  induction tc as [| [[t0 s0] e0] tc IH]; intros i t s e H; [destruct H |].
  simpl. rewrite enumerate_chunks_app. destruct H as [H | H].
  - injection H as -> -> ->. exists i. now left.
  - destruct (IH (S i) t s e H) as [k Hk]. exists k. now right.
Qed.

(** Every non-blank character of a document lies in the span of one of
    the document's chunks. *)
Lemma create_chunks_char_covered (docs : list Document.t) (chunks : list Chunk.t) :
  create_chunks docs = Some chunks ->
  forall doc p ch,
    In doc docs ->
    char_at (Document.text doc) p = Some ch -> isspace ch = false ->
    exists c,
      In c chunks
      /\ Chunk.breadcrumb c = Document.breadcrumb doc
      /\ Chunk.source_file c = Document.source_file doc
      /\ Chunk.text c
         = slice (Document.text doc) (Chunk.start_char c) (Chunk.end_char c)
      /\ Chunk.start_char c <= p < Chunk.end_char c.
Proof.
  revert chunks. induction docs as [| doc docs IH]; intros chunks Hc d p ch Hd;
    [destruct Hd |].
  destruct (create_chunks_cons doc docs) as (tc & more & Htc & Hmore & Hcons).
  rewrite Hc in Hcons. injection Hcons as ->.
  rewrite chunk_text_defaults in Htc. intros Hch Hsp.
  destruct Hd as [<- | Hd].
  - assert (Hp : 0 <= p).
    { unfold char_at in Hch. destruct (p <? 0) eqn:E; [discriminate |].
      apply Z.ltb_ge in E. exact E. }
    pose proof Htc as Hloop. unfold chunk_text in Hloop.
    destruct (chunk_loop_covers (Document.text doc) 1200 200 _ ltac:(lia)
                0 [] tc ltac:(lia) Hloop ltac:(intros; lia) p ch Hp Hch Hsp)
      as ([[t s] e] & Hin & Hspan).
    unfold chunk_start, chunk_end in Hspan. simpl in Hspan.
    destruct (enumerate_chunks_covers doc tc 0 t s e Hin) as [k Hk].
    eexists. split; [apply in_or_app; left; exact Hk |]. simpl.
    split; [reflexivity |]. split; [reflexivity |]. split; [| exact Hspan].
    destruct (chunk_text_emitted _ _ _ _ Htc _ Hin) as (_ & _ & Hsl & _). exact Hsl.
  - destruct (IH more Hmore d p ch Hd Hch Hsp) as (c & Hin & Hrest).
    exists c. split; [apply in_or_app; now right | exact Hrest].
Qed.

(** X6: at the configured size and overlap nothing but white space is
    lost between a document and its chunks.  Every chunk [create_chunks]
    returns is a non-blank slice [text[start_char:end_char]] of one of the
    documents, under that document's breadcrumb and source file; and every
    non-blank character of every document lies in the span of a chunk of
    that kind. *)
Theorem create_chunks_cover_documents (docs : list Document.t) :
  exists chunks,
    create_chunks docs = Some chunks
    /\ (forall c, In c chunks ->
          exists doc,
            In doc docs
            /\ Chunk.breadcrumb c = Document.breadcrumb doc
            /\ Chunk.source_file c = Document.source_file doc
            /\ Chunk.text c
               = slice (Document.text doc) (Chunk.start_char c) (Chunk.end_char c)
            /\ truthy (strip (Chunk.text c)) = true)
    /\ (forall doc p ch,
          In doc docs ->
          char_at (Document.text doc) p = Some ch -> isspace ch = false ->
          exists c,
            In c chunks
            /\ Chunk.breadcrumb c = Document.breadcrumb doc
            /\ Chunk.source_file c = Document.source_file doc
            /\ Chunk.text c
               = slice (Document.text doc) (Chunk.start_char c) (Chunk.end_char c)
            /\ Chunk.start_char c <= p < Chunk.end_char c).
Proof.
  destruct (create_chunks_total docs) as [chunks Hchunks].
  exists chunks. split; [exact Hchunks |].
  split; [| exact (create_chunks_char_covered docs chunks Hchunks)].
  revert chunks Hchunks. induction docs as [| doc docs IH]; intros chunks Hchunks.
  - injection Hchunks as <-. intros c [].
  - destruct (create_chunks_cons doc docs) as (tc & more & Htc & Hmore & Hcons).
    rewrite Hchunks in Hcons. injection Hcons as ->.
    rewrite chunk_text_defaults in Htc.
    intros c Hc. apply in_app_or in Hc. destruct Hc as [Hc | Hc].
    + destruct (enumerate_chunks_In doc tc 0 c Hc)
        as (t & s & e & Hin & Ht & Hs & He & Hb & Hf).
      exists doc. split; [now left |]. split; [exact Hb |]. split; [exact Hf |].
      destruct (chunk_text_emitted _ _ _ _ Htc _ Hin) as (_ & _ & Hsl & Htr).
      unfold chunk_str, chunk_start, chunk_end in Hsl, Htr. simpl in Hsl, Htr.
      rewrite Ht, Hs, He. split; assumption.
    + destruct (IH more Hmore c Hc) as (d & Hd & Hrest).
      exists d. split; [now right | exact Hrest].
Qed.

Lemma str_of_nat_inj (n m : nat) : str_of_nat n = str_of_nat m -> n = m.
Proof.
  unfold str_of_nat. intros H.
  apply (f_equal string_of_list_ascii) in H.
  rewrite !string_of_list_ascii_of_string in H.
  apply (f_equal DecimalString.NilEmpty.uint_of_string) in H.
  rewrite !DecimalString.NilEmpty.usu in H. injection H as H.
  now apply DecimalNat.Unsigned.to_uint_inj.
Qed.

Lemma NoDup_map_inj {A B : Type} (f : A -> B) (l : list A) :
  (forall x y, f x = f y -> x = y) -> NoDup l -> NoDup (map f l).
Proof.
  intros Hinj H. induction H as [| x l Hx Hl IH]; simpl; constructor; [| exact IH].
  intros Hin. apply in_map_iff in Hin. destruct Hin as (y & Hy & Hin).
  apply Hinj in Hy. subst y. contradiction.
Qed.

(** X7: the ids [store_in_chroma] gives the chunks are pairwise distinct,
    whatever the chunks: the id of the chunk at position [i] is the
    decimal numeral of [i], not its per-document [chunk_id].  Ids, texts
    and metadata dicts are lists of the same length, the chunk at position
    [i] being described at position [i] of each. *)
Theorem chroma_ids_distinct (chunks : list Chunk.t) :
  NoDup (chroma_ids chunks)
  /\ List.length (chroma_ids chunks) = List.length chunks
  /\ List.length (chroma_texts chunks) = List.length chunks
  /\ List.length (chroma_metadatas chunks) = List.length chunks
  /\ forall i chunk,
       nth_error chunks i = Some chunk ->
       nth_error (chroma_ids chunks) i = Some (str_of_nat i)
       /\ nth_error (chroma_texts chunks) i = Some (Chunk.text chunk)
       /\ nth_error (chroma_metadatas chunks) i = Some (chunk_metadata chunk).
Proof.
  unfold chroma_ids, chroma_texts, chroma_metadatas.
  split; [apply NoDup_map_inj; [exact str_of_nat_inj | apply seq_NoDup] |].
  rewrite !length_map, length_seq.
  split; [reflexivity |]. split; [reflexivity |]. split; [reflexivity |].
  intros i chunk H.
  assert (Hi : (i < List.length chunks)%nat) by (apply nth_error_Some; congruence).
  rewrite !nth_error_map, H. simpl.
  rewrite nth_error_seq. apply Nat.ltb_lt in Hi. now rewrite Hi.
Qed.

(** ** The range of the scores: [_normalize_scores] and [vector_search] *)

Local Open Scope Q_scope.

Lemma greatest_unique (a b : Q) (l : list Q) : greatest a l -> greatest b l -> a == b.
Proof.
  intros [Ha Hua] [Hb Hub]. apply Qle_antisym; [apply Hub, Ha | apply Hua, Hb].
Qed.

Lemma least_unique (a b : Q) (l : list Q) : least a l -> least b l -> a == b.
Proof.
  intros [Ha Hla] [Hb Hlb]. apply Qle_antisym; [apply Hla, Hb | apply Hlb, Ha].
Qed.

Lemma ratio_range (s mn mx : Q) :
  mn <= s <= mx -> mn < mx -> 0 <= (s - mn) / (mx - mn) <= 1.
Proof.
  intros Hs Hlt. split.
  - apply Qle_shift_div_l; lra.
  - apply Qle_shift_div_r; lra.
Qed.

Lemma ratio_mono (s t mn mx : Q) :
  s <= t -> mn < mx -> (s - mn) / (mx - mn) <= (t - mn) / (mx - mn).
Proof.
  intros Hs Hlt. unfold Qdiv. apply Qmult_le_compat_r; [lra |].
  apply Qinv_le_0_compat. lra.
Qed.

Lemma ratio_top (s mn mx : Q) : s == mx -> mn < mx -> (s - mn) / (mx - mn) == 1.
Proof. intros Hs Hlt. rewrite Hs. field. lra. Qed.

Lemma ratio_bottom (s mn mx : Q) : s == mn -> mn < mx -> (s - mn) / (mx - mn) == 0.
Proof. intros Hs Hlt. rewrite Hs. field. lra. Qed.

(** What [_normalize_scores] answers, by cases on the scores. *)
Lemma normalize_scores_cases (r0 : result) (rs : list result) :
  let results := r0 :: rs in
  exists d mx mn,
    _normalize_scores results = Some d
    /\ greatest mx (map score results) /\ least mn (map score results)
    /\ (((mx == mn \/ mx == 0)
         /\ forall i r, nth_error results i = Some r -> lookup d i = Some 0.5)
        \/ (mn < mx /\ ~ mx == 0
            /\ forall i r, nth_error results i = Some r ->
                           lookup d i = Some ((score r - mn) / (mx - mn)))).
Proof.
  intros results. unfold results, _normalize_scores. cbn [map].
  set (scores := map score rs).
  pose proof (max_list_greatest scores (score r0)) as Hmax.
  pose proof (min_list_least scores (score r0)) as Hmin.
  set (mx := max_list (score r0) scores) in *.
  set (mn := min_list (score r0) scores) in *.
  destruct (Qeq_bool mx mn || Qeq_bool mx 0) eqn:E.
  - eexists. exists mx, mn. split; [reflexivity |]. split; [exact Hmax |]. split; [exact Hmin |].
    left. split.
    + apply orb_true_iff in E. destruct E as [E | E]; qbool; tauto.
    + intros i r Hi.
      assert (Hlt : (i < List.length (r0 :: rs))%nat) by (apply nth_error_Some; congruence).
      exact (lookup_const 0.5 _ 0%nat i Hlt).
  - apply orb_false_iff in E. destruct E as [E1 E2]. qbool.
    assert (Hle : mn <= mx).
    { destruct Hmin as [Hin _]. destruct Hmax as [_ Hub]. apply Hub, Hin. }
    assert (Hlt : mn < mx).
    { destruct (Qlt_le_dec mn mx) as [H | H]; [exact H |].
      exfalso. apply E1. apply Qle_antisym; assumption. }
    destruct (normalize_from_lookup mn mx (score r0 :: scores)
                ltac:(intros H; apply E1; lra) 0%nat) as (d & Hd & Hlk).
    exists d, mx, mn. split; [exact Hd |]. split; [exact Hmax |]. split; [exact Hmin |].
    right. split; [exact Hlt |]. split; [exact E2 |].
    intros i r Hi. apply (Hlk i (score r)).
    change (score r0 :: scores) with (map score (r0 :: rs)).
    rewrite nth_error_map, Hi. reflexivity.
Qed.

(** X8: [_normalize_scores] maps the scores of a list into [[0, 1]] and
    keeps their order: a result with a score no higher than another's gets
    a normalised score no higher.  Unless all scores are equal or the
    greatest is 0, a result with the greatest score gets 1 and one with
    the least score gets 0. *)
Theorem normalized_scores_unit_range (results : list result) :
  exists d,
    _normalize_scores results = Some d
    /\ (forall i r, nth_error results i = Some r ->
                    exists x, lookup d i = Some x /\ 0 <= x <= 1)
    /\ (forall i j ri rj x y,
           nth_error results i = Some ri -> nth_error results j = Some rj ->
           lookup d i = Some x -> lookup d j = Some y ->
           score ri <= score rj -> x <= y)
    /\ (forall mx mn,
           greatest mx (map score results) -> least mn (map score results) ->
           ~ mx == mn -> ~ mx == 0 ->
           forall i r x,
             nth_error results i = Some r -> lookup d i = Some x ->
             (score r == mx -> x == 1) /\ (score r == mn -> x == 0)).
Proof.
  destruct results as [| r0 rs].
  - exists []. split; [reflexivity |].
    split; [intros [| i] r; discriminate |].
    split; [intros [| i] j ri; discriminate | intros mx mn [[] _]].
  - destruct (normalize_scores_cases r0 rs)
      as (d & mx & mn & Hd & Hmax & Hmin & [[Hdeg Hlk] | (Hlt & Hnz & Hlk)]).
    + exists d. split; [exact Hd |]. split; [| split].
      * intros i r Hi. exists 0.5. split; [exact (Hlk i r Hi) | lra].
      * intros i j ri rj x y Hi Hj Hx Hy _.
        rewrite (Hlk i ri Hi) in Hx. rewrite (Hlk j rj Hj) in Hy.
        injection Hx as <-. injection Hy as <-. lra.
      * intros mx' mn' Hmax' Hmin' Hne Hnz.
        pose proof (greatest_unique _ _ _ Hmax Hmax') as Emx.
        pose proof (least_unique _ _ _ Hmin Hmin') as Emn.
        exfalso. destruct Hdeg as [H | H]; [apply Hne | apply Hnz]; lra.
    + assert (Hbounds : forall i r, nth_error (r0 :: rs) i = Some r -> mn <= score r <= mx).
      { intros i r Hi. apply nth_error_In in Hi.
        assert (Hin : In (score r) (map score (r0 :: rs))) by (apply in_map; exact Hi).
        split; [apply (proj2 Hmin), Hin | apply (proj2 Hmax), Hin]. }
      exists d. split; [exact Hd |]. split; [| split].
      * intros i r Hi. eexists. split; [exact (Hlk i r Hi) |].
        apply ratio_range; [exact (Hbounds i r Hi) | exact Hlt].
      * intros i j ri rj x y Hi Hj Hx Hy Hle.
        rewrite (Hlk i ri Hi) in Hx. rewrite (Hlk j rj Hj) in Hy.
        injection Hx as <-. injection Hy as <-. apply ratio_mono; assumption.
      * intros mx' mn' Hmax' Hmin' _ _ i r x Hi Hx.
        pose proof (greatest_unique _ _ _ Hmax Hmax') as Emx.
        pose proof (least_unique _ _ _ Hmin Hmin') as Emn.
        rewrite (Hlk i r Hi) in Hx. injection Hx as <-. split; intros Hs.
        -- apply ratio_top; [lra | exact Hlt].
        -- apply ratio_bottom; [lra | exact Hlt].
Qed.

(** X9: every result of [vector_search] is a dense result with a score in
    [[0, 1]].  When the store answers without distances every score is
    0.5; a distance [d] between 0 and 2 gives [1 - d / 2], a larger one 0
    and a negative one 1. *)
Theorem vector_search_scores (collection_query : str -> nat -> query_result)
  (query : str) (top_k : option nat) :
  let answer :=
    collection_query query (match top_k with Some k => k | None => 8%nat end) in
  let found := vector_search collection_query query top_k in
  Forall (fun r => 0 <= score r <= 1 /\ type r = vector /\ normalized_score r = None)
         found
  /\ (distances answer = None -> Forall (fun r => score r == 0.5) found)
  /\ (forall ds i r d,
         distances answer = Some ds ->
         nth_error found i = Some r -> nth_error ds i = Some d ->
         (0 <= d <= 2 -> score r == 1 - d / 2)
         /\ (2 <= d -> score r == 0)
         /\ (d <= 0 -> score r == 1)).
Proof.
  intros answer found. subst found. unfold vector_search, TOP_K. fold answer.
  split; [| split].
  - apply Forall_forall. intros r Hr. apply in_map_iff in Hr.
    destruct Hr as (i & <- & _). simpl. split; [| split; reflexivity].
    fold (clamp (1 - match distances answer with Some ds => nth i ds 0 | None => 1 end / 2)).
    apply clamp_range.
  - intros Hnone. apply Forall_forall. intros r Hr. apply in_map_iff in Hr.
    destruct Hr as (i & <- & _). simpl. rewrite Hnone. vm_compute. reflexivity.
  - intros ds i r d Hds Hr Hd. rewrite nth_error_map in Hr.
    destruct (nth_error (seq 0 (List.length (ids answer))) i) as [j |] eqn:Hj;
      [| discriminate].
    assert (j = i).
    { assert (Hlt : (i < List.length (seq 0 (List.length (ids answer))))%nat)
        by (apply nth_error_Some; congruence).
      rewrite length_seq in Hlt. rewrite nth_error_seq in Hj.
      apply Nat.ltb_lt in Hlt. rewrite Hlt in Hj. simpl in Hj. congruence. }
    subst j. simpl in Hr. injection Hr as <-. simpl. rewrite Hds.
    rewrite (nth_error_nth ds i 0 Hd).
    assert (Hh : d / 2 == d * (1 # 2)) by reflexivity.
    set (h := d / 2) in *.
    split; [| split]; intros H; minmax; lra.
Qed.

(** ** [bm25_search]: the best-scoring documents, best first *)

Lemma sorted_app {A : Type} (R : A -> A -> Prop) (l1 l2 : list A) :
  StronglySorted R l1 -> StronglySorted R l2 ->
  (forall a b, In a l1 -> In b l2 -> R a b) ->
  StronglySorted R (l1 ++ l2).
Proof.
  intros H1 H2 H. induction H1 as [| x l1 Hl1 IH Hx]; simpl; [exact H2 |].
  constructor.
  - apply IH. intros a b Ha Hb. apply H; [right |]; assumption.
  - apply Forall_app. split; [exact Hx |].
    apply Forall_forall. intros b Hb. apply H; [left; reflexivity | exact Hb].
Qed.

Lemma sorted_rev {A : Type} (R : A -> A -> Prop) (l : list A) :
  StronglySorted R l -> StronglySorted (fun a b => R b a) (rev l).
Proof.
  intros H. induction H as [| x l Hl IH Hx]; simpl; [constructor |].
  apply sorted_app; [exact IH | repeat constructor |].
  intros a b Ha [<- | []]. apply in_rev in Ha.
  exact (proj1 (Forall_forall _ _) Hx a Ha).
Qed.

Lemma sorted_filter {A : Type} (R : A -> A -> Prop) (f : A -> bool) (l : list A) :
  StronglySorted R l -> StronglySorted R (filter f l).
Proof.
  intros H. induction H as [| x l Hl IH Hx]; simpl; [constructor |].
  destruct (f x); [| exact IH]. constructor; [exact IH |].
  apply Forall_forall. intros y Hy. apply filter_In in Hy.
  exact (proj1 (Forall_forall _ _) Hx y (proj1 Hy)).
Qed.

(** What a cut of a sorted list leaves out comes after all it keeps. *)
Lemma firstn_sorted_rest {A : Type} (R : A -> A -> Prop) (l : list A) :
  StronglySorted R l ->
  forall k x, In x l ->
              In x (firstn k l)
              \/ (List.length (firstn k l) = k /\ Forall (fun y => R y x) (firstn k l)).
Proof.
  intros H. induction H as [| y l Hl IH Hy]; intros k x Hx; [destruct Hx |].
  destruct k as [| k]; [right; split; [reflexivity | constructor] |].
  simpl. destruct Hx as [-> | Hx]; [left; left; reflexivity |].
  destruct (IH k x Hx) as [Hin | [Hlen Hall]]; [left; right; exact Hin |].
  right. split; [now rewrite Hlen |].
  constructor; [exact (proj1 (Forall_forall _ _) Hy x Hx) | exact Hall].
Qed.

Lemma conditional_append_filter {A B : Type} (keep : A -> bool) (make : A -> B)
  (l : list A) :
  forall acc,
    fold_left (fun out x => if keep x then out ++ [make x] else out) l acc
    = acc ++ map make (filter keep l).
Proof.
  induction l as [| x l IH]; intros acc; simpl; [now rewrite app_nil_r |].
  rewrite IH. destruct (keep x); [| reflexivity].
  simpl. now rewrite <- app_assoc.
Qed.

Section Argsort.
Variable scores : list Q.

Lemma insert_index_perm (i : nat) (l : list nat) :
  Permutation (insert_index scores i l) (i :: l).
Proof.
  induction l as [| j l IH]; simpl; [reflexivity |].
  destruct (Qle_bool (nth i scores 0) (nth j scores 0)); [reflexivity |].
  rewrite IH. apply perm_swap.
Qed.

Lemma argsort_perm : Permutation (argsort scores) (seq 0 (List.length scores)).
Proof.
  unfold argsort. induction (seq 0 (List.length scores)) as [| i l IH]; simpl;
    [reflexivity |].
  rewrite insert_index_perm, IH. reflexivity.
Qed.

Lemma insert_index_sorted (i : nat) (l : list nat) :
  StronglySorted (fun a b => nth a scores 0 <= nth b scores 0) l ->
  StronglySorted (fun a b => nth a scores 0 <= nth b scores 0)
                 (insert_index scores i l).
Proof.
  induction l as [| j l IH]; simpl; intros Hs; [repeat constructor |].
  inversion Hs as [| ? ? Hl Hj]; subst.
  destruct (Qle_bool (nth i scores 0) (nth j scores 0)) eqn:E; qbool.
  - constructor; [exact Hs |]. constructor; [exact E |].
    eapply Forall_impl; [| exact Hj]. simpl. intros z Hz. lra.
  - constructor; [exact (IH Hl) |].
    eapply Permutation_Forall; [symmetry; apply insert_index_perm |].
    constructor; [lra | exact Hj].
Qed.

Lemma argsort_sorted :
  StronglySorted (fun a b => nth a scores 0 <= nth b scores 0) (argsort scores).
Proof.
  unfold argsort. induction (seq 0 (List.length scores)) as [| i l IH]; simpl;
    [constructor | apply insert_index_sorted, IH].
Qed.

End Argsort.

(** X10: [bm25_search] returns stored documents with a score above 0,
    each at most once and best first; a document with a score above 0
    that it leaves out scores no higher than any it returns, and then it
    returns [top_k] of them. *)
Theorem bm25_search_best_first
  (documents : list str) (metadatas : list metadata)
  (bm25_score : list str -> nat -> Q) (query : str) (top_k : nat) :
  let tokens := split (lower query) in
  exists idxs,
    Forall2 (fun idx r => text r = nth idx documents []
                          /\ score r = bm25_score tokens idx
                          /\ type r = bm25)
            idxs (bm25_search documents metadatas bm25_score query (Some top_k))
    /\ NoDup idxs
    /\ (forall i, In i idxs ->
                  (i < List.length documents)%nat /\ 0 < bm25_score tokens i)
    /\ StronglySorted (fun a b => bm25_score tokens b <= bm25_score tokens a) idxs
    /\ forall idx,
         (idx < List.length documents)%nat -> 0 < bm25_score tokens idx ->
         In idx idxs
         \/ (List.length idxs = top_k
             /\ forall i, In i idxs -> bm25_score tokens idx <= bm25_score tokens i).
Proof.
  intros tokens. unfold bm25_search. fold tokens.
  set (scores := get_scores documents bm25_score tokens).
  set (keep := fun idx => negb (Qle_bool (nth idx scores 0) 0)).
  set (ranked := rev (argsort scores)).
  assert (Hlen : List.length scores = List.length documents)
    by (unfold scores, get_scores; now rewrite length_map, length_seq).
  assert (Hperm : Permutation ranked (seq 0 (List.length documents))).
  { unfold ranked. rewrite <- Permutation_rev, <- Hlen. apply argsort_perm. }
  assert (Hsorted : StronglySorted (fun a b => nth b scores 0 <= nth a scores 0) ranked).
  { unfold ranked.
    apply (sorted_rev (fun a b => nth a scores 0 <= nth b scores 0)), argsort_sorted. }
  assert (Hrange : forall i, In i ranked <-> (i < List.length documents)%nat).
  { intros i. split; intros H.
    - apply (Permutation_in _ Hperm) in H. apply in_seq in H. lia.
    - apply (Permutation_in _ (Permutation_sym Hperm)). apply in_seq. lia. }
  assert (Hsc : forall i, (i < List.length documents)%nat ->
                          nth i scores 0 = bm25_score tokens i).
  { intros i Hi. unfold scores. rewrite get_scores_nth.
    apply Nat.ltb_lt in Hi. now rewrite Hi. }
  assert (Hkeep : forall i, keep i = true <-> 0 < nth i scores 0).
  { intros i. unfold keep. destruct (Qle_bool (nth i scores 0) 0) eqn:E; qbool; simpl.
    - split; [discriminate | intros H; lra].
    - split; [intros _; exact E | reflexivity]. }
  exists (filter keep (firstn top_k ranked)).
  assert (Hin : forall i, In i (filter keep (firstn top_k ranked)) ->
                          (i < List.length documents)%nat /\ 0 < bm25_score tokens i).
  { intros i Hi. apply filter_In in Hi. destruct Hi as [Hi Hk].
    apply firstn_In, Hrange in Hi. split; [exact Hi |].
    rewrite <- (Hsc i Hi). apply Hkeep, Hk. }
  split; [| split; [| split; [exact Hin | split]]].
  - rewrite conditional_append_filter. simpl. fold keep.
    revert Hin. generalize (filter keep (firstn top_k ranked)) as l.
    induction l as [| idx l IH]; intros Hin; simpl; constructor.
    + simpl. split; [reflexivity |]. split; [| reflexivity].
      apply Hsc, Hin. left. reflexivity.
    + apply IH. intros i Hi. apply Hin. right. exact Hi.
  - apply NoDup_filter, NoDup_firstn.
    apply (Permutation_NoDup (Permutation_sym Hperm)), seq_NoDup.
  - apply sorted_filter.
    assert (Hcut : StronglySorted (fun a b => nth b scores 0 <= nth a scores 0)
                                  (firstn top_k ranked)).
    { rewrite <- (firstn_skipn top_k ranked) in Hsorted.
      revert Hsorted. generalize (firstn top_k ranked) as l1.
      induction l1 as [| x l1 IH]; simpl; intros H; [constructor |].
      inversion H as [| ? ? Hl Hx]; subst. constructor; [exact (IH Hl) |].
      apply Forall_app in Hx. tauto. }
    assert (Hmono : forall l, (forall i, In i l -> (i < List.length documents)%nat) ->
                              StronglySorted (fun a b => nth b scores 0 <= nth a scores 0) l ->
                              StronglySorted
                                (fun a b => bm25_score tokens b <= bm25_score tokens a) l).
    { intros l Hl H. induction H as [| x l Hs IH Hx]; constructor.
      - apply IH. intros i Hi. apply Hl. right. exact Hi.
      - apply Forall_forall. intros y Hy.
        pose proof (proj1 (Forall_forall _ _) Hx y Hy) as Hxy. simpl in Hxy.
        rewrite (Hsc x), (Hsc y) in Hxy;
          [exact Hxy | apply Hl; right; exact Hy | apply Hl; left; reflexivity]. }
    apply Hmono; [| exact Hcut].
    intros i Hi. apply firstn_In, Hrange in Hi. exact Hi.
  - intros idx Hidx Hpos.
    destruct (firstn_sorted_rest _ ranked Hsorted top_k idx (proj2 (Hrange idx) Hidx))
      as [Hfirst | [Hcount Hall]].
    + left. apply filter_In. split; [exact Hfirst |].
      apply Hkeep. rewrite (Hsc idx Hidx). exact Hpos.
    + right.
      assert (Hall' : forall i, In i (firstn top_k ranked) -> keep i = true).
      { intros i Hi. apply Hkeep.
        pose proof (proj1 (Forall_forall _ _) Hall i Hi) as H. simpl in H.
        rewrite (Hsc idx Hidx) in H. lra. }
      assert (Hsame : filter keep (firstn top_k ranked) = firstn top_k ranked).
      { revert Hall'. generalize (firstn top_k ranked) as l.
        induction l as [| x l IH]; simpl; intros H; [reflexivity |].
        rewrite (H x (or_introl eq_refl)). f_equal. apply IH.
        intros i Hi. apply H. right. exact Hi. }
      rewrite Hsame. split; [exact Hcount |].
      intros i Hi. pose proof (proj1 (Forall_forall _ _) Hall i Hi) as H. simpl in H.
      rewrite (Hsc idx Hidx) in H.
      rewrite (Hsc i) in H; [exact H |]. apply firstn_In, Hrange in Hi. exact Hi.
Qed.

(** ** A floor under the confidence of [retrieve] *)

Lemma assign_normalized_nth (d : index_dict) (results : list result) :
  forall i k,
    nth_error (assign_normalized d i results) k
    = option_map (fun r => set_normalized r (get d (i + k))) (nth_error results k).
Proof.
  induction results as [| r results IH]; intros i k; simpl.
  - destruct k; reflexivity.
  - destruct k as [| k]; simpl; [now rewrite Nat.add_0_r |].
    rewrite IH. now rewrite Nat.add_succ_r.
Qed.

(** The normalised list holds the same results, each with a normalised
    score in [[0, 1]]. *)
Lemma normalized_list_nth (results : list result) (k : nat) (r' : result) :
  nth_error (normalized_list results) k = Some r' ->
  exists r, nth_error results k = Some r /\ text r' = text r
            /\ 0 <= get_normalized r' <= 1.
Proof.
  destruct results as [| r0 rs]; [destruct k; discriminate |].
  unfold normalized_list.
  destruct (normalize_scores_cases r0 rs)
    as (d & mx & mn & Hd & Hmax & Hmin & Hcases).
  cbv zeta in Hd. rewrite Hd, assign_normalized_nth.
  destruct (nth_error (r0 :: rs) k) as [r |] eqn:Hk; [| discriminate].
  simpl. intros [= <-]. exists r. split; [reflexivity |]. split; [reflexivity |].
  unfold get_normalized, set_normalized, get. simpl.
  destruct Hcases as [[_ Hlk] | (Hlt & _ & Hlk)]; rewrite (Hlk k r Hk).
  - lra.
  - apply ratio_range; [| exact Hlt].
    apply nth_error_In in Hk.
    assert (Hin : In (score r) (map score (r0 :: rs))) by (apply in_map; exact Hk).
    split; [apply (proj2 Hmin), Hin | apply (proj2 Hmax), Hin].
Qed.

(** A non-empty list has a result with a normalised score of 0.5 or more. *)
Lemma normalized_list_top (results : list result) :
  results <> [] ->
  exists r', In r' (normalized_list results) /\ 0.5 <= get_normalized r'.
Proof.
  destruct results as [| r0 rs]; [congruence |]. intros _.
  unfold normalized_list.
  destruct (normalize_scores_cases r0 rs)
    as (d & mx & mn & Hd & Hmax & Hmin & Hcases).
  cbv zeta in Hd. rewrite Hd.
  assert (Hpick : exists k r, nth_error (r0 :: rs) k = Some r
                              /\ 0.5 <= get d k).
  { destruct Hcases as [[_ Hlk] | (Hlt & _ & Hlk)].
    - exists 0%nat, r0. split; [reflexivity |]. unfold get.
      rewrite (Hlk 0%nat r0 eq_refl). lra.
    - destruct Hmax as [Hin _]. apply in_map_iff in Hin.
      destruct Hin as (r & Hr & Hin). apply In_nth_error in Hin.
      destruct Hin as [k Hk]. exists k, r. split; [exact Hk |].
      unfold get. rewrite (Hlk k r Hk), Hr.
      assert (E : (mx - mn) / (mx - mn) == 1) by (field; lra). lra. }
  destruct Hpick as (k & r & Hk & Hge).
  exists (set_normalized r (get d k)). split; [| exact Hge].
  apply (nth_error_In _ k). rewrite assign_normalized_nth, Hk. reflexivity.
Qed.

Lemma normalized_list_nil (results : list result) :
  normalized_list results = [] -> results = [].
Proof.
  destruct results as [| r0 rs]; [reflexivity |]. intros H.
  destruct (normalized_list_top (r0 :: rs) ltac:(congruence)) as (r' & Hin & _).
  rewrite H in Hin. destruct Hin.
Qed.

Lemma boost_result_bounds (r : result) :
  0 <= get_normalized r <= 1 ->
  text (boost_result source_boosts r) = text r
  /\ get_normalized r <= get_normalized (boost_result source_boosts r) <= 1.
Proof.
  intros H. unfold boost_result.
  destruct (existsb _ indicator_terms); [| split; [reflexivity | lra]].
  split; [reflexivity |].
  change (get_normalized (set_normalized r (min2 1 (get_normalized r
                                                     + indicator_boost source_boosts))))
    with (min2 1 (get_normalized r + 0.25)).
  minmax; lra.
Qed.

(** The boost of the materials branch keeps every normalised score in
    [[0, 1]] and lowers none. *)
Lemma boost_results_bounds (query_lower : str) (l : list result) :
  Forall (fun r => 0 <= get_normalized r <= 1) l ->
  Forall (fun r => 0 <= get_normalized r <= 1)
         (boost_results source_boosts query_lower l)
  /\ forall r, In r l ->
               exists r', In r' (boost_results source_boosts query_lower l)
                          /\ get_normalized r <= get_normalized r'.
Proof.
  intros Hl. unfold boost_results.
  assert (Hsame : Forall (fun r => 0 <= get_normalized r <= 1) l
                  /\ forall r, In r l -> exists r', In r' l
                                                   /\ get_normalized r <= get_normalized r').
  { split; [exact Hl |]. intros r Hr. exists r. split; [exact Hr | lra]. }
  destruct (is_locator query_lower); [exact Hsame |].
  destruct (is_materials query_lower); [| exact Hsame]. split.
  - apply Forall_forall. intros r' Hr'. apply in_map_iff in Hr'.
    destruct Hr' as (r & <- & Hr).
    pose proof (proj1 (Forall_forall _ _) Hl r Hr) as Hb. cbv beta in Hb.
    destruct (boost_result_bounds r Hb) as [_ H]. lra.
  - intros r Hr. exists (boost_result source_boosts r).
    split; [apply in_map; exact Hr |].
    pose proof (proj1 (Forall_forall _ _) Hl r Hr) as Hb. cbv beta in Hb.
    destruct (boost_result_bounds r Hb) as [_ H]. lra.
Qed.

Lemma nsum_nonneg (t : str) (l : list result) :
  Forall (fun r => 0 <= get_normalized r <= 1) l -> 0 <= nsum t l.
Proof.
  intros H. induction H as [| r l Hr _ IH]; simpl; [lra |].
  cbv beta in Hr. destruct (str_eqb (text r) t); lra.
Qed.

Lemma nsum_member (r : result) (l : list result) :
  Forall (fun r => 0 <= get_normalized r <= 1) l ->
  In r l -> get_normalized r <= nsum (text r) l.
Proof.
  intros H. induction H as [| r0 l Hr0 Hl IH]; simpl; [tauto |].
  intros [-> | Hin].
  - rewrite str_eqb_refl. pose proof (nsum_nonneg (text r) l Hl). lra.
  - specialize (IH Hin). destruct (str_eqb (text r0) (text r)); lra.
Qed.

(** The entry of [merged] for the text of a result of either list. *)
Lemma merge_results_entry (vs bs : list result) (t : str) :
  In t (map text vs) \/ In t (map text bs) ->
  exists e, In (t, e) (merge_results vs bs)
            /\ hybrid_score e == 0.6 * nsum t vs + 0.4 * nsum t bs.
Proof.
  intros Ht. destruct (merge_results_inv vs bs) as (_ & Hkeys & Hsum).
  assert (Hin : In t (map fst (merge_results vs bs))).
  { apply Hkeys. rewrite map_app, in_app_iff, !map_map. simpl. exact Ht. }
  apply in_map_iff in Hin. destruct Hin as ([t' e] & Hfst & Hin). simpl in Hfst.
  subst t'. exists e. split; [exact Hin |].
  rewrite (Hsum t e Hin), wsum_app, !wsum_weight. lra.
Qed.

Lemma keyword_boost_nonneg (query_lower : str) :
  0 <= keyword_boost source_boosts query_lower.
Proof.
  unfold keyword_boost. destruct (is_locator query_lower); [simpl; lra |].
  destruct (is_materials query_lower); simpl; lra.
Qed.

(** The list that is sorted and cut holds an entry scoring at least
    [weight / 2] for each non-empty result list. *)
Lemma boosted_merge_floor (query : str) (vector_results bm25_results : list result) :
  (vector_results <> [] ->
   exists f, In f (boosted_merge source_boosts query vector_results bm25_results)
             /\ 0.3 <= hybrid_score f)
  /\ (bm25_results <> [] ->
      exists f, In f (boosted_merge source_boosts query vector_results bm25_results)
                /\ 0.2 <= hybrid_score f).
Proof.
  unfold boosted_merge.
  set (q := lower (strip query)).
  set (vs := boost_results source_boosts q (normalized_list vector_results)).
  set (bs := boost_results source_boosts q (normalized_list bm25_results)).
  assert (Hrange : forall results,
             Forall (fun r => 0 <= get_normalized r <= 1) (normalized_list results)).
  { intros results. apply Forall_forall. intros r' Hr'.
    apply In_nth_error in Hr'. destruct Hr' as [k Hk].
    destruct (normalized_list_nth results k r' Hk) as (_ & _ & _ & H). exact H. }
  destruct (boost_results_bounds q _ (Hrange vector_results)) as [Hvs Hvup].
  destruct (boost_results_bounds q _ (Hrange bm25_results)) as [Hbs Hbup].
  fold vs in Hvs, Hvup. fold bs in Hbs, Hbup.
  pose proof (keyword_boost_nonneg q) as Hkb.
  assert (Hentry : forall t e,
             In (t, e) (merge_results vs bs) ->
             In (mk_fused (base e) (clamp (hybrid_score e + keyword_boost source_boosts q)))
                (map snd (apply_boost (keyword_boost source_boosts q) (merge_results vs bs)))).
  { intros t e He. unfold apply_boost. rewrite map_map. simpl.
    apply in_map_iff. exists (t, e). split; [reflexivity | exact He]. }
  split; intros Hne.
  - destruct (normalized_list_top vector_results Hne) as (r & Hr & Hge).
    destruct (Hvup r Hr) as (r' & Hr' & Hle).
    destruct (merge_results_entry vs bs (text r') (or_introl (in_map text _ _ Hr')))
      as (e & He & Hsum).
    eexists. split; [exact (Hentry _ _ He) |]. simpl.
    pose proof (nsum_member r' vs Hvs Hr'). pose proof (nsum_nonneg (text r') bs Hbs).
    unfold clamp. minmax; lra.
  - destruct (normalized_list_top bm25_results Hne) as (r & Hr & Hge).
    destruct (Hbup r Hr) as (r' & Hr' & Hle).
    destruct (merge_results_entry vs bs (text r') (or_intror (in_map text _ _ Hr')))
      as (e & He & Hsum).
    eexists. split; [exact (Hentry _ _ He) |]. simpl.
    pose proof (nsum_member r' bs Hbs Hr'). pose proof (nsum_nonneg (text r') vs Hvs).
    unfold clamp. minmax; lra.
Qed.

Lemma boosted_merge_nil (query : str) :
  boosted_merge source_boosts query [] [] = [].
Proof.
  unfold boosted_merge, boost_results. change (normalized_list []) with (@nil result).
  destruct (is_locator _); [reflexivity |]. destruct (is_materials _); reflexivity.
Qed.

(** X11: the confidence [retrieve] reports is 0 only when it returns no
    result, which happens exactly when [top_k] is 0 or neither search
    found anything.  Otherwise it is at least 0.2, and at least 0.3 when
    the dense search found anything: the best result of a list has a
    normalised score of 0.5 or more, and the weights are 0.6 and 0.4. *)
Theorem confidence_floor
  (collection_query : str -> nat -> query_result)
  (documents : list str) (metadatas : list metadata)
  (bm25_score : list str -> nat -> Q) (query : str) (k : nat) :
  let dense := vector_search collection_query query (Some (k * 2)%nat) in
  let lexical := bm25_search documents metadatas bm25_score query (Some (k * 2)%nat) in
  exists results confidence,
    retrieve collection_query documents metadatas bm25_score query (Some k)
    = Some (results, confidence)
    /\ (results = [] <-> k = 0%nat \/ (dense = [] /\ lexical = []))
    /\ (results = [] -> confidence = 0)
    /\ (results <> [] -> 0.2 <= confidence)
    /\ (results <> [] -> dense <> [] -> 0.3 <= confidence).
Proof.
  intros dense lexical.
  unfold retrieve, retrieve_with, hybrid_search_with. fold dense lexical.
  rewrite fuse_Some.
  set (merged := boosted_merge source_boosts query dense lexical).
  destruct (boosted_merge_floor query dense lexical) as [Hdense Hlexical].
  fold merged in Hdense, Hlexical.
  pose proof (sort_desc_perm merged) as Hperm.
  assert (Htop : forall f top rest,
             In f merged -> sort_desc merged = top :: rest ->
             hybrid_score f <= hybrid_score top).
  { intros f top rest Hf Hs. destruct (sort_desc_head _ _ _ Hs) as [_ H]. exact (H f Hf). }
  do 2 eexists. split; [reflexivity |].
  destruct k as [| k].
  - simpl. split; [tauto |]. split; [reflexivity |]. split; congruence.
  - destruct (sort_desc merged) as [| top rest] eqn:Hs.
    + apply Permutation_nil in Hperm.
      assert (Hd : dense = []).
      { destruct dense as [| d0 ds] eqn:E; [reflexivity |].
        destruct Hdense as (f & Hf & _); [congruence |]. rewrite Hperm in Hf. destruct Hf. }
      assert (Hl : lexical = []).
      { destruct lexical as [| l0 ls] eqn:E; [reflexivity |].
        destruct Hlexical as (f & Hf & _); [congruence |]. rewrite Hperm in Hf. destruct Hf. }
      simpl. split; [tauto |]. split; [reflexivity |]. split; congruence.
    + assert (Hsome : dense <> [] \/ lexical <> []).
      { destruct dense as [| d0 ds] eqn:Ed; [| left; congruence].
        destruct lexical as [| l0 ls] eqn:El; [| right; congruence].
        exfalso. unfold merged in Hperm. rewrite boosted_merge_nil in Hperm.
        apply Permutation_sym, Permutation_nil in Hperm. discriminate. }
      cbn [firstn]. split; [| split; [discriminate | split]].
      * split; [discriminate |]. intros [H | [Hd Hl]]; [discriminate |].
        destruct Hsome; contradiction.
      * intros _. destruct Hsome as [H | H].
        -- destruct (Hdense H) as (f & Hf & Hge).
           pose proof (Htop f top rest Hf eq_refl) as Hle. simpl. minmax; lra.
        -- destruct (Hlexical H) as (f & Hf & Hge).
           pose proof (Htop f top rest Hf eq_refl) as Hle. simpl. minmax; lra.
      * intros _ H. destruct (Hdense H) as (f & Hf & Hge).
        pose proof (Htop f top rest Hf eq_refl) as Hle. simpl. minmax; lra.
Qed.

(** ** The bounded context of [chat] and [debug_context] *)

Import App ContextSpec.
Local Open Scope Z_scope.

Lemma len_app (a b : str) : len (a ++ b) = len a + len b.
Proof. unfold len. rewrite length_app. lia. Qed.

Lemma len_nonneg (s : str) : 0 <= len s.
Proof. unfold len. lia. Qed.

Lemma slice_prefix_length (s : str) (n : Z) :
  0 <= n -> len (slice s 0 n) = Z.min n (len s).
Proof.
  intros H. pose proof (len_nonneg s). rewrite slice_length; lia.
Qed.

Lemma source_header_length (i : nat) (bc : str) :
  len (source_header i bc) = 13 + len (str_of_nat i) + len bc.
Proof.
  unfold source_header. rewrite !len_app.
  change (len (lit "[Source ")) with 8. change (len (lit " - ")) with 3.
  change (len (lit "]")) with 1. change (len nl) with 1. lia.
Qed.

Lemma block_of_length (i : nat) (chunk : fused) :
  len (block_of i chunk)
  = len (source_header i (breadcrumb_of chunk)) + len (text (base chunk)) + 1.
Proof. unfold block_of. rewrite !len_app. change (len nl) with 1. lia. Qed.

Lemma cut_block_length (i : nat) (chunk : fused) (remaining : Z) :
  50 <= remaining ->
  len (cut_block i chunk remaining)
  = len (source_header i (breadcrumb_of chunk))
    + Z.min (remaining - 50) (len (text (base chunk))) + 4.
Proof.
  intros H. unfold cut_block. rewrite !len_app, slice_prefix_length by lia.
  change (len (lit "...")) with 3. change (len nl) with 1. lia.
Qed.

Lemma concat_snoc_length (blocks : list str) (block : str) :
  len (List.concat (blocks ++ [block])) = len (List.concat blocks) + len block.
Proof. rewrite concat_app, len_app. simpl. now rewrite app_nil_r. Qed.

Lemma context_blocks_bound (cap H : Z) (chunks : list fused) :
  forall i blocks total,
    total = len (List.concat blocks) -> total <= cap ->
    (forall k chunk, nth_error chunks k = Some chunk ->
                     len (source_header (i + k) (breadcrumb_of chunk)) <= H) ->
    len (List.concat (context_blocks cap i chunks blocks total))
    <= Z.max cap (cap + H - 46).
Proof.
  induction chunks as [| chunk rest IH]; intros i blocks total Ht Hc Hh;
    cbn [context_blocks]; cbv zeta; [lia |].
  destruct (Z.gtb_spec (total + len (block_of i chunk)) cap) as [Hover | Hfit].
  - destruct (Z.gtb_spec (cap - total) 200) as [Hroom | Hfull]; [| lia].
    rewrite concat_snoc_length, <- Ht. rewrite cut_block_length by lia.
    specialize (Hh 0%nat chunk eq_refl). rewrite Nat.add_0_r in Hh. lia.
  - apply IH.
    + rewrite concat_snoc_length. lia.
    + exact Hfit.
    + intros k c Hk. specialize (Hh (S k) c Hk).
      now rewrite Nat.add_succ_r in Hh.
Qed.

Lemma context_blocks_fit (cap : Z) (fit rest : list fused) :
  forall i blocks total,
    0 <= total ->
    total + len (List.concat (all_blocks i fit)) <= cap ->
    context_blocks cap i (fit ++ rest) blocks total
    = context_blocks cap (i + List.length fit) rest (blocks ++ all_blocks i fit)
                     (total + len (List.concat (all_blocks i fit))).
Proof.
  induction fit as [| chunk fit IH]; intros i blocks total H0 Hfit.
  - simpl. rewrite Nat.add_0_r, app_nil_r. change (len []) with 0.
    now rewrite Z.add_0_r.
  - cbn [all_blocks List.concat] in Hfit |- *. rewrite len_app in Hfit |- *.
    pose proof (len_nonneg (block_of i chunk)).
    pose proof (len_nonneg (List.concat (all_blocks (S i) fit))).
    cbn [app context_blocks]. cbv zeta.
    destruct (Z.gtb_spec (total + len (block_of i chunk)) cap) as [Hover | _]; [lia |].
    rewrite IH by lia. cbn [List.length].
    rewrite Nat.add_succ_r, <- app_assoc, Z.add_assoc. reflexivity.
Qed.

Lemma context_blocks_extend (cap : Z) (chunks : list fused) :
  forall i blocks total,
    exists more, context_blocks cap i chunks blocks total = blocks ++ more.
Proof.
  induction chunks as [| chunk rest IH]; intros i blocks total;
    cbn [context_blocks]; cbv zeta.
  - exists []. now rewrite app_nil_r.
  - destruct (total + len (block_of i chunk) >? cap).
    + destruct (cap - total >? 200); [eexists; reflexivity |].
      exists []. now rewrite app_nil_r.
    + destruct (IH (S i) (blocks ++ [block_of i chunk]) (total + len (block_of i chunk)))
        as [more ->].
      rewrite <- app_assoc. eexists; reflexivity.
Qed.

(** X12: for [cap >= 0] the context built from the retrieved chunks is
    longer than [cap] by at most the length of a block's first line less
    46: with every first line [[Source i - breadcrumb]] of at most 46
    characters the context has at most [cap] characters. *)
Theorem context_cap_bound (cap H : Z) (top_chunks : list fused) :
  0 <= cap ->
  (forall k chunk, nth_error top_chunks k = Some chunk ->
                   len (source_header (S k) (breadcrumb_of chunk)) <= H) ->
  len (build_context cap top_chunks) <= Z.max cap (cap + H - 46).
Proof.
  intros Hcap Hh. unfold build_context.
  apply context_blocks_bound; [reflexivity | exact Hcap | exact Hh].
Qed.

Lemma context_cap_bound_witness :
  0 <= 40
  /\ (forall k chunk, nth_error two_chunks k = Some chunk ->
                      len (source_header (S k) (breadcrumb_of chunk)) <= 15)
  /\ len (build_context 40 two_chunks) <= Z.max 40 (40 + 15 - 46).
Proof.
  assert (H1 : 0 <= 40) by lia.
  assert (H2 : forall k chunk, nth_error two_chunks k = Some chunk ->
                               len (source_header (S k) (breadcrumb_of chunk)) <= 15).
  { intros [| [| k]] chunk E; simpl in E;
      [injection E as <- | injection E as <- | destruct k; discriminate];
      vm_compute; discriminate. }
  exact (conj H1 (conj H2 (context_cap_bound 40 15 two_chunks H1 H2))).
Defined.

(** X13: when the blocks of all the chunks have [cap] characters or fewer
    together, the context is all of them, one after the other, whole. *)
Theorem context_keeps_all_that_fit (cap : Z) (top_chunks : list fused) :
  len (List.concat (all_blocks 1 top_chunks)) <= cap ->
  build_context cap top_chunks = List.concat (all_blocks 1 top_chunks).
Proof.
  intros Hfit. unfold build_context.
  rewrite <- (app_nil_r top_chunks) at 1.
  rewrite context_blocks_fit; [reflexivity | lia | lia].
Qed.

Lemma context_keeps_all_that_fit_witness :
  len (List.concat (all_blocks 1 two_chunks)) <= 400
  /\ build_context 400 two_chunks = List.concat (all_blocks 1 two_chunks).
Proof.
  assert (H1 : len (List.concat (all_blocks 1 two_chunks)) <= 400)
    by (vm_compute; discriminate).
  exact (conj H1 (context_keeps_all_that_fit 400 two_chunks H1)).
Defined.

(** X14: the context stops at the first chunk whose block does not fit.
    The chunks before it are there whole; that chunk is there cut to
    [remaining - 50] characters of text when more than 200 characters
    remain, and is left out otherwise; no later chunk is there, whatever
    its size.  When the text is cut, the context has [cap] characters
    plus the length of the cut block's first line less 46. *)
Theorem context_stops_at_first_overflow (cap : Z)
  (fit : list fused) (chunk : fused) (rest : list fused) :
  let total := len (List.concat (all_blocks 1 fit)) in
  let i := S (List.length fit) in
  total <= cap < total + len (block_of i chunk) ->
  build_context cap (fit ++ chunk :: rest)
  = List.concat (all_blocks 1 fit)
    ++ (if cap - total >? 200 then cut_block i chunk (cap - total) else [])
  /\ (200 < cap - total ->
      cap - total - 50 <= len (text (base chunk)) ->
      len (build_context cap (fit ++ chunk :: rest))
      = cap + len (source_header i (breadcrumb_of chunk)) - 46).
Proof.
  intros total i Hcap. unfold build_context.
  pose proof (len_nonneg (List.concat (all_blocks 1 fit))) as H0. fold total in H0.
  assert (E : context_blocks cap 1 (fit ++ chunk :: rest) [] 0
              = all_blocks 1 fit
                ++ (if cap - total >? 200 then [cut_block i chunk (cap - total)] else [])).
  { rewrite context_blocks_fit by (fold total; lia).
    change (0 + len (List.concat (all_blocks 1 fit))) with total.
    change (1 + List.length fit)%nat with i. cbn [context_blocks app]. cbv zeta.
    destruct (Z.gtb_spec (total + len (block_of i chunk)) cap) as [_ | Hfit]; [| lia].
    destruct (cap - total >? 200); [reflexivity | now rewrite app_nil_r]. }
  rewrite E, concat_app. split.
  - destruct (cap - total >? 200); simpl; now rewrite ?app_nil_r.
  - intros Hroom Hlong.
    destruct (Z.gtb_spec (cap - total) 200) as [_ | Hno]; [| lia].
    rewrite len_app. fold total. cbn [List.concat]. rewrite app_nil_r.
    rewrite cut_block_length by lia. lia.
Qed.

Lemma context_stops_at_first_overflow_witness :
  len (List.concat (all_blocks 1 two_chunks)) <= 300
  < len (List.concat (all_blocks 1 two_chunks)) + len (block_of 3 long_chunk)
  /\ build_context 300 (two_chunks ++ long_chunk :: two_chunks)
     = List.concat (all_blocks 1 two_chunks)
       ++ (if 300 - len (List.concat (all_blocks 1 two_chunks)) >? 200
           then cut_block 3 long_chunk
                          (300 - len (List.concat (all_blocks 1 two_chunks)))
           else [])
  /\ (200 < 300 - len (List.concat (all_blocks 1 two_chunks)) ->
      300 - len (List.concat (all_blocks 1 two_chunks)) - 50
      <= len (text (base long_chunk)) ->
      len (build_context 300 (two_chunks ++ long_chunk :: two_chunks))
      = 300 + len (source_header 3 (breadcrumb_of long_chunk)) - 46).
Proof.
  assert (H1 : len (List.concat (all_blocks 1 two_chunks)) <= 300
               < len (List.concat (all_blocks 1 two_chunks))
                 + len (block_of 3 long_chunk))
    by (split; vm_compute; [discriminate | reflexivity]).
  exact (conj H1 (context_stops_at_first_overflow 300 two_chunks long_chunk
                    two_chunks H1)).
Defined.

(** X15: the context is empty only when there is no chunk, or when [cap]
    is 200 or less and the block of the first chunk is longer than [cap].
    With the limit of config.py, [chat] never builds an empty context
    from a non-empty list of chunks. *)
Theorem context_empty_iff (cap : Z) (top_chunks : list fused) :
  (build_context cap top_chunks = []
   <-> top_chunks = []
       \/ exists chunk rest,
            top_chunks = chunk :: rest
            /\ cap <= 200 /\ cap < len (block_of 1 chunk))
  /\ (top_chunks <> [] -> build_context MAX_CONTEXT_CHARS top_chunks <> []).
Proof.
  assert (Hblock : forall i chunk more, block_of i chunk ++ more <> []).
  { intros i chunk more. unfold block_of, source_header. discriminate. }
  assert (Hcut : forall i chunk remaining more, cut_block i chunk remaining ++ more <> []).
  { intros i chunk remaining more. unfold cut_block, source_header. discriminate. }
  assert (Hiff : forall c,
             build_context c top_chunks = []
             <-> top_chunks = []
                 \/ exists chunk rest,
                      top_chunks = chunk :: rest
                      /\ c <= 200 /\ c < len (block_of 1 chunk)).
  { intros c. unfold build_context. destruct top_chunks as [| chunk rest].
    - simpl. tauto.
    - cbn [context_blocks app]. cbv zeta. rewrite Z.add_0_l, Z.sub_0_r.
      destruct (Z.gtb_spec (len (block_of 1 chunk)) c) as [Hover | Hfit].
      + destruct (Z.gtb_spec c 200) as [Hroom | Hfull].
        * split.
          -- intros H. cbn [List.concat app] in H. exfalso. exact (Hcut _ _ _ _ H).
          -- intros [H | (ch & rs & _ & H & _)]; [discriminate | lia].
        * split; [| reflexivity]. intros _. right. exists chunk, rest. tauto.
      + destruct (context_blocks_extend c rest 2 [block_of 1 chunk]
                    (len (block_of 1 chunk))) as [more ->].
        split.
        * intros H. cbn [List.concat app] in H. exfalso. exact (Hblock _ _ _ H).
        * intros [H | (ch & rs & [= <- <-] & _ & H)]; [discriminate | lia]. }
  split; [apply Hiff |].
  intros Hne H. apply Hiff in H. destruct H as [H | (chunk & rest & _ & H & _)].
  - contradiction.
  - unfold MAX_CONTEXT_CHARS in H. lia.
Qed.

(** ** The source citations: [create_sources] and step 6 of [chat] *)

Lemma mem_In (x : str) (seen : list str) : mem x seen = true <-> In x seen.
Proof.
  unfold mem. rewrite existsb_exists. split.
  - intros (y & Hy & E). apply str_eqb_eq in E. now subst y.
  - intros H. exists x. split; [exact H | apply str_eqb_refl].
Qed.

Lemma take_In {A : Type} (n : Z) (l : list A) (x : A) : In x (take n l) -> In x l.
Proof. unfold take. apply firstn_In. Qed.

Lemma take_length {A : Type} (n : Z) (l : list A) :
  0 <= n -> Z.of_nat (List.length (take n l)) <= n.
Proof.
  intros H. unfold take, clip. rewrite length_firstn.
  destruct (n <? 0) eqn:E; [apply Z.ltb_lt in E; lia | lia].
Qed.

Lemma snippet_of_length (t : str) : len (snippet_of t) <= 203.
Proof.
  unfold snippet_of. destruct (Z.gtb_spec (len t) 200) as [Hlong | Hshort]; [| lia].
  rewrite len_app, slice_prefix_length by lia. change (len (lit "...")) with 3. lia.
Qed.

(** What the loop of [create_sources] keeps true. *)
Lemma create_sources_loop_inv (max_sources : Z) (chunks : list fused) :
  forall sources seen,
    NoDup (map Source.breadcrumb sources) ->
    (forall s, In s sources -> In (Source.breadcrumb s) seen) ->
    let out := create_sources_loop max_sources chunks sources seen in
    NoDup (map Source.breadcrumb out)
    /\ (forall s, In s out ->
                  In s sources \/ exists chunk, In chunk chunks /\ s = source_of chunk)
    /\ (List.length out <= List.length sources + List.length chunks)%nat
    /\ Z.of_nat (List.length out)
       <= Z.max (Z.of_nat (List.length sources) + 1) max_sources
    /\ exists more, out = sources ++ more.
Proof.
  induction chunks as [| chunk rest IH]; intros sources seen Hnd Hseen;
    cbn [create_sources_loop]; cbv zeta.
  - split; [exact Hnd |]. split; [tauto |]. split; [simpl; lia |]. split; [lia |].
    exists []. now rewrite app_nil_r.
  - destruct (mem (breadcrumb_of chunk) seen) eqn:Em.
    + destruct (IH sources seen Hnd Hseen) as (H1 & H2 & H3 & H4 & H5).
      split; [exact H1 |]. split; [| split; [simpl; lia | split; [exact H4 | exact H5]]].
      intros s Hs. destruct (H2 s Hs) as [H | (c & Hc & E)]; [tauto |].
      right. exists c. split; [right; exact Hc | exact E].
    + assert (Hfresh : ~ In (breadcrumb_of chunk) seen).
      { intros H. apply mem_In in H. congruence. }
      assert (Hnd' : NoDup (map Source.breadcrumb (sources ++ [source_of chunk]))).
      { rewrite map_app. simpl. apply NoDup_app; [exact Hnd | repeat constructor; tauto |].
        intros b Hb [<- | []]. apply in_map_iff in Hb.
        destruct Hb as (s & Hs & Hin). apply Hfresh. rewrite <- Hs. apply Hseen, Hin. }
      assert (Hseen' : forall s, In s (sources ++ [source_of chunk]) ->
                                 In (Source.breadcrumb s) (breadcrumb_of chunk :: seen)).
      { intros s Hs. apply in_app_or in Hs. destruct Hs as [Hs | [<- | []]].
        - right. apply Hseen, Hs.
        - left. reflexivity. }
      assert (Hlen : List.length (sources ++ [source_of chunk])
                     = S (List.length sources)) by (rewrite length_app; simpl; lia).
      destruct (Z.geb_spec (Z.of_nat (List.length (sources ++ [source_of chunk])))
                           max_sources) as [Hfull | Hroom].
      * split; [exact Hnd' |]. split; [| split; [simpl; lia | split; [lia |]]].
        -- intros s Hs. apply in_app_or in Hs. destruct Hs as [Hs | [<- | []]]; [tauto |].
           right. exists chunk. split; [left |]; reflexivity.
        -- eexists; reflexivity.
      * destruct (IH _ _ Hnd' Hseen') as (H1 & H2 & H3 & H4 & more & H5).
        split; [exact H1 |]. split; [| split; [simpl; lia | split; [lia |]]].
        -- intros s Hs. destruct (H2 s Hs) as [H | (c & Hc & E)].
           ++ apply in_app_or in H. destruct H as [H | [<- | []]]; [tauto |].
              right. exists chunk. split; [left |]; reflexivity.
           ++ right. exists c. split; [right; exact Hc | exact E].
        -- exists ([source_of chunk] ++ more). rewrite H5, <- app_assoc. reflexivity.
Qed.

(** X16: [create_sources] cites no breadcrumb twice; it returns at most
    [max_sources] sources (3 by default) when [max_sources] is not
    negative, and at most one when it is; every source is built from one
    of the chunks and its snippet has at most 203 characters; with
    [max_sources] at least 1 the first chunk is always cited first. *)
Theorem create_sources_bounds (retrieved_chunks : list fused) (max_sources : option Z) :
  let limit := match max_sources with Some m => m | None => 3 end in
  let sources := create_sources retrieved_chunks max_sources in
  NoDup (map Source.breadcrumb sources)
  /\ (0 <= limit -> Z.of_nat (List.length sources) <= limit)
  /\ (limit < 0 -> (List.length sources <= 1)%nat)
  /\ Forall (fun s => len (Source.snippet s) <= 203
                      /\ exists chunk, In chunk retrieved_chunks /\ s = source_of chunk)
            sources
  /\ (1 <= limit ->
      forall chunk rest, retrieved_chunks = chunk :: rest ->
                         exists more, sources = source_of chunk :: more).
Proof.
  intros limit sources. subst sources. unfold create_sources.
  change (match max_sources with Some m => m | None => MAX_SOURCES end) with limit.
  destruct (create_sources_loop_inv limit (take limit retrieved_chunks) [] []
              (NoDup_nil _) ltac:(intros s [])) as (H1 & H2 & H3 & H4 & _).
  cbv zeta in *. split; [exact H1 |]. split; [| split; [| split]].
  - intros Hlimit. pose proof (take_length limit retrieved_chunks Hlimit). simpl in H3. lia.
  - intros Hneg. simpl in H4. lia.
  - apply Forall_forall. intros s Hs. destruct (H2 s Hs) as [[] | (c & Hc & ->)].
    split; [apply snippet_of_length |]. exists c. split; [exact (take_In _ _ _ Hc) | reflexivity].
  - intros Hlimit chunk rest ->.
    assert (Htake : exists rest', take limit (chunk :: rest) = chunk :: rest').
    { unfold take, clip. destruct (limit <? 0) eqn:E; [apply Z.ltb_lt in E; lia |].
      destruct (Z.to_nat (Z.min limit (Z.of_nat (List.length (chunk :: rest))))) as [| n] eqn:En;
        [simpl List.length in En; lia |].
      simpl. eexists; reflexivity. }
    destruct Htake as [rest' ->]. cbn [create_sources_loop]. cbv zeta.
    change (mem (breadcrumb_of chunk) []) with false. cbn [app List.length].
    destruct (Z.of_nat 1 >=? limit); [exists []; reflexivity |].
    destruct (create_sources_loop_inv limit rest' [source_of chunk] [breadcrumb_of chunk])
      as (_ & _ & _ & _ & more & Hmore).
    + repeat constructor. simpl. tauto.
    + intros s [<- | []]. left. reflexivity.
    + cbv zeta in Hmore. rewrite Hmore. exists more. reflexivity.
Qed.

Lemma create_sources_loop_no_break (max_sources : Z) (chunks : list fused) :
  forall sources seen,
    Z.of_nat (List.length sources) + Z.of_nat (List.length chunks) <= max_sources ->
    create_sources_loop max_sources chunks sources seen
    = chat_sources_loop chunks sources seen.
Proof.
  induction chunks as [| chunk rest IH]; intros sources seen Hlen;
    cbn [create_sources_loop chat_sources_loop]; cbv zeta; [reflexivity |].
  cbn [List.length] in Hlen.
  destruct (mem (breadcrumb_of chunk) seen); [apply IH; lia |].
  assert (Hl : List.length (sources ++ [source_of chunk]) = S (List.length sources))
    by (rewrite length_app; simpl; lia).
  destruct (Z.geb_spec (Z.of_nat (List.length (sources ++ [source_of chunk]))) max_sources)
    as [Hfull | Hroom].
  - destruct rest as [| c rest]; [reflexivity | simpl List.length in Hlen; lia].
  - apply IH. lia.
Qed.

(** X17: the sources [chat] builds in place in its step 6 are those of
    [create_sources] for the same chunks with the default limit, so the
    response carries at most 3 sources, no breadcrumb twice. *)
Theorem chat_sources_agree (top_chunks : list fused) :
  chat_sources top_chunks = create_sources top_chunks None
  /\ (List.length (chat_sources top_chunks) <= 3)%nat
  /\ NoDup (map Source.breadcrumb (chat_sources top_chunks)).
Proof.
  assert (E : chat_sources top_chunks = create_sources top_chunks None).
  { unfold chat_sources, create_sources. symmetry.
    apply create_sources_loop_no_break.
    pose proof (take_length MAX_SOURCES top_chunks ltac:(unfold MAX_SOURCES; lia)).
    simpl List.length. lia. }
  split; [exact E |]. rewrite E. unfold create_sources.
  destruct (create_sources_loop_inv MAX_SOURCES (take MAX_SOURCES top_chunks) [] []
              (NoDup_nil _) ltac:(intros s [])) as (H1 & _ & H3 & _).
  cbv zeta in *. split; [| exact H1].
  pose proof (take_length MAX_SOURCES top_chunks ltac:(unfold MAX_SOURCES; lia)) as Ht.
  unfold MAX_SOURCES in Ht at 2. simpl in H3. lia.
Qed.

(** X18: [store_in_chroma] stores no ['url']: the metadata of a chunk
    holds its breadcrumb, source file, [chunk_id] and offsets only.  So
    for retrieved chunks whose metadata is the one stored for an indexed
    chunk, every source [create_sources] builds has [url = None], and its
    breadcrumb is the breadcrumb of an indexed chunk, never the
    ['Unknown'] default. *)
Theorem indexed_sources_have_no_url (retrieved_chunks : list fused)
  (max_sources : option Z) :
  (forall chunk, In chunk retrieved_chunks ->
                 exists c, meta (base chunk) = chunk_metadata c) ->
  Forall (fun s =>
            Source.url s = None
            /\ exists chunk c,
                 In chunk retrieved_chunks
                 /\ meta (base chunk) = chunk_metadata c
                 /\ Source.breadcrumb s = Chunk.breadcrumb c)
         (create_sources retrieved_chunks max_sources).
Proof.
  intros Hstored. unfold create_sources.
  set (limit := match max_sources with Some m => m | None => MAX_SOURCES end).
  destruct (create_sources_loop_inv limit (take limit retrieved_chunks) [] []
              (NoDup_nil _) ltac:(intros s [])) as (_ & H2 & _).
  cbv zeta in H2. apply Forall_forall. intros s Hs.
  destruct (H2 s Hs) as [[] | (chunk & Hc & ->)]. apply take_In in Hc.
  destruct (Hstored chunk Hc) as [c Hm]. unfold source_of, breadcrumb_of. simpl.
  rewrite Hm. split; [reflexivity |]. exists chunk, c.
  split; [exact Hc |]. split; [exact Hm | reflexivity].
Qed.

Lemma indexed_sources_have_no_url_witness :
  (forall chunk, In chunk retrieved_indexed ->
                 exists c, meta (base chunk) = chunk_metadata c)
  /\ Forall (fun s =>
               Source.url s = None
               /\ exists chunk c,
                    In chunk retrieved_indexed
                    /\ meta (base chunk) = chunk_metadata c
                    /\ Source.breadcrumb s = Chunk.breadcrumb c)
            (create_sources retrieved_indexed None).
Proof.
  assert (H1 : forall chunk, In chunk retrieved_indexed ->
                             exists c, meta (base chunk) = chunk_metadata c).
  { intros chunk [<- | []]. exists indexed_chunk. reflexivity. }
  exact (conj H1 (indexed_sources_have_no_url retrieved_indexed None H1)).
Defined.

(** ** The extraction chosen by the fallback of [chat] *)













(** ** [process_directory]: the documents of the files found *)

Local Open Scope Z_scope.

Lemma file_documents_app (f : Ingest.found_file) (breadcrumb : str) (texts : list str) :
  forall idx documents,
    Ingest.file_documents f breadcrumb idx texts documents
    = documents ++ Ingest.file_documents f breadcrumb idx texts [].
Proof.
  induction texts as [| t texts IH]; intros idx documents; simpl.
  - now rewrite app_nil_r.
  - destruct (truthy (strip t)); [| apply IH].
    rewrite IH. rewrite (IH (S idx) [_]). now rewrite <- app_assoc.
Qed.

Lemma process_files_app (file_paths : list Ingest.found_file) :
  forall documents,
    Ingest.process_files file_paths documents
    = documents ++ Ingest.process_files file_paths [].
Proof.
  induction file_paths as [| f rest IH]; intros documents; cbn [Ingest.process_files].
  - now rewrite app_nil_r.
  - destruct (Ingest.extract_text_from_file f) as [| t texts]; [apply IH |].
    rewrite IH. rewrite (IH (Ingest.file_documents f _ 0%nat (t :: texts) [])).
    rewrite (file_documents_app f _ (t :: texts) 0%nat documents).
    now rewrite <- app_assoc.
Qed.

Lemma process_files_cons (f : Ingest.found_file) (rest : list Ingest.found_file) :
  Ingest.process_files (f :: rest) []
  = Ingest.file_documents f (Ingest.build_breadcrumb f) 0%nat
                          (Ingest.extract_text_from_file f) []
    ++ Ingest.process_files rest [].
Proof.
  cbn [Ingest.process_files].
  destruct (Ingest.extract_text_from_file f) as [| t texts]; [reflexivity |].
  apply process_files_app.
Qed.

(** Each document of a file is built from one of its non-blank texts. *)
Lemma file_documents_In (f : Ingest.found_file) (breadcrumb : str) (texts : list str) :
  forall idx d,
    In d (Ingest.file_documents f breadcrumb idx texts []) ->
    exists k t,
      nth_error texts k = Some t
      /\ truthy (strip t) = true
      /\ d = Document.mk t (Ingest.row_breadcrumb breadcrumb (idx + k))
                         (Ingest.relative f) (lower (Ingest.suffix f))
                         (Some [(lit "url", Ingest.build_canvas_url breadcrumb);
                                (lit "file_path", Ingest.path f)]).
Proof.
  induction texts as [| t texts IH]; intros idx d Hd; [destruct Hd |].
  simpl in Hd. destruct (truthy (strip t)) eqn:Et.
  - rewrite file_documents_app in Hd. destruct Hd as [<- | Hd].
    + exists 0%nat, t. rewrite Nat.add_0_r. auto.
    + destruct (IH _ _ Hd) as (k & t' & Hk & Ht' & ->).
      exists (S k), t'. rewrite Nat.add_succ_r. auto.
  - destruct (IH _ _ Hd) as (k & t' & Hk & Ht' & ->).
    exists (S k), t'. rewrite Nat.add_succ_r. auto.
Qed.

Lemma row_breadcrumb_inj (breadcrumb : str) (i j : nat) :
  Ingest.row_breadcrumb breadcrumb i = Ingest.row_breadcrumb breadcrumb j -> i = j.
Proof.
  unfold Ingest.row_breadcrumb.
  destruct (Nat.eqb_spec i 0) as [-> | Hi]; destruct (Nat.eqb_spec j 0) as [-> | Hj];
    intros H; [reflexivity | | |].
  - exfalso. apply (f_equal (@List.length ascii)) in H.
    rewrite !length_app in H. simpl in H. lia.
  - exfalso. apply (f_equal (@List.length ascii)) in H.
    rewrite !length_app in H. simpl in H. lia.
  - apply app_inv_head in H. apply (app_inv_head (lit " (Row ")) in H.
    apply app_inv_tail in H. apply str_of_nat_inj in H. lia.
Qed.

Lemma file_documents_breadcrumbs (f : Ingest.found_file) (breadcrumb : str)
  (texts : list str) :
  forall idx,
    NoDup (map Document.breadcrumb (Ingest.file_documents f breadcrumb idx texts [])).
Proof.
  induction texts as [| t texts IH]; intros idx; simpl; [constructor |].
  destruct (truthy (strip t)); [| apply IH].
  rewrite file_documents_app. simpl. constructor; [| apply IH].
  intros Hin. apply in_map_iff in Hin. destruct Hin as (d & Hb & Hd).
  destruct (file_documents_In f breadcrumb texts (S idx) d Hd) as (k & t' & _ & _ & ->).
  simpl in Hb. apply row_breadcrumb_inj in Hb. lia.
Qed.

Lemma process_directory_cons (f : Ingest.found_file) (rest : list Ingest.found_file) :
  Ingest.process_directory (f :: rest)
  = Ingest.process_directory [f] ++ Ingest.process_directory rest.
Proof.
  unfold Ingest.process_directory. cbn [filter].
  destruct (existsb _ Ingest.supported_extensions).
  - rewrite process_files_cons. rewrite (process_files_cons f []).
    simpl. now rewrite app_nil_r.
  - reflexivity.
Qed.

Lemma process_directory_one (f : Ingest.found_file) (d : Document.t) :
  In d (Ingest.process_directory [f]) ->
  In (lower (Ingest.suffix f)) Ingest.supported_extensions
  /\ In d (Ingest.file_documents f (Ingest.build_breadcrumb f) 0%nat
                                 (Ingest.extract_text_from_file f) []).
Proof.
  unfold Ingest.process_directory. cbn [filter].
  destruct (existsb _ Ingest.supported_extensions) eqn:E; [| intros []].
  rewrite process_files_cons. simpl. rewrite app_nil_r. intros Hd.
  split; [| exact Hd]. apply existsb_exists in E. destruct E as (x & Hx & E).
  apply str_eqb_eq in E. now subst x.
Qed.

(** X20: every document [process_directory] returns has a non-blank
    text, a supported file type, and is built from one of the texts
    extracted from a file found, which it names as its source file.  The
    documents come file after file, and those of one file have pairwise
    distinct breadcrumbs: the first text keeps the file's breadcrumb, the
    text at position [idx] gets the suffix [(Row idx+1)]. *)
Theorem process_directory_documents (found : list Ingest.found_file) :
  Forall (fun d =>
            truthy (strip (Document.text d)) = true
            /\ In (Document.file_type d) Ingest.supported_extensions
            /\ exists f idx,
                 In f found
                 /\ nth_error (Ingest.extract_text_from_file f) idx
                    = Some (Document.text d)
                 /\ Document.source_file d = Ingest.relative f
                 /\ Document.breadcrumb d
                    = Ingest.row_breadcrumb (Ingest.build_breadcrumb f) idx)
         (Ingest.process_directory found)
  /\ (forall f rest,
         Ingest.process_directory (f :: rest)
         = Ingest.process_directory [f] ++ Ingest.process_directory rest)
  /\ (forall f, NoDup (map Document.breadcrumb (Ingest.process_directory [f]))).
Proof.
  split; [| split; [exact process_directory_cons |]].
  - induction found as [| f rest IH]; [constructor |].
    rewrite process_directory_cons. apply Forall_app. split.
    + apply Forall_forall. intros d Hd.
      destruct (process_directory_one f d Hd) as [Hsuf Hin].
      destruct (file_documents_In f _ _ 0%nat d Hin) as (k & t & Hk & Ht & ->).
      simpl. split; [exact Ht |]. split; [exact Hsuf |].
      exists f, k. split; [left; reflexivity |]. auto.
    + eapply Forall_impl; [| exact IH]. cbv beta.
      intros d (H1 & H2 & f' & idx & Hf' & Hrest).
      split; [exact H1 |]. split; [exact H2 |].
      exists f', idx. split; [right; exact Hf' | exact Hrest].
  - intros f. unfold Ingest.process_directory. cbn [filter].
    destruct (existsb _ Ingest.supported_extensions); [| constructor].
    rewrite process_files_cons. simpl. rewrite app_nil_r.
    apply file_documents_breadcrumbs.
Qed.

Lemma lstrip_head (s : str) (c : ascii) (r : str) :
  lstrip s = c :: r -> In c s /\ isspace c = false.
Proof.
  induction s as [| d s IH]; simpl; [discriminate |].
  destruct (isspace d) eqn:E.
  - intros H. destruct (IH H) as [Hin Hc]. split; [right |]; assumption.
  - intros [= -> ->]. split; [left; reflexivity | exact E].
Qed.

(** A string that is not blank holds a character that is not white space. *)
Lemma strip_nonblank (s : str) :
  truthy (strip s) = true -> exists p c, char_at s p = Some c /\ isspace c = false.
Proof.
  unfold strip, rstrip. destruct (lstrip s) as [| c r] eqn:E; [discriminate |].
  intros _. destruct (lstrip_head s c r E) as [Hin Hc].
  apply In_nth_error in Hin. destruct Hin as [n Hn].
  exists (Z.of_nat n), c. split; [| exact Hc].
  unfold char_at. destruct (Z.of_nat n <? 0) eqn:En; [apply Z.ltb_lt in En; lia |].
  now rewrite Nat2Z.id.
Qed.

(** X21: no document ingested is lost by the indexer: [create_chunks]
    returns on the documents of [process_directory], and every one of
    them has at least one chunk, a slice of its text under its breadcrumb
    and source file. *)
Theorem ingested_documents_are_indexed (found : list Ingest.found_file) :
  exists chunks,
    create_chunks (Ingest.process_directory found) = Some chunks
    /\ forall d,
         In d (Ingest.process_directory found) ->
         exists c,
           In c chunks
           /\ Chunk.breadcrumb c = Document.breadcrumb d
           /\ Chunk.source_file c = Document.source_file d
           /\ Chunk.text c
              = slice (Document.text d) (Chunk.start_char c) (Chunk.end_char c).
Proof.
  destruct (create_chunks_total (Ingest.process_directory found)) as [chunks Hchunks].
  exists chunks. split; [exact Hchunks |]. intros d Hd.
  assert (Hblank : truthy (strip (Document.text d)) = true).
  { clear Hchunks. revert d Hd. induction found as [| f rest IH]; intros d Hd; [destruct Hd |].
    rewrite process_directory_cons in Hd. apply in_app_or in Hd.
    destruct Hd as [Hd | Hd]; [| exact (IH d Hd)].
    destruct (process_directory_one f d Hd) as [_ Hin].
    destruct (file_documents_In f _ _ 0%nat d Hin) as (k & t & _ & Ht & ->).
    exact Ht. }
  destruct (strip_nonblank _ Hblank) as (p & ch & Hch & Hsp).
  destruct (create_chunks_char_covered _ chunks Hchunks d p ch Hd Hch Hsp)
    as (c & Hc & Hb & Hf & Ht & _).
  exists c. auto.
Qed.
